(** * Shot Memory Store and Course Insight Engine (index.js)

    A shallow embedding of the memory-system helpers of [index.js]
    ([loadShots], [saveShots], [addShot], [updateShotFeedback],
    [findRelevantShots], [generateInsightsFromHistory]), of the feedback
    route [POST /api/feedback/caddie] and of the aggregation done by
    [GET /api/insights/course], followed by the properties of the
    specification that can be stated over them.

    Conventions of the embedding.
    - A JavaScript value read from or written to [shots.json] is a
      [JS.value].  Numbers are the integer-valued doubles (as [Z]); the
      ratios and averages the code computes from them are exact rationals
      ([Q]), and the comparisons the code makes are made on these.  The
      number [toFixed] prints is that of the double: the exact rational is
      first rounded to binary64, to nearest with ties to even, and the
      majority test of the tricky score comes out on that double as on the
      exact quotient ([majority_test_on_doubles]).
    - An object used as a dictionary is an association list in insertion
      order; [Object.keys] lists the array-index keys first, ascending, and
      then the other keys in insertion order.
    - The file [data/shots.json] is a [document]; the side effects of the
      helpers are threaded through a small state monad over [World]. *)

From Stdlib Require Import List ZArith QArith Qround Qpower String Ascii Bool.
From Stdlib Require Import Lia Lqa SpecFloat.
From Stdlib Require Import Permutation Sorted DecimalString DecimalZ DecimalPos.
Import ListNotations.

Local Open Scope string_scope.
Local Open Scope list_scope.
Local Open Scope Z_scope.

(* ================================================================== *)
(** ** The fragment of JavaScript the helpers rely on *)

Module JS.

(** JSON values that occur in the fields the core reads, plus
    [undefined] for a property that is absent. *)
Inductive value : Type :=
| VUndef : value
| VNull : value
| VBool : bool -> value
| VNum : Z -> value
| VStr : string -> value.

(** [ToBoolean]: [undefined], [null], [false], [0] and the empty string
    are falsy. *)
Definition truthy (v : value) : bool :=
  match v with
  | VUndef => false
  | VNull => false
  | VBool b => b
  | VNum z => negb (z =? 0)%Z
  | VStr s => negb (s =? "")%string
  end.

(** [a === b] on primitive values (no NaN occurs in a JSON document). *)
Definition strictEq (a b : value) : bool :=
  match a, b with
  | VUndef, VUndef => true
  | VNull, VNull => true
  | VBool x, VBool y => Bool.eqb x y
  | VNum x, VNum y => (x =? y)%Z
  | VStr x, VStr y => (x =? y)%string
  | _, _ => false
  end.

(** [a || b]. *)
Definition or (a b : value) : value := if truthy a then a else b.

(** Decimal rendering of an integer-valued number. *)
Definition numToString (z : Z) : string :=
  NilZero.string_of_int (Z.to_int z).

(** [String(v)], as used for property keys and in template literals. *)
Definition toString (v : value) : string :=
  match v with
  | VUndef => "undefined"
  | VNull => "null"
  | VBool true => "true"
  | VBool false => "false"
  | VNum z => numToString z
  | VStr s => s
  end.

(** [s.includes(c)] for a one-character needle. *)
Fixpoint includesChar (c : ascii) (s : string) : bool :=
  match s with
  | EmptyString => false
  | String d r => if Ascii.eqb c d then true else includesChar c r
  end.

(** [arr.join(sep)]. *)
Fixpoint join (sep : string) (l : list string) : string :=
  match l with
  | [] => ""
  | [x] => x
  | x :: r => (x ++ sep ++ join sep r)%string
  end.

(** [[...new Set(l)]]: the first occurrence of every element, in order
    of first occurrence. *)
Fixpoint dedupBy {A : Type} (eqb : A -> A -> bool) (l : list A) : list A :=
  match l with
  | [] => []
  | x :: r => x :: filter (fun y => negb (eqb x y)) (dedupBy eqb r)
  end.

(** [Array.prototype.sort(cmp)]: the sort is stable, so for a comparator
    that is a consistent ordering its result is the one computed by this
    stable insertion sort.  [cmp a b <= 0] keeps [a] before [b]. *)
Fixpoint insertBy {A : Type} (cmp : A -> A -> Z) (x : A) (l : list A)
  : list A :=
  match l with
  | [] => [x]
  | y :: r => if cmp x y <=? 0 then x :: y :: r else y :: insertBy cmp x r
  end.

Fixpoint sortBy {A : Type} (cmp : A -> A -> Z) (l : list A) : list A :=
  match l with
  | [] => []
  | x :: r => insertBy cmp x (sortBy cmp r)
  end.

(** An array index is a canonical decimal numeral below [2^32 - 1]. *)
Definition digitOf (c : ascii) : option Z :=
  let n := Z.of_nat (nat_of_ascii c) in
  if (48 <=? n) && (n <=? 57) then Some (n - 48) else None.

Fixpoint parseDigits (acc : Z) (s : string) : option Z :=
  match s with
  | EmptyString => Some acc
  | String c r =>
      match digitOf c with
      | Some d => parseDigits (10 * acc + d) r
      | None => None
      end
  end.

Definition arrayIndex (k : string) : option Z :=
  match k with
  | EmptyString => None
  | _ =>
      match parseDigits 0 k with
      | Some n =>
          if (numToString n =? k)%string && (n <? 4294967295)
          then Some n else None
      | None => None
      end
  end.

(** Insertion-ordered dictionary with string keys. *)
Definition dict (A : Type) : Type := list (string * A).

Fixpoint get {A : Type} (k : string) (d : dict A) : option A :=
  match d with
  | [] => None
  | (k', v) :: r => if (k =? k')%string then Some v else get k r
  end.

(** [d[k] = f(d[k])] for a present key, [d[k] = init] appended at the
    end otherwise. *)
Fixpoint upsert {A : Type} (k : string) (init : A) (f : A -> A)
  (d : dict A) : dict A :=
  match d with
  | [] => [(k, init)]
  | (k', v) :: r =>
      if (k =? k')%string then (k', f v) :: r
      else (k', v) :: upsert k init f r
  end.

Definition indexKeyCmp (a b : string * Z) : Z := snd a - snd b.

(** [Object.keys(d)]. *)
Definition keys {A : Type} (d : dict A) : list string :=
  let ks := map fst d in
  let idx :=
    flat_map (fun k => match arrayIndex k with
                       | Some n => [(k, n)]
                       | None => []
                       end) ks in
  map fst (sortBy indexKeyCmp idx)
    ++ filter (fun k => match arrayIndex k with
                        | Some _ => false
                        | None => true
                        end) ks.

(** Names every object inherits from [Object.prototype]: reading
    [d[name]] on a fresh dictionary yields a truthy non-array. *)
Definition protoNames : list string :=
  [ "constructor"; "toString"; "toLocaleString"; "valueOf";
    "hasOwnProperty"; "isPrototypeOf"; "propertyIsEnumerable";
    "__proto__"; "__defineGetter__"; "__defineSetter__";
    "__lookupGetter__"; "__lookupSetter__" ].

Definition isProtoName (k : string) : bool :=
  existsb (fun n => (k =? n)%string) protoNames.

(** The grouping loop
    [l.forEach(x => { if (!d[k]) d[k] = fresh; ... d[k] ... })]:
    an element without a key is skipped; the first element of a key
    creates its entry ([init]), the later ones update it ([step]).  For a
    key inherited from [Object.prototype] the test finds a truthy value,
    no entry is created and the update throws ([None]). *)
Fixpoint collect {A B : Type} (key : A -> option string) (init : A -> B)
  (step : A -> B -> B) (l : list A) (d : dict B) : option (dict B) :=
  match l with
  | [] => Some d
  | x :: r =>
      match key x with
      | None => collect key init step r d
      | Some k =>
          if isProtoName k then None
          else collect key init step r (upsert k (init x) (step x) d)
      end
  end.

End JS.

Import JS.

(* ================================================================== *)
(** ** Data model: the records of [shots.json] *)

Record Recommendation : Type := mkRecommendation
  { club : value; aim : value; avoid : value; confidence : value }.

Record Conditions : Type := mkConditions
  { wind : value; elevation : value }.

Record ShotContext : Type := mkShotContext
  { surface : value; conditions : option Conditions }.

(** The fields of a stored shot the core reads or writes.  [None] for
    [recommendation] and [shotContext] stands for an absent or [null]
    property. *)
Record Shot : Type := mkShot
  { id : value;
    courseId : value;
    holeNumber : value;
    shotType : value;
    recommendation : option Recommendation;
    shotContext : option ShotContext;
    clubUsed : value;
    distance : value;
    userFeedback : value;
    feedbackTimestamp : value;
    timestamp : value;
    uploadedAt : value;
    imageUrl : value;
    suggestedClub : value }.

(** [shot.recommendation?.club] *)
Definition recClub (s : Shot) : value :=
  match recommendation s with
  | Some r => club r
  | None => VUndef
  end.

(** [c.conditions?.elevation] and [c.conditions?.wind] *)
Definition ctxElevation (c : ShotContext) : value :=
  match conditions c with
  | Some k => elevation k
  | None => VUndef
  end.

Definition ctxWind (c : ShotContext) : value :=
  match conditions c with
  | Some k => wind k
  | None => VUndef
  end.

(** [shot.userFeedback = feedback; shot.feedbackTimestamp = now] *)
Definition setFeedback (feedback now : value) (s : Shot) : Shot :=
  {| id := id s; courseId := courseId s; holeNumber := holeNumber s;
     shotType := shotType s; recommendation := recommendation s;
     shotContext := shotContext s; clubUsed := clubUsed s;
     distance := distance s;
     userFeedback := feedback;
     feedbackTimestamp := now;
     timestamp := timestamp s; uploadedAt := uploadedAt s;
     imageUrl := imageUrl s; suggestedClub := suggestedClub s |}.

(* ================================================================== *)
(** ** Record store: [data/shots.json] and the helpers around it *)

(** What the file system holds at [data/shots.json]: nothing, something
    [readFileSync] or [JSON.parse] throws on, or the JSON text of an array
    of shots. *)
Inductive document : Type :=
| Missing : document
| Corrupt : document
| Stored : list Shot -> document.

Inductive logEntry : Type :=
| LogInfo : string -> logEntry
| LogError : string -> logEntry.

Record World : Type := mkWorld
  { file : document;
    writable : bool;          (* does [writeFileSync] succeed *)
    console : list logEntry }.

Definition M (A : Type) : Type := World -> A * World.

Definition ret {A : Type} (a : A) : M A := fun w => (a, w).

Definition bind {A B : Type} (m : M A) (k : A -> M B) : M B :=
  fun w => let (a, w') := m w in k a w'.

Declare Scope store_scope.
Delimit Scope store_scope with store.
Notation "x <- m ;; k" := (bind m (fun x => k))
  (at level 61, m at next level, right associativity) : store_scope.
Notation "m ;;; k" := (bind m (fun _ => k))
  (at level 61, right associativity) : store_scope.
Local Open Scope store_scope.

Definition log (e : logEntry) : M unit :=
  fun w => (tt, {| file := file w; writable := writable w;
                   console := console w ++ [e] |}).

Definition readFile : M document := fun w => (file w, w).

Definition writeFile (shots : list Shot) : M bool :=
  fun w => if writable w
           then (true, {| file := Stored shots; writable := writable w;
                          console := console w |})
           else (false, w).

(** [function loadShots()] *)
Definition loadShots : M (list Shot) :=
  d <- readFile ;;
  match d with
  | Missing => ret []
  | Stored shots => ret shots
  | Corrupt => log (LogError "Error loading shots:") ;;; ret []
  end.

(** [function saveShots(shots)] *)
Definition saveShots (shots : list Shot) : M bool :=
  ok <- writeFile shots ;;
  if ok then ret true
  else log (LogError "Error saving shots:") ;;; ret false.

(** [function addShot(shotData)] *)
Definition addShot (shotData : Shot) : M unit :=
  shots <- loadShots ;;
  saveShots (shots ++ [shotData]) ;;;
  ret tt.

(** The in-place update of the element [shots.find(p)] returns. *)
Fixpoint updateFirst (p : Shot -> bool) (f : Shot -> Shot) (l : list Shot)
  : list Shot :=
  match l with
  | [] => []
  | s :: r => if p s then f s :: r else s :: updateFirst p f r
  end.

(** [function updateShotFeedback(shotId, feedback)]; [now] is
    [new Date().toISOString()]. *)
Definition updateShotFeedback (shotId feedback : value) (now : string)
  : M bool :=
  shots <- loadShots ;;
  match find (fun s => strictEq (id s) shotId) shots with
  | Some _ =>
      saveShots (updateFirst (fun s => strictEq (id s) shotId)
                   (setFeedback feedback (VStr now)) shots) ;;;
      ret true
  | None => ret false
  end.

(* ------------------------------------------------------------------ *)
(** *** Feedback updater: [POST /api/feedback/caddie] *)

Record FeedbackBody : Type := mkFeedbackBody
  { fb_courseId : value;
    fb_hole : value;
    fb_suggestedClub : value;
    fb_feedback : value;
    fb_shotId : value }.

Inductive Response : Type :=
| RespOk : Response                 (* [res.json({ ok: true })] *)
| RespError : Response.             (* [res.status(500)] *)

(** The standalone record the route builds when no [shotId] came with
    the request. *)
Definition feedbackData (b : FeedbackBody) (now : string) (nowMs : Z)
  (rnd : string) : Shot :=
  {| id := VStr ("feedback-" ++ numToString nowMs ++ "-" ++ rnd)%string;
     courseId := fb_courseId b;
     holeNumber := fb_hole b;
     shotType := VUndef;
     recommendation := None;
     shotContext := None;
     clubUsed := VUndef;
     distance := VUndef;
     userFeedback := fb_feedback b;
     feedbackTimestamp := VStr now;
     timestamp := VStr now;
     uploadedAt := VUndef;
     imageUrl := VUndef;
     suggestedClub := fb_suggestedClub b |}.

(** The route handler.  [now], [nowMs] and [rnd] are what the clock and
    [Math.random] give during the request. *)
Definition submitFeedback (b : FeedbackBody) (now : string) (nowMs : Z)
  (rnd : string) : M Response :=
  log (LogInfo "Caddie feedback received:") ;;;
  if truthy (fb_shotId b)
  then updateShotFeedback (fb_shotId b) (fb_feedback b) now ;;; ret RespOk
  else addShot (feedbackData b now nowMs rnd) ;;; ret RespOk.

(* ------------------------------------------------------------------ *)
(** *** Shot capture: the record [POST /api/photo/analyze] appends *)

Record Metadata : Type := mkMetadata
  { md_timestamp : value;
    md_holeNumber : value;
    md_shotType : value;
    md_courseId : value;
    md_clubUsed : value;
    md_distance : value }.

(** [{ id, ...metadata, recommendation, shotContext, uploadedAt,
       userFeedback: null, feedbackTimestamp: null, imageUrl }] *)
Definition shotData (shotId : string) (md : Metadata)
  (rec : Recommendation) (ctx : ShotContext) (now : string)
  (url : string) : Shot :=
  {| id := VStr shotId;
     courseId := md_courseId md;
     holeNumber := md_holeNumber md;
     shotType := md_shotType md;
     recommendation := Some rec;
     shotContext := Some ctx;
     clubUsed := md_clubUsed md;
     distance := md_distance md;
     userFeedback := VNull;
     feedbackTimestamp := VNull;
     timestamp := md_timestamp md;
     uploadedAt := VStr now;
     imageUrl := VStr url;
     suggestedClub := VUndef |}.

(** [appendShot]: the capture path stores the record and answers with
    its id. *)
Definition appendShot (shotId : string) (md : Metadata)
  (rec : Recommendation) (ctx : ShotContext) (now : string)
  (url : string) : M value :=
  addShot (shotData shotId md rec ctx now url) ;;;
  ret (VStr shotId).

(* ================================================================== *)
(** ** Relevance matcher: [findRelevantShots] *)

(** The filter callback of [findRelevantShots]. *)
Definition relevant (qCourse qHole qShotType qClub : value) (shot : Shot)
  : bool :=
  if negb (strictEq (courseId shot) qCourse) then false
  else if strictEq (holeNumber shot) qHole then
    if truthy qShotType && negb (strictEq (shotType shot) qShotType)
    then false
    else if truthy qClub && negb (strictEq (recClub shot) qClub)
    then false
    else true
  else false.

(** [a.timestamp || a.uploadedAt || 0] *)
Definition bestKnownTimestamp (a : Shot) : value :=
  or (or (timestamp a) (uploadedAt a)) (VNum 0).

Section Recency.

(** [Date.parse]: milliseconds since the epoch of a date string, [None]
    for a string that is no date (an invalid [Date], whose time value is
    NaN). *)
Variable Date_parse : string -> option Z.

(** The time value of [new Date(v)]. *)
Definition dateOf (v : value) : option Z :=
  match v with
  | VStr s => Date_parse s
  | VNum z => if Z.abs z <=? 8640000000000000 then Some z else None
  | VBool b => Some (if b then 1 else 0)
  | VNull => Some 0
  | VUndef => None
  end.

Definition shotTime (a : Shot) : option Z := dateOf (bestKnownTimestamp a).

(** The comparator [(a, b) => timeB - timeA]; a NaN difference counts
    as [+0] for [sort]. *)
Definition byRecency (a b : Shot) : Z :=
  match shotTime b, shotTime a with
  | Some tb, Some ta => tb - ta
  | _, _ => 0
  end.

(** [function findRelevantShots(courseId, holeNumber, shotType, club)] *)
Definition findRelevantShots (qCourse qHole qShotType qClub : value)
  : M (list Shot) :=
  shots <- loadShots ;;
  ret (sortBy byRecency
         (filter (relevant qCourse qHole qShotType qClub) shots)).

End Recency.

(* ================================================================== *)
(** ** Insight synthesizer: [generateInsightsFromHistory] *)

(** A thrown [TypeError] is [None]. *)
Definition obind {A B : Type} (m : option A) (k : A -> option B)
  : option B :=
  match m with
  | Some a => k a
  | None => None
  end.

Fixpoint omap {A B : Type} (f : A -> option B) (l : list A)
  : option (list B) :=
  match l with
  | [] => Some []
  | x :: r =>
      obind (f x) (fun y => obind (omap f r) (fun ys => Some (y :: ys)))
  end.

Definition Qltb (x y : Q) : bool := negb (Qle_bool y x).

(** The sentences pushed on [insights], before they are rendered. *)
Inductive sentence : Type :=
| NegativePattern (shotTypeKey : string) (holeNum : value)
    (offCount helpfulCount : nat) (clubsUsed : list value)
| PositivePattern (shotTypeKey : string) (holeNum : value)
    (helpfulCount offCount : nat) (clubsUsed : list value)
| UphillElevation (holeNum : value) (count : nat)
| RoughConditions (holeNum : value) (count : nat).

Definition natToString (n : nat) : string := numToString (Z.of_nat n).

(** The template literals of the source. *)
Definition render (s : sentence) : string :=
  match s with
  | NegativePattern st hn off helpful clubs =>
      ("Previous " ++ st ++ " shots on Hole " ++ toString hn
       ++ " received mostly negative feedback (" ++ natToString off
       ++ " off, " ++ natToString helpful ++ " helpful). "
       ++ "Clubs used: " ++ join ", " (map toString clubs)
       ++ ". Consider adjusting recommendations.")%string
  | PositivePattern st hn helpful off clubs =>
      ("Previous " ++ st ++ " shots on Hole " ++ toString hn
       ++ " received positive feedback (" ++ natToString helpful
       ++ " helpful, " ++ natToString off ++ " off). "
       ++ "Successful clubs: " ++ join ", " (map toString clubs)
       ++ ".")%string
  | UphillElevation hn n =>
      ("Hole " ++ toString hn ++ " has uphill elevation ("
       ++ natToString n ++ " previous shots). "
       ++ "Previous drives on this hole tend to land short. "
       ++ "Adjust recommendation accordingly.")%string
  | RoughConditions hn n =>
      ("Hole " ++ toString hn ++ " often has rough conditions ("
       ++ natToString n ++ " previous shots). "
       ++ "Consider club selection for rough lies.")%string
  end.

Definition isNegativePattern (s : sentence) : bool :=
  match s with NegativePattern _ _ _ _ _ => true | _ => false end.

Definition isPositivePattern (s : sentence) : bool :=
  match s with PositivePattern _ _ _ _ _ => true | _ => false end.

Definition hasFeedback (verdict : string) (s : Shot) : bool :=
  strictEq (userFeedback s) (VStr verdict).

Definition helpfulCountOf (shots : list Shot) : nat :=
  List.length (filter (hasFeedback "helpful") shots).

Definition offCountOf (shots : list Shot) : nat :=
  List.length (filter (hasFeedback "off") shots).

(** [(helpfulCount / totalWithFeedback) * 100] *)
Definition helpfulPct (helpfulCount totalWithFeedback : nat) : Q :=
  (inject_Z (Z.of_nat helpfulCount) / inject_Z (Z.of_nat totalWithFeedback))
  * 100.

(** [[...new Set(holeShots.map(s => s.recommendation?.club)
                          .filter(Boolean))]] *)
Definition clubsUsedOf (holeShots : list Shot) : list value :=
  dedupBy strictEq (filter truthy (map recClub holeShots)).

(** The feedback statistic of one (shot type, hole) group: what the
    [if (totalWithFeedback > 0)] block pushes. *)
Definition feedbackSentence (shotTypeKey : string) (holeNum : value)
  (holeShots : list Shot) : list sentence :=
  let helpfulCount := helpfulCountOf holeShots in
  let offCount := offCountOf holeShots in
  let totalWithFeedback := (helpfulCount + offCount)%nat in
  if (0 <? totalWithFeedback)%nat then
    let pct := helpfulPct helpfulCount totalWithFeedback in
    if Qltb pct 50 && (0 <? offCount)%nat then
      [NegativePattern shotTypeKey holeNum offCount helpfulCount
         (clubsUsedOf holeShots)]
    else if Qle_bool 70 pct && (2 <=? helpfulCount)%nat then
      [PositivePattern shotTypeKey holeNum helpfulCount offCount
         (clubsUsedOf holeShots)]
    else []
  else [].

(** [e && e.includes("+")]: only strings have [includes]. *)
Definition includesPlus (e : value) : option bool :=
  if truthy e then
    match e with
    | VStr s => Some (includesChar "+"%char s)
    | _ => None
    end
  else Some false.

(** [arr.some(f)] for a callback that may throw: stops at the first
    [true]. *)
Fixpoint someM {A : Type} (f : A -> option bool) (l : list A)
  : option bool :=
  match l with
  | [] => Some false
  | x :: r => obind (f x) (fun b => if b then Some true else someM f r)
  end.

(** [arr.filter(f)] for a callback that may throw. *)
Fixpoint filterM {A : Type} (f : A -> option bool) (l : list A)
  : option (list A) :=
  match l with
  | [] => Some []
  | x :: r =>
      obind (f x) (fun b =>
      obind (filterM f r) (fun ys => Some (if b then x :: ys else ys)))
  end.

Definition contextsOf (shots : list Shot) : list ShotContext :=
  flat_map (fun s => match shotContext s with
                     | Some c => [c]
                     | None => []
                     end) shots.

Definition isRough (c : ShotContext) : bool :=
  strictEq (surface c) (VStr "rough").

(** The shot-context patterns of one group: what the
    [if (contexts.length > 0)] block pushes. *)
Definition contextSentences (holeNum : value) (holeShots : list Shot)
  : option (list sentence) :=
  let contexts := contextsOf holeShots in
  if (0 <? List.length contexts)%nat then
    let surfaces := dedupBy strictEq (filter truthy (map surface contexts)) in
    let elevations :=
      dedupBy strictEq (filter truthy (map ctxElevation contexts)) in
    obind (if (0 <? List.length elevations)%nat
           then someM includesPlus elevations else Some false)
      (fun uphill =>
    obind (if uphill
           then obind (filterM includesPlus elevations)
                  (fun ups => Some [UphillElevation holeNum (List.length ups)])
           else Some [])
      (fun up =>
    Some (up ++
          if existsb (strictEq (VStr "rough")) surfaces
             && (2 <=? List.length holeShots)%nat
          then [RoughConditions holeNum (List.length (filter isRough contexts))]
          else [])))
  else Some [].

(** The body of [holeNumbers.forEach(holeNum => ...)]. *)
Definition groupInsights (shotTypeKey : string) (holeNum : value)
  (holeShots : list Shot) : option (list sentence) :=
  obind (contextSentences holeNum holeShots)
    (fun ctx => Some (feedbackSentence shotTypeKey holeNum holeShots ++ ctx)).

(** [shot.shotType || "unknown"], as a property key. *)
Definition shotTypeKeyOf (shot : Shot) : string :=
  toString (or (shotType shot) (VStr "unknown")).

(** [relevantShots.forEach(shot => ... byShotType[type].push(shot))] *)
Definition groupByShotType (shots : list Shot) : option (dict (list Shot)) :=
  collect (fun shot => Some (shotTypeKeyOf shot))
    (fun shot => [shot]) (fun shot l => l ++ [shot]) shots [].

Definition shotsOfType (byShotType : dict (list Shot)) (k : string)
  : list Shot :=
  match get k byShotType with
  | Some l => l
  | None => []
  end.

(** The body of [Object.keys(byShotType).forEach(shotType => ...)]. *)
Definition typeInsights (byShotType : dict (list Shot)) (k : string)
  : option (list sentence) :=
  let shots := shotsOfType byShotType k in
  let holeNumbers := dedupBy strictEq (map holeNumber shots) in
  obind (omap (fun holeNum =>
                 groupInsights k holeNum
                   (filter (fun s => strictEq (holeNumber s) holeNum) shots))
           holeNumbers)
    (fun ls => Some (List.concat ls)).

(** The array [insights] at the end of the function. *)
Definition insightsOf (relevantShots : list Shot) : option (list sentence) :=
  obind (groupByShotType relevantShots)
    (fun byShotType =>
  obind (omap (typeInsights byShotType) (keys byShotType))
    (fun ls => Some (List.concat ls))).

(** [function generateInsightsFromHistory(relevantShots)] *)
Definition generateInsightsFromHistory (relevantShots : list Shot)
  : option string :=
  if (List.length relevantShots =? 0)%nat then Some ""
  else obind (insightsOf relevantShots)
         (fun insights => Some (join (String "010" (String "010" ""))
                                  (map render insights))).

(* ================================================================== *)
(** ** Course intelligence aggregator: [GET /api/insights/course] *)

Record TrickyHole : Type := mkTrickyHole
  { th_hole : Z;
    th_avgOverPar : Z;          (* [avgOverPar.toFixed(1)], in tenths *)
    th_note : string }.

Record ClubInsight : Type := mkClubInsight
  { ci_club : string;
    ci_avg : Z;
    ci_profile : Z;
    ci_note : string }.

(** The response body, without [holeDetails]: that list is built last,
    from [shotsByHole] alone, by code that cannot throw, and nothing else
    in the response depends on it. *)
Record CourseInsights : Type := mkCourseInsights
  { ins_courseId : value;
    mostPlayedHoles : list Z;
    trickyHoles : list TrickyHole;
    clubInsights : list ClubInsight;
    aiNotes : list string }.

Definition emptyInsights (c : value) : CourseInsights :=
  {| ins_courseId := c; mostPlayedHoles := []; trickyHoles := [];
     clubInsights := []; aiNotes := [] |}.

(** The integer nearest to [x], the even one of the two on a tie. *)
Definition roundHalfEven (x : Q) : Z :=
  let f := Qfloor x in
  match Qcompare (x - inject_Z f) (1 # 2) with
  | Lt => f
  | Gt => f + 1
  | Eq => if Z.even f then f else f + 1
  end.

(** The exponent [e] of a positive rational [n / d]:
    [2^e <= n / d < 2^(e+1)]. *)
Definition exponentOf (n d : positive) : Z :=
  let e0 := Z.log2 (Z.pos n) - Z.log2 (Z.pos d) in
  if Qle_bool (2 ^ e0) (Z.pos n # d) then e0 else e0 - 1.

(** The double a JavaScript number expression evaluates to when its real
    value is [x]: the binary64 number nearest to [x], with 53 significant
    bits, ties to even (for [x] in the normal range, which the ratios of
    two counts are). *)
Definition binary64 (x : Q) : Q :=
  match Qnum x with
  | Z.pos n =>
      let e := exponentOf n (Qden x) in
      (inject_Z (roundHalfEven (x * 2 ^ (52 - e))) * 2 ^ (e - 52))%Q
  | Z0 => 0%Q
  | Z.neg n =>
      let e := exponentOf n (Qden x) in
      (- (inject_Z (roundHalfEven (- x * 2 ^ (52 - e))) * 2 ^ (e - 52)))%Q
  end.

(** [x.toFixed(1)] of a non-negative number, as a count of tenths, and
    the string it stands for.  The code's [x] is a double: the quotient of
    two counts, rounded once, and twice that, which is exact.  [toFixed]
    takes the [n] for which [n / 10] is nearest to that double, the larger
    on a tie. *)
Definition toFixed1 (x : Q) : Z := Qfloor (binary64 x * 10 + (1 # 2))%Q.

(** The same quotient and product by the IEEE 754 operations of the
    standard library, to compare [binary64] with. *)
Definition SF2Q (f : spec_float) : Q :=
  match f with
  | S754_finite s m e =>
      ((if s then -1 else 1) * inject_Z (Z.pos m) * 2 ^ e)%Q
  | _ => 0%Q
  end.

Definition double_of_Z (z : Z) : spec_float :=
  binary_normalize 53 1024 z 0 false.

Definition double_ratio_twice (a b : Z) : spec_float :=
  SFmul 53 1024 (SFdiv 53 1024 (double_of_Z a) (double_of_Z b))
    (double_of_Z 2).


(** [Math.round(x)] *)
Definition Math_round (x : Q) : Z := Qfloor (x + (1 # 2))%Q.

(** [parseInt(key)] on the keys a numeric [holeNumber] produces; NaN is
    [None]. *)
Definition parseInt (k : string) : option Z :=
  option_map Z.of_int (NilZero.int_of_string k).

(** [courseShots.forEach(shot => ... shotsByHole[hole].push(shot))] *)
Definition holeKeyOf (shot : Shot) : string := toString (holeNumber shot).

Definition groupByHole (shots : list Shot) : option (dict (list Shot)) :=
  collect (fun shot => Some (holeKeyOf shot))
    (fun shot => [shot]) (fun shot l => l ++ [shot]) shots [].

(** [shotsByHole[hole]] for a numeric [hole]. *)
Definition shotsOfHole (shotsByHole : dict (list Shot)) (hole : Z)
  : option (list Shot) :=
  get (numToString hole) shotsByHole.

Definition shotCount (shotsByHole : dict (list Shot)) (hole : Z) : Z :=
  match shotsOfHole shotsByHole hole with
  | Some l => Z.of_nat (List.length l)
  | None => 0
  end.

(** [negativeFeedback], [totalFeedback] and the local [avgOverPar]. *)
Definition totalFeedbackOf (shots : list Shot) : nat :=
  List.length (filter (fun s => truthy (userFeedback s)) shots).

Definition avgOverPar (shots : list Shot) : Q :=
  let negativeFeedback := offCountOf shots in
  let totalFeedback := totalFeedbackOf shots in
  if (0 <? totalFeedback)%nat then
    let negativeRatio :=
      (inject_Z (Z.of_nat negativeFeedback)
       / inject_Z (Z.of_nat totalFeedback))%Q in
    if Qltb (1 # 2) negativeRatio then (negativeRatio * 2)%Q else 0%Q
  else 0%Q.

(** The body of the first [Object.keys(shotsByHole).forEach]: the entry
    pushed on [trickyHoles] for one hole, if any. *)
Definition trickyEntry (hole : Z) (shots : list Shot)
  : option (list TrickyHole) :=
  let negativeFeedback := offCountOf shots in
  let score := avgOverPar shots in
  let contexts := contextsOf shots in
  let elevations := filter truthy (map ctxElevation contexts) in
  obind (someM includesPlus elevations) (fun hasUphill =>
  if Qltb 0 score || hasUphill || (2 <=? negativeFeedback)%nat then
    let note :=
      if hasUphill then "Uphill approach, user underclubs"
      else if (2 <=? negativeFeedback)%nat then
        ("User had difficulty with " ++ natToString negativeFeedback
         ++ " previous shots")%string
      else "Challenging hole based on shot history" in
    Some [ {| th_hole := hole; th_avgOverPar := toFixed1 score;
              th_note := note |} ]
  else Some []).

(** [(a, b) => parseFloat(b.avgOverPar) - parseFloat(a.avgOverPar)],
    up to the positive factor 10. *)
Definition byScoreDesc (a b : TrickyHole) : Z :=
  th_avgOverPar b - th_avgOverPar a.

(** One entry of [clubStats]. *)
Record ClubStat : Type := mkClubStat
  { cs_club : value; cs_distances : list value; cs_shots : list Shot }.

Definition pushShot (shot : Shot) (st : ClubStat) : ClubStat :=
  {| cs_club := cs_club st;
     cs_distances :=
       if truthy (distance shot) then cs_distances st ++ [distance shot]
       else cs_distances st;
     cs_shots := cs_shots st ++ [shot] |}.

(** [shot.recommendation?.club || shot.clubUsed] *)
Definition clubOf (shot : Shot) : value := or (recClub shot) (clubUsed shot).

(** The key of a shot in [clubStats]; a shot without a club is skipped. *)
Definition clubKeyOf (shot : Shot) : option string :=
  if truthy (clubOf shot) then Some (toString (clubOf shot)) else None.

(** [courseShots.forEach(shot => { const club = ...; ... })] *)
Definition collectClubStats (shots : list Shot) : option (dict ClubStat) :=
  collect clubKeyOf
    (fun shot => pushShot shot {| cs_club := clubOf shot;
                                  cs_distances := []; cs_shots := [] |})
    pushShot shots [].

(** The number a truthy, non-string [distance] adds to the sum. *)
Definition numberOf (d : value) : Z :=
  match d with
  | VNum z => z
  | VBool true => 1
  | _ => 0
  end.

Definition sumDistances (ds : list value) : Z :=
  fold_left (fun sum d => sum + numberOf d) ds 0.

(** The body of [Object.keys(clubStats).forEach(club => ...)]. *)
Definition clubEntry (k : string) (stats : ClubStat) : list ClubInsight :=
  if (List.length (cs_distances stats) =? 0)%nat then []
  else
    let avg :=
      (inject_Z (sumDistances (cs_distances stats))
       / inject_Z (Z.of_nat (List.length (cs_distances stats))))%Q in
    let profile := 150 in
    let diff := (avg - inject_Z profile)%Q in
    let note :=
      if Qltb diff (-10) then "User hits this short here"
      else if Qltb 10 diff then "User hits this longer here"
      else "Distance matches profile" in
    [ {| ci_club := k; ci_avg := Math_round avg; ci_profile := profile;
         ci_note := note |} ].

Definition clubInsightsOf (clubStats : dict ClubStat) : list ClubInsight :=
  flat_map (fun k => match get k clubStats with
                     | Some stats => clubEntry k stats
                     | None => []
                     end) (keys clubStats).

(** [counts[k] = (counts[k] || 0) + 1] over a list of truthy values. *)
Definition tally (vs : list value) : dict nat :=
  fold_left (fun counts v => upsert (toString v) 1%nat S counts) vs [].

(** [counts[k] || 0] *)
Definition countOf (counts : dict nat) (k : string) : nat :=
  match get k counts with
  | Some n => n
  | None => 0%nat
  end.

(** [shot.shotContext?.conditions?.wind] *)
Definition shotWind (s : Shot) : value :=
  match shotContext s with
  | Some c => ctxWind c
  | None => VUndef
  end.

Definition windNote (hole : Z) : string :=
  ("Wind was into on Hole " ++ numToString hole
   ++ " three rounds in a row.")%string.

(** The body of the second [Object.keys(shotsByHole).forEach]: the wind
    note of one hole, if any. *)
Definition windEntry (hole : Z) (holeShots : list Shot) : list string :=
  let holeWind := tally (filter truthy (map shotWind holeShots)) in
  let intoWind :=
    if (0 <? countOf holeWind "into")%nat then countOf holeWind "into"
    else countOf holeWind "strong" in
  if (0 <? intoWind)%nat && (3 <=? intoWind)%nat then [windNote hole]
  else [].

Definition isStr (v : value) : bool :=
  match v with VStr _ => true | _ => false end.

(** Records the embedding of the aggregation does not cover: a string
    [holeNumber] (its key needs the whole of [parseInt]) and a string
    [distance] (the sum turns into a string concatenation). *)
Definition notModelled (s : Shot) : bool :=
  isStr (holeNumber s) || isStr (distance s).

(** The holes of [shotsByHole], in [Object.keys] order, each with its
    shots: [hole = parseInt(holeNum)] and [shotsByHole[hole]].  A key that
    does not parse gives NaN and an [undefined] group, on which the first
    use throws. *)
Definition perHoleOf (shotsByHole : dict (list Shot))
  : option (list (Z * list Shot)) :=
  obind (omap parseInt (keys shotsByHole)) (fun holes =>
  omap (fun hole => obind (shotsOfHole shotsByHole hole)
                      (fun shots => Some (hole, shots))) holes).

Definition mostPlayedHolesOf (shotsByHole : dict (list Shot))
  (perHole : list (Z * list Shot)) : list Z :=
  firstn 10 (sortBy (fun a b => shotCount shotsByHole b
                                - shotCount shotsByHole a)
               (map fst perHole)).

Definition trickyHolesOf (perHole : list (Z * list Shot))
  : option (list TrickyHole) :=
  obind (omap (fun hs => trickyEntry (fst hs) (snd hs)) perHole)
    (fun tricky => Some (sortBy byScoreDesc (List.concat tricky))).

Definition windNotesOf (perHole : list (Z * list Shot)) : list string :=
  flat_map (fun hs => windEntry (fst hs) (snd hs)) perHole.

(** The array [aiNotes].  ([windConditions] is tallied by the source as
    well and never read.) *)
Definition aiNotesOf (courseShots : list Shot)
  (perHole : list (Z * list Shot)) : list string :=
  let contexts := contextsOf courseShots in
  let surfaces := tally (filter truthy (map surface contexts)) in
  let elevations := tally (filter truthy (map ctxElevation contexts)) in
  let roughNote :=
    if (3 <=? countOf surfaces "rough")%nat
    then ["Fairways were soft on your last round."] else [] in
  let uphillCount :=
    List.length (filter (includesChar "+"%char) (keys elevations)) in
  let uphillNote :=
    if (2 <=? uphillCount)%nat
    then ["Course has several uphill holes. Consider club selection."]
    else [] in
  let helpfulCount := helpfulCountOf courseShots in
  let offCount := offCountOf courseShots in
  let trendNote :=
    if (offCount * 2 <? helpfulCount)%nat && (5 <=? helpfulCount)%nat
    then ["AI recommendations have been working well on this course."]
    else if (helpfulCount <? offCount)%nat && (3 <=? offCount)%nat
    then ["AI recommendations may need adjustment for this course's conditions."]
    else [] in
  roughNote ++ windNotesOf perHole ++ uphillNote ++ trendNote.

(** What the [try] block of the route computes from a non-empty
    [courseShots]; [None] when it throws. *)
Definition aggregate (qCourse : value) (courseShots : list Shot)
  : option CourseInsights :=
  obind (groupByHole courseShots) (fun shotsByHole =>
  obind (perHoleOf shotsByHole) (fun perHole =>
  obind (trickyHolesOf perHole) (fun tricky =>
  obind (collectClubStats courseShots) (fun clubStats =>
  Some {| ins_courseId := qCourse;
          mostPlayedHoles := mostPlayedHolesOf shotsByHole perHole;
          trickyHoles := tricky;
          clubInsights := clubInsightsOf clubStats;
          aiNotes := aiNotesOf courseShots perHole |})))).

Inductive InsightsResponse : Type :=
| BadRequest : InsightsResponse                    (* status 400 *)
| Insights : CourseInsights -> InsightsResponse
| NotModelled : InsightsResponse.

(** The route handler, [getCourseIntelligence] of the specification. *)
Definition getCourseIntelligence (qCourse : value) : M InsightsResponse :=
  if negb (truthy qCourse) then ret BadRequest
  else
    allShots <- loadShots ;;
    let courseShots :=
      filter (fun shot => strictEq (courseId shot) qCourse) allShots in
    if (List.length courseShots =? 0)%nat
    then ret (Insights (emptyInsights qCourse))
    else if existsb notModelled courseShots then ret NotModelled
    else
      match aggregate qCourse courseShots with
      | Some ci => ret (Insights ci)
      | None =>
          log (LogError "Error in /api/insights/course:") ;;;
          ret (Insights (emptyInsights (or qCourse (VStr "unknown"))))
      end.

(* ================================================================== *)
(** ** Hole details of [GET /api/insights/course] *)

(** One entry of [holeDetails[i].shots]. *)
Record ShotDetail : Type := mkShotDetail
  { sd_id : value;
    sd_timestamp : value;
    sd_shotType : value;
    sd_recommendation : option Recommendation;
    sd_userFeedback : value;
    sd_imageUrl : value;
    sd_club : value;
    sd_distance : value;
    sd_shotContext : option ShotContext }.

Record HoleDetail : Type := mkHoleDetail
  { hd_hole : Z; hd_shots : list ShotDetail }.

(** The object literal of [sortedShots.slice(0, 5).map(shot => ...)]. *)
Definition shotDetail (shot : Shot) : ShotDetail :=
  {| sd_id := id shot;
     sd_timestamp := or (timestamp shot) (uploadedAt shot);
     sd_shotType := or (shotType shot) (VStr "approach");
     sd_recommendation := recommendation shot;
     sd_userFeedback := or (userFeedback shot) VNull;
     sd_imageUrl := or (imageUrl shot) VNull;
     sd_club := or (or (recClub shot) (clubUsed shot)) VNull;
     sd_distance := or (distance shot) VNull;
     sd_shotContext := shotContext shot |}.

Section HoleDetails.

Variable Date_parse : string -> option Z.

(** [Object.keys(shotsByHole).map(holeNum => ...)
      .sort((a, b) => a.hole - b.hole)] *)
Definition holeDetailsOf (perHole : list (Z * list Shot))
  : list HoleDetail :=
  sortBy (fun a b => hd_hole a - hd_hole b)
    (map (fun hs =>
            {| hd_hole := fst hs;
               hd_shots :=
                 map shotDetail
                   (firstn 5 (sortBy (byRecency Date_parse) (snd hs))) |})
       perHole).

(** [holeDetails] of the response for a non-empty [courseShots]; it is
    built after everything [aggregate] computes, so it is there when
    [aggregate] completes. *)
Definition holeDetails (qCourse : value) (courseShots : list Shot)
  : option (list HoleDetail) :=
  obind (aggregate qCourse courseShots) (fun _ =>
  obind (groupByHole courseShots) (fun shotsByHole =>
  obind (perHoleOf shotsByHole) (fun perHole =>
  Some (holeDetailsOf perHole)))).

(* ------------------------------------------------------------------ *)
(** *** Memory lookup of [POST /api/openai/complete] *)

(** [let memoryInsights = ""; if (courseId && holeNumber) { ... }]:
    the narrative drawn from the history of the hole; [None] when
    [generateInsightsFromHistory] throws. *)
Definition memoryInsights (qCourse qHole qShotType qClub : value)
  : M (option string) :=
  if truthy qCourse && truthy qHole then
    relevantShots <-
      findRelevantShots Date_parse qCourse qHole qShotType qClub ;;
    if (0 <? List.length relevantShots)%nat then
      match generateInsightsFromHistory relevantShots with
      | Some narrative =>
          log (LogInfo ("Found " ++ natToString (List.length relevantShots)
                        ++ " relevant shots for memory system")%string) ;;;
          (if (narrative =? "")%string then ret tt
           else log (LogInfo "Memory insights generated:")) ;;;
          ret (Some narrative)
      | None => ret None
      end
    else ret (Some "")
  else ret (Some "").

(** [let enhancedSystem = system; if (memoryInsights) { ... }] *)
Definition enhancedSystem (system : value) (narrative : string) : value :=
  if (narrative =? "")%string then system
  else VStr (toString system
             ++ String "010" (String "010"
                  "## Previous Shot History and Insights")
             ++ String "010" (String "010" narrative)
             ++ String "010" (String "010"
                  "Use these insights to make smarter, personalized recommendations. Adjust your recommendations based on what has worked or not worked in the past."))%string.

(** The system message sent to the model. *)
Definition systemMessage (system qCourse qHole qShotType qClub : value)
  : M (option value) :=
  mi <- memoryInsights qCourse qHole qShotType qClub ;;
  ret (option_map (enhancedSystem system) mi).

End HoleDetails.

(* ================================================================== *)
(** ** Shot capture: what [POST /api/photo/analyze] makes of a shot type *)

Definition validShotTypes : list string :=
  ["drive"; "approach"; "chip"; "putt"; "recovery"].

Inductive ShotTypeCheck : Type :=
| Invalid400 : ShotTypeCheck                 (* "Invalid shotType" *)
| Normalized : string -> ShotTypeCheck.

Section Capture.

(** [String.prototype.toLowerCase] *)
Variable toLowerCase : string -> string.

(** [normalizedShotType] and the check on it, for a [shotType] field that
    is a string or absent. *)
Definition checkShotType (shotType : option string) : ShotTypeCheck :=
  let supplied :=
    match shotType with
    | Some t => truthy (VStr t)
    | None => false
    end in
  let normalizedShotType :=
    match shotType with
    | Some t => if supplied then toLowerCase t else "approach"
    | None => "approach"
    end in
  if supplied
     && negb (existsb (String.eqb normalizedShotType) validShotTypes)
  then Invalid400
  else Normalized normalizedShotType.

End Capture.





Section CaptureRoute.

Variable toLowerCase : string -> string.


End CaptureRoute.

(* ================================================================== *)
(** ** Vision route: [toDataUrlFromBase64] *)

(** [function toDataUrlFromBase64(base64OrDataUrl)] *)
Definition toDataUrlFromBase64 (base64OrDataUrl : value) : value :=
  if negb (truthy base64OrDataUrl) || negb (isStr base64OrDataUrl)
  then VNull
  else
    match base64OrDataUrl with
    | VStr s =>
        if String.prefix "data:image/" s then VStr s
        else VStr ("data:image/jpeg;base64," ++ s)%string
    | _ => VNull
    end.

(* ================================================================== *)
(** ** Predicates of the specification *)

(** The records a document holds; an absent or unreadable document holds
    none. *)
Definition storedShots (d : document) : list Shot :=
  match d with
  | Stored shots => shots
  | Missing => []
  | Corrupt => []
  end.

(** [userFeedback] is [null], ["helpful"] or ["off"]. *)
Definition validFeedback (v : value) : Prop :=
  v = VNull \/ v = VStr "helpful" \/ v = VStr "off".

Definition feedbackInvariant (d : document) : Prop :=
  Forall (fun s => validFeedback (userFeedback s)) (storedShots d).

(** The stored records a query selects, in store order. *)
Definition matchingShots (qCourse qHole qShotType qClub : value) (w : World)
  : list Shot :=
  filter (relevant qCourse qHole qShotType qClub) (storedShots (file w)).

(** Numeric reading of a record's best-known time, for stating order. *)
Definition timeKey (Date_parse : string -> option Z) (a : Shot) : Z :=
  match shotTime Date_parse a with
  | Some t => t
  | None => 0
  end.

(** Newest first. *)
Definition newestFirst (Date_parse : string -> option Z) (l : list Shot)
  : Prop :=
  StronglySorted (fun a b => timeKey Date_parse b <= timeKey Date_parse a) l.

(** Reading a grouping loop: the elements of key [k], and the entry of a
    key after the loop has seen the elements [l] of that key, starting
    from the entry [o]. *)
Definition keyIs {A : Type} (key : A -> option string) (k : string) (x : A)
  : bool :=
  match key x with
  | Some k' => (k' =? k)%string
  | None => false
  end.

Fixpoint entryAfter {A B : Type} (init : A -> B) (step : A -> B -> B)
  (l : list A) (o : option B) : option B :=
  match l with
  | [] => o
  | x :: r => entryAfter init step r
                (Some (match o with
                       | Some b => step x b
                       | None => init x
                       end))
  end.

(** The shots of hole [h], and of the club key [k], among [shots]. *)
Definition holeShotsOf (h : Z) (shots : list Shot) : list Shot :=
  filter (fun s => strictEq (holeNumber s) (VNum h)) shots.

Definition clubShotsOf (k : string) (shots : list Shot) : list Shot :=
  filter (keyIs clubKeyOf k) shots.

(** The distances that enter the average of club [k]. *)
Definition distanceSamples (k : string) (shots : list Shot) : list value :=
  filter truthy (map distance (clubShotsOf k shots)).

(** The number of shots whose recorded wind is [kind]. *)
Definition windCountOf (kind : string) (shots : list Shot) : nat :=
  List.length (filter (fun s => strictEq (shotWind s) (VStr kind)) shots).


(** [offCount / totalFeedbackCount] *)
Definition negativeFraction (shots : list Shot) : Q :=
  inject_Z (Z.of_nat (offCountOf shots))
  / inject_Z (Z.of_nat (totalFeedbackOf shots)).


(** The records of one (shot type, hole) group among [shots]. *)
Definition groupOf (k : string) (hn : value) (shots : list Shot)
  : list Shot :=
  filter (fun s => (shotTypeKeyOf s =? k)%string
                   && strictEq (holeNumber s) hn) shots.


(** Well-formed records: every recorded elevation is a string, no group
    key collides with a member of [Object.prototype], every hole number
    is a number. *)
Definition plainElevations (shots : list Shot) : Prop :=
  forall s c, In s shots -> shotContext s = Some c ->
              truthy (ctxElevation c) = true -> isStr (ctxElevation c) = true.

Definition plainShotTypes (shots : list Shot) : Prop :=
  forall s, In s shots -> isProtoName (shotTypeKeyOf s) = false.

Definition plainClubs (shots : list Shot) : Prop :=
  forall s k, In s shots -> clubKeyOf s = Some k -> isProtoName k = false.

Definition numericHoles (shots : list Shot) : Prop :=
  forall s, In s shots -> exists z, holeNumber s = VNum z.

(** The optional filters of a query, on their own. *)
Definition passesFilters (qShotType qClub : value) (s : Shot) : bool :=
  (negb (truthy qShotType) || strictEq (shotType s) qShotType)
  && (negb (truthy qClub) || strictEq (recClub s) qClub).

(** The hole a sentence speaks of. *)
Definition sentenceHole (s : sentence) : value :=
  match s with
  | NegativePattern _ hn _ _ _ => hn
  | PositivePattern _ hn _ _ _ => hn
  | UphillElevation hn _ => hn
  | RoughConditions hn _ => hn
  end.

(** An elevation string that contains ["+"]. *)
Definition isUphill (e : value) : bool :=
  match e with
  | VStr s => includesChar "+"%char s
  | _ => false
  end.

(** The distinct elevation strings with a ["+"] among the contexts of
    [shots], and the contexts whose surface is ["rough"]. *)
Definition distinctUphill (shots : list Shot) : nat :=
  List.length
    (filter isUphill
       (dedupBy strictEq
          (filter truthy (map ctxElevation (contextsOf shots))))).

Definition roughCount (shots : list Shot) : nat :=
  List.length (filter isRough (contextsOf shots)).

(** The number of shots of a hole. *)
Definition holeCount (shots : list Shot) (h : Z) : Z :=
  Z.of_nat (List.length (holeShotsOf h shots)).

(** Some recorded elevation of [shots] is a string with a ["+"]. *)
Definition hasUphill (shots : list Shot) : bool :=
  existsb isUphill (map ctxElevation (contextsOf shots)).

(** The note of a tricky hole, by priority. *)
Definition trickyNote (shots : list Shot) : string :=
  if hasUphill shots then "Uphill approach, user underclubs"
  else if (2 <=? offCountOf shots)%nat then
    ("User had difficulty with " ++ natToString (offCountOf shots)
     ++ " previous shots")%string
  else "Challenging hole based on shot history".

(** The stored records of a course, in store order. *)
Definition courseShotsOf (qCourse : value) (w : World) : list Shot :=
  filter (fun shot => strictEq (courseId shot) qCourse)
    (storedShots (file w)).

Definition isNum (v : value) : bool :=
  match v with VNum _ => true | _ => false end.

(* ================================================================== *)
(** ** Sample records, used to exercise the statements below *)

Module Sample.

Definition context (su w e : string) : option ShotContext :=
  Some {| surface := VStr su;
          conditions := Some {| wind := VStr w; elevation := VStr e |} |}.

(** A captured shot on course [c], hole [h]. *)
Definition shot (i c : string) (h : Z) (ty cl : string)
  (feedback ts dist : value) (cx : option ShotContext) : Shot :=
  {| id := VStr i; courseId := VStr c; holeNumber := VNum h;
     shotType := VStr ty;
     recommendation := Some {| club := VStr cl; aim := VUndef;
                               avoid := VUndef; confidence := VUndef |};
     shotContext := cx; clubUsed := VNull; distance := dist;
     userFeedback := feedback; feedbackTimestamp := VNull;
     timestamp := ts; uploadedAt := VUndef; imageUrl := VUndef;
     suggestedClub := VUndef |}.

Definition off : value := VStr "off".
Definition helpful : value := VStr "helpful".

Definition s1 : Shot :=
  shot "shot-1" "pebble" 7 "approach" "7 iron" VNull (VNum 1000) (VNum 150)
    None.

Definition world1 : World :=
  {| file := Stored [s1]; writable := true; console := [] |}.

(** A feedback request naming a shot that is not in the store. *)
Definition unknownBody : FeedbackBody :=
  {| fb_courseId := VStr "pebble"; fb_hole := VNum 7;
     fb_suggestedClub := VStr "7 iron"; fb_feedback := helpful;
     fb_shotId := VStr "nonexistent" |}.

(** A feedback request for [s1] whose verdict is neither ["helpful"] nor
    ["off"]. *)
Definition greatBody : FeedbackBody :=
  {| fb_courseId := VStr "pebble"; fb_hole := VNum 7;
     fb_suggestedClub := VStr "7 iron"; fb_feedback := VStr "great";
     fb_shotId := VStr "shot-1" |}.

Definition helpfulBody : FeedbackBody :=
  {| fb_courseId := VStr "pebble"; fb_hole := VNum 7;
     fb_suggestedClub := VStr "7 iron"; fb_feedback := helpful;
     fb_shotId := VStr "shot-1" |}.

(** A stand-in for [Date.parse] that knows three instants. *)
Definition parseDate (d : string) : option Z :=
  if (d =? "2026-01-01T00:00:00.000Z")%string then Some 1767225600000
  else if (d =? "2026-01-02T00:00:00.000Z")%string then Some 1767312000000
  else if (d =? "2026-01-03T00:00:00.000Z")%string then Some 1767398400000
  else None.

Definition early : Shot :=
  shot "shot-a" "pebble" 7 "approach" "7 iron" VNull
    (VStr "2026-01-01T00:00:00.000Z") VNull None.
Definition middle : Shot :=
  shot "shot-b" "pebble" 7 "approach" "7 iron" VNull
    (VStr "2026-01-02T00:00:00.000Z") VNull None.
Definition late : Shot :=
  shot "shot-c" "pebble" 7 "approach" "7 iron" VNull
    (VStr "2026-01-03T00:00:00.000Z") VNull None.

Definition world3 : World :=
  {| file := Stored [middle; early; late]; writable := true;
     console := [] |}.

(** A course played on two holes: hole 7 with three "off" and one
    "helpful" verdict, hole 12 without feedback. *)
Definition courseShots : list Shot :=
  [ shot "c1" "pebble" 7 "approach" "7 iron" off (VNum 10) (VNum 150)
      (context "rough" "into" "flat");
    shot "c2" "pebble" 7 "approach" "7 iron" off (VNum 30) (VNum 0)
      (context "rough" "into" "flat");
    shot "c3" "pebble" 7 "approach" "8 iron" off (VNum 20) VNull
      (context "rough" "strong" "flat");
    shot "c4" "pebble" 7 "approach" "7 iron" helpful (VNum 40) (VNum 170)
      None;
    shot "c5" "pebble" 12 "drive" "Driver" VNull (VNum 50) (VNum 250)
      (context "fairway" "light" "flat") ].

Definition courseWorld : World :=
  {| file := Stored courseShots; writable := true; console := [] |}.

Definition insights : CourseInsights :=
  match aggregate (VStr "pebble") courseShots with
  | Some ci => ci
  | None => emptyInsights VNull
  end.

Definition sentences : list sentence :=
  match insightsOf courseShots with
  | Some l => l
  | None => []
  end.

(** Two holes whose scores differ and read the same at one decimal:
    hole 1 with 5 "off" among 6 verdicts, hole 2 with 6 among 7. *)
Definition verdict (i : string) (h : Z) (v : value) : Shot :=
  shot i "links" h "approach" "7 iron" v (VNum 1) VNull None.



(** A course with a feedback-only record that has no hole number. *)
Definition holelessShots : list Shot :=
  [ s1;
    feedbackData
      {| fb_courseId := VStr "pebble"; fb_hole := VUndef;
         fb_suggestedClub := VStr "7 iron"; fb_feedback := helpful;
         fb_shotId := VUndef |}
      "2026-01-01T00:00:00.000Z" 1767225600000 "k3j9x0q2a" ].

Definition holelessWorld : World :=
  {| file := Stored holelessShots; writable := true; console := [] |}.

Definition details : list HoleDetail :=
  match holeDetails parseDate (VStr "pebble") courseShots with
  | Some l => l
  | None => []
  end.


(** A feedback request whose [shotId] is the empty string. *)
Definition emptyIdBody : FeedbackBody :=
  {| fb_courseId := VStr "pebble"; fb_hole := VNum 7;
     fb_suggestedClub := VStr "7 iron"; fb_feedback := helpful;
     fb_shotId := VStr "" |}.

Definition narrative : string :=
  match generateInsightsFromHistory courseShots with
  | Some n => n
  | None => ""
  end.




End Sample.

(* ================================================================== *)
(** ** Facts about the JavaScript fragment *)

Lemma strictEq_eq : forall a b : value, strictEq a b = true <-> a = b.
Proof.
  intros a b; split.
  - destruct a, b; simpl; try discriminate; try reflexivity; intro H.
    + apply Bool.eqb_prop in H. now subst.
    + apply Z.eqb_eq in H. now subst.
    + apply String.eqb_eq in H. now subst.
  - intros <-. destruct a; simpl; trivial.
    + apply Bool.eqb_reflx.
    + apply Z.eqb_refl.
    + apply String.eqb_refl.
Qed.

Lemma strictEq_neq : forall a b : value, strictEq a b = false <-> a <> b.
Proof.
  intros a b. rewrite <- strictEq_eq.
  destruct (strictEq a b); split; congruence.
Qed.

Lemma strictEq_refl : forall a : value, strictEq a a = true.
Proof. intro a. now apply strictEq_eq. Qed.

Section SortFacts.

Context {A : Type}.
Variable cmp : A -> A -> Z.

Lemma insertBy_perm : forall x l, Permutation (x :: l) (insertBy cmp x l).
Proof.
  intros x l; induction l as [|y r IH]; simpl.
  - apply Permutation_refl.
  - destruct (cmp x y <=? 0).
    + apply Permutation_refl.
    + eapply perm_trans; [apply perm_swap|].
      now apply perm_skip.
Qed.

Lemma sortBy_perm : forall l, Permutation l (sortBy cmp l).
Proof.
  induction l as [|x r IH]; simpl.
  - constructor.
  - eapply perm_trans; [apply perm_skip, IH|apply insertBy_perm].
Qed.

Lemma sortBy_In : forall x l, In x (sortBy cmp l) <-> In x l.
Proof.
  intros x l; split; apply Permutation_in.
  - apply Permutation_sym, sortBy_perm.
  - apply sortBy_perm.
Qed.

(** When the comparator is the difference of a numeric key, the result
    is in descending key order. *)
Variable key : A -> Z.

Lemma insertBy_desc : forall x l,
    (forall y, In y l -> cmp x y = key y - key x) ->
    StronglySorted (fun a b => key b <= key a) l ->
    StronglySorted (fun a b => key b <= key a) (insertBy cmp x l).
Proof.
  intros x l; induction l as [|y r IH]; intros Hc Hs; simpl.
  - repeat constructor.
  - pose proof (Hc y (or_introl eq_refl)) as Hy.
    inversion Hs as [|? ? Hr Hall]; subst.
    destruct (cmp x y <=? 0) eqn:E.
    + apply Z.leb_le in E.
      constructor; [assumption|].
      constructor; [lia|].
      rewrite Forall_forall in Hall |- *.
      intros z Hz. specialize (Hall z Hz). simpl in Hall. lia.
    + apply Z.leb_gt in E.
      constructor.
      * apply IH; [|assumption].
        intros z Hz. apply Hc. now right.
      * rewrite Forall_forall in Hall |- *.
        intros z Hz.
        apply (Permutation_in _ (Permutation_sym (insertBy_perm x r))) in Hz.
        destruct Hz as [<-|Hz]; [lia|now apply Hall].
Qed.

Lemma sortBy_desc : forall l,
    (forall x y, In x l -> In y l -> cmp x y = key y - key x) ->
    StronglySorted (fun a b => key b <= key a) (sortBy cmp l).
Proof.
  induction l as [|x r IH]; intro Hc; simpl.
  - constructor.
  - apply insertBy_desc.
    + intros y Hy. apply (proj1 (sortBy_In y r)) in Hy.
      apply Hc; [now left|now right].
    + apply IH. intros a b Ha Hb. apply Hc; now right.
Qed.

(** A descending list is determined by its elements as soon as the key
    separates them. *)
Lemma desc_sorted_unique : forall l1 l2,
    Permutation l1 l2 ->
    StronglySorted (fun a b => key b <= key a) l1 ->
    StronglySorted (fun a b => key b <= key a) l2 ->
    (forall x y, In x l1 -> In y l1 -> key x = key y -> x = y) ->
    l1 = l2.
Proof.
  induction l1 as [|a r1 IH]; intros l2 Hp H1 H2 Hinj.
  - apply Permutation_nil in Hp. now subst.
  - destruct l2 as [|b r2].
    + apply Permutation_sym, Permutation_nil in Hp. discriminate.
    + inversion H1 as [|? ? Hs1 Ha]; subst.
      inversion H2 as [|? ? Hs2 Hb]; subst.
      rewrite Forall_forall in Ha, Hb.
      assert (Hab : a = b).
      { assert (Hina : In a (b :: r2))
          by (eapply Permutation_in; [exact Hp|now left]).
        assert (Hinb : In b (a :: r1))
          by (eapply Permutation_in;
              [apply Permutation_sym; exact Hp|now left]).
        destruct Hina as [->|Hina]; [reflexivity|].
        destruct Hinb as [->|Hinb]; [reflexivity|].
        apply Hinj; [now left|now right|].
        specialize (Ha b Hinb). specialize (Hb a Hina). simpl in *. lia. }
      subst b. f_equal.
      apply IH; try assumption.
      * now apply Permutation_cons_inv in Hp.
      * intros x y Hx Hy. apply Hinj; now right.
Qed.

End SortFacts.

(* ================================================================== *)
(** ** Record store *)

Lemma loadShots_shots : forall w, fst (loadShots w) = storedShots (file w).
Proof. intros [[| |l] wr c]; reflexivity. Qed.

Lemma loadShots_file : forall w, file (snd (loadShots w)) = file w.
Proof. intros [[| |l] wr c]; reflexivity. Qed.

Lemma loadShots_writable : forall w,
    writable (snd (loadShots w)) = writable w.
Proof. intros [[| |l] wr c]; reflexivity. Qed.

Lemma saveShots_file : forall shots w,
    file (snd (saveShots shots w))
    = if writable w then Stored shots else file w.
Proof.
  intros shots [d wr c]. unfold saveShots, bind, writeFile; simpl.
  destruct wr; reflexivity.
Qed.

Lemma addShot_file : forall sd w,
    file (snd (addShot sd w))
    = if writable w then Stored (storedShots (file w) ++ [sd]) else file w.
Proof.
  intros sd w. unfold addShot, bind.
  destruct (loadShots w) as [shots w'] eqn:E.
  pose proof (loadShots_shots w) as Hs.
  pose proof (loadShots_file w) as Hf.
  pose proof (loadShots_writable w) as Hw.
  rewrite E in Hs, Hf, Hw; simpl in Hs, Hf, Hw.
  destruct (saveShots (shots ++ [sd]) w') as [ok w''] eqn:E2.
  pose proof (saveShots_file (shots ++ [sd]) w') as Hsave.
  rewrite E2 in Hsave; simpl in Hsave. simpl.
  rewrite Hsave, Hw, Hs, Hf. reflexivity.
Qed.

Lemma find_none_all : forall (p : Shot -> bool) l,
    (forall s, In s l -> p s = false) -> find p l = None.
Proof.
  intros p l; induction l as [|x r IH]; intro H; simpl.
  - reflexivity.
  - rewrite (H x (or_introl eq_refl)). apply IH.
    intros s Hs. apply H. now right.
Qed.

Lemma updateShotFeedback_unknown : forall shotId feedback now w,
    (forall s, In s (storedShots (file w)) -> id s <> shotId) ->
    fst (updateShotFeedback shotId feedback now w) = false
    /\ file (snd (updateShotFeedback shotId feedback now w)) = file w.
Proof.
  intros shotId feedback now w Hno.
  unfold updateShotFeedback, bind.
  destruct (loadShots w) as [shots w'] eqn:E.
  pose proof (loadShots_shots w) as Hs.
  pose proof (loadShots_file w) as Hf.
  rewrite E in Hs, Hf; simpl in Hs, Hf.
  rewrite find_none_all.
  - simpl. auto.
  - intros s Hin. apply strictEq_neq. apply Hno. now rewrite <- Hs.
Qed.

Lemma updateFirst_Forall : forall (P : Shot -> Prop) p f l,
    (forall s, P (f s)) -> Forall P l -> Forall P (updateFirst p f l).
Proof.
  intros P p f l Hf; induction 1 as [|x r Hx Hr IH]; simpl.
  - constructor.
  - destruct (p x); constructor; auto.
Qed.

Lemma updateShotFeedback_file : forall shotId feedback now w,
    file (snd (updateShotFeedback shotId feedback now w)) = file w
    \/ file (snd (updateShotFeedback shotId feedback now w))
       = Stored (updateFirst (fun s => strictEq (id s) shotId)
                   (setFeedback feedback (VStr now))
                   (storedShots (file w))).
Proof.
  intros shotId feedback now w.
  unfold updateShotFeedback, bind.
  destruct (loadShots w) as [shots w'] eqn:E.
  pose proof (loadShots_shots w) as Hs.
  pose proof (loadShots_file w) as Hf.
  rewrite E in Hs, Hf; simpl in Hs, Hf. subst shots.
  destruct (find _ _).
  - match goal with
    | |- context [saveShots ?l w'] =>
        pose proof (saveShots_file l w') as Hsave;
        destruct (saveShots l w') as [ok w'']
    end.
    simpl in *. rewrite Hsave, Hf.
    destruct (writable w'); auto.
  - simpl. auto.
Qed.

Lemma log_file : forall e w, file (snd (log e w)) = file w.
Proof. reflexivity. Qed.

Lemma submitFeedback_after_log : forall b now nowMs rnd w,
    submitFeedback b now nowMs rnd w
    = (if truthy (fb_shotId b)
       then updateShotFeedback (fb_shotId b) (fb_feedback b) now ;;;
            ret RespOk
       else addShot (feedbackData b now nowMs rnd) ;;; ret RespOk)
        (snd (log (LogInfo "Caddie feedback received:") w)).
Proof. reflexivity. Qed.

(** C8. Reading the store never raises ([loadShots] is a total function
    of the world): on an absent document it returns the empty collection
    and touches nothing; on a document that cannot be read or parsed it
    logs the error and returns the empty collection. *)
Theorem loadShots_absent_or_malformed : forall wr c,
    loadShots {| file := Missing; writable := wr; console := c |}
    = ([], {| file := Missing; writable := wr; console := c |})
    /\ loadShots {| file := Corrupt; writable := wr; console := c |}
       = ([], {| file := Corrupt; writable := wr;
                 console := c ++ [LogError "Error loading shots:"] |}).
Proof. intros wr c; split; reflexivity. Qed.

(** C7. When the request carries a [shotId] and no stored record has that
    id, the feedback route answers [{ ok: true }] and leaves the stored
    document as it was: no record is changed and none is appended. *)
Theorem submitFeedback_unknown_shotId : forall b now nowMs rnd w,
    truthy (fb_shotId b) = true ->
    (forall s, In s (storedShots (file w)) -> id s <> fb_shotId b) ->
    fst (submitFeedback b now nowMs rnd w) = RespOk
    /\ file (snd (submitFeedback b now nowMs rnd w)) = file w.
Proof.
  intros b now nowMs rnd w Hid Hno.
  rewrite submitFeedback_after_log, Hid.
  remember (snd (log (LogInfo "Caddie feedback received:") w)) as w1 eqn:Ew.
  assert (Hf1 : file w1 = file w) by (subst w1; apply log_file).
  unfold bind.
  destruct (updateShotFeedback_unknown (fb_shotId b) (fb_feedback b) now w1)
    as [_ Hf2].
  { intros s Hs. apply Hno. now rewrite <- Hf1. }
  destruct (updateShotFeedback (fb_shotId b) (fb_feedback b) now w1)
    as [r w2].
  simpl in *. split; [reflexivity|congruence].
Qed.

Lemma submitFeedback_unknown_shotId_witness :
  fst (submitFeedback Sample.unknownBody "2026-01-01T00:00:00.000Z"
         1767225600000 "k3j9x0q2a" Sample.world1) = RespOk
  /\ file (snd (submitFeedback Sample.unknownBody "2026-01-01T00:00:00.000Z"
                  1767225600000 "k3j9x0q2a" Sample.world1))
     = file Sample.world1.
Proof.
  apply (submitFeedback_unknown_shotId Sample.unknownBody
           "2026-01-01T00:00:00.000Z" 1767225600000 "k3j9x0q2a"
           Sample.world1).
  - reflexivity.
  - simpl. intros s [<-|[]]. discriminate.
Defined.

(** C7 as stated fails for a [shotId] that is not present: the empty
    string is the id of no stored record, and the route, which tests
    [if (shotId)], appends a feedback-only record. *)
Lemma submitFeedback_empty_shotId_appends :
  (forall s, In s (storedShots (file Sample.world1)) ->
             id s <> fb_shotId Sample.emptyIdBody)
  /\ fst (submitFeedback Sample.emptyIdBody "2026-01-01T00:00:00.000Z"
            1767225600000 "k3j9x0q2a" Sample.world1) = RespOk
  /\ storedShots
       (file (snd (submitFeedback Sample.emptyIdBody
                     "2026-01-01T00:00:00.000Z" 1767225600000 "k3j9x0q2a"
                     Sample.world1)))
     = storedShots (file Sample.world1)
       ++ [feedbackData Sample.emptyIdBody "2026-01-01T00:00:00.000Z"
             1767225600000 "k3j9x0q2a"]
  /\ file (snd (submitFeedback Sample.emptyIdBody
                  "2026-01-01T00:00:00.000Z" 1767225600000 "k3j9x0q2a"
                  Sample.world1))
     <> file Sample.world1.
Proof.
  split; [|split; [|split]].
  - simpl. intros s [<-|[]]. discriminate.
  - reflexivity.
  - reflexivity.
  - vm_compute. discriminate.
Qed.

(** C9, as the code has it.  Appending a captured shot keeps every stored
    [userFeedback] within [null], ["helpful"], ["off"]; the feedback route
    keeps it so when the verdict it is given is itself one of the three:
    the route stores the verdict of the request as it comes. *)
Theorem userFeedback_invariant_preserved : forall w,
    feedbackInvariant (file w) ->
    (forall shotId md rec ctx now url,
        feedbackInvariant
          (file (snd (appendShot shotId md rec ctx now url w))))
    /\ (forall b now nowMs rnd,
           validFeedback (fb_feedback b) ->
           feedbackInvariant (file (snd (submitFeedback b now nowMs rnd w)))).
Proof.
  intros w Hinv; split.
  - intros shotId md rec ctx now url.
    unfold appendShot, bind.
    destruct (addShot (shotData shotId md rec ctx now url) w) as [u w'] eqn:E.
    pose proof (addShot_file (shotData shotId md rec ctx now url) w) as Hf.
    rewrite E in Hf; simpl in *. rewrite Hf.
    destruct (writable w); [|assumption].
    unfold feedbackInvariant; simpl.
    apply Forall_app; split; [exact Hinv|].
    constructor; [|constructor]. left; reflexivity.
  - intros b now nowMs rnd Hv.
    rewrite submitFeedback_after_log.
    remember (snd (log (LogInfo "Caddie feedback received:") w)) as w1 eqn:Ew.
    assert (Hf1 : file w1 = file w) by (subst w1; apply log_file).
    clear Ew.
    destruct (truthy (fb_shotId b)); unfold bind.
    + destruct (updateShotFeedback (fb_shotId b) (fb_feedback b) now w1)
        as [r w2] eqn:Eu.
      pose proof (updateShotFeedback_file
                    (fb_shotId b) (fb_feedback b) now w1) as Hf.
      rewrite Eu in Hf; simpl in *.
      destruct Hf as [Hf|Hf]; rewrite Hf.
      * now rewrite Hf1.
      * unfold feedbackInvariant; simpl. rewrite Hf1.
        apply updateFirst_Forall; [intro s; exact Hv|exact Hinv].
    + destruct (addShot (feedbackData b now nowMs rnd) w1) as [u' w2] eqn:Ea.
      pose proof (addShot_file (feedbackData b now nowMs rnd) w1) as Hf.
      rewrite Ea in Hf; simpl in *. rewrite Hf.
      destruct (writable w1); [|now rewrite Hf1].
      unfold feedbackInvariant; simpl. rewrite Hf1.
      apply Forall_app; split; [exact Hinv|].
      constructor; [exact Hv|constructor].
Qed.

Lemma sample_world1_invariant : feedbackInvariant (file Sample.world1).
Proof.
  unfold feedbackInvariant; simpl.
  constructor; [left; reflexivity|constructor].
Qed.

Lemma userFeedback_invariant_preserved_witness :
  (forall shotId md rec ctx now url,
      feedbackInvariant
        (file (snd (appendShot shotId md rec ctx now url Sample.world1))))
  /\ (forall b now nowMs rnd,
         validFeedback (fb_feedback b) ->
         feedbackInvariant
           (file (snd (submitFeedback b now nowMs rnd Sample.world1)))).
Proof.
  apply (userFeedback_invariant_preserved Sample.world1).
  unfold feedbackInvariant; simpl.
  constructor; [left; reflexivity|constructor].
Defined.

(** C9 as stated fails: a request whose verdict is ["great"] for a stored
    shot leaves a record whose [userFeedback] is ["great"]. *)
Lemma userFeedback_invariant_broken :
  feedbackInvariant (file Sample.world1)
  /\ ~ feedbackInvariant
         (file (snd (submitFeedback Sample.greatBody
                       "2026-01-01T00:00:00.000Z" 1767225600000
                       "k3j9x0q2a" Sample.world1))).
Proof.
  split.
  - exact sample_world1_invariant.
  - unfold feedbackInvariant; simpl. intro H.
    inversion H as [|? ? Hv _]; subst.
    destruct Hv as [Hv|[Hv|Hv]]; discriminate Hv.
Qed.

(* ================================================================== *)
(** ** Relevance matcher *)

Lemma relevant_iff : forall qCourse qHole qShotType qClub s,
    relevant qCourse qHole qShotType qClub s = true
    <-> courseId s = qCourse /\ holeNumber s = qHole
        /\ (truthy qShotType = true -> shotType s = qShotType)
        /\ (truthy qClub = true -> recClub s = qClub).
Proof.
  intros qCourse qHole qShotType qClub s. unfold relevant.
  destruct (strictEq (courseId s) qCourse) eqn:Ec; simpl.
  2:{ apply strictEq_neq in Ec. split; [discriminate|tauto]. }
  apply strictEq_eq in Ec.
  destruct (strictEq (holeNumber s) qHole) eqn:Eh.
  2:{ apply strictEq_neq in Eh. split; [discriminate|tauto]. }
  apply strictEq_eq in Eh.
  destruct (truthy qShotType); simpl.
  - destruct (strictEq (shotType s) qShotType) eqn:Et; simpl.
    + apply strictEq_eq in Et.
      destruct (truthy qClub); simpl.
      * destruct (strictEq (recClub s) qClub) eqn:Ek; simpl.
        -- apply strictEq_eq in Ek. tauto.
        -- apply strictEq_neq in Ek. split; [discriminate|].
           intros (_ & _ & _ & H). now elim Ek; apply H.
      * split; [|reflexivity]. intros _.
        repeat split; auto; discriminate.
    + apply strictEq_neq in Et. split; [discriminate|].
      intros (_ & _ & H & _). now elim Et; apply H.
  - destruct (truthy qClub); simpl.
    + destruct (strictEq (recClub s) qClub) eqn:Ek; simpl.
      * apply strictEq_eq in Ek.
        split; [|reflexivity]. intros _. repeat split; auto; discriminate.
      * apply strictEq_neq in Ek. split; [discriminate|].
        intros (_ & _ & _ & H). now elim Ek; apply H.
    + split; [|reflexivity]. intros _. repeat split; auto; discriminate.
Qed.

Lemma findRelevantShots_result :
  forall Date_parse qCourse qHole qShotType qClub w,
    fst (findRelevantShots Date_parse qCourse qHole qShotType qClub w)
    = sortBy (byRecency Date_parse)
        (matchingShots qCourse qHole qShotType qClub w).
Proof.
  intros. unfold findRelevantShots, matchingShots, bind.
  pose proof (loadShots_shots w) as Hs.
  destruct (loadShots w) as [shots w']. simpl in *. now subst.
Qed.

(** C2. A stored record is among the records [findRelevantShots] returns
    exactly when its [courseId] and its [holeNumber] are those of the
    query and, for a shot type or a club that is supplied (truthy, the
    test the code applies), its [shotType] or its [recommendation.club] is
    the one supplied.  A record of the same course on another hole is
    therefore never returned. *)
Theorem findRelevantShots_exact :
  forall Date_parse qCourse qHole qShotType qClub w s,
    In s (fst (findRelevantShots Date_parse qCourse qHole qShotType qClub w))
    <-> In s (storedShots (file w))
        /\ courseId s = qCourse /\ holeNumber s = qHole
        /\ (truthy qShotType = true -> shotType s = qShotType)
        /\ (truthy qClub = true -> recClub s = qClub).
Proof.
  intros. rewrite findRelevantShots_result, sortBy_In.
  unfold matchingShots. rewrite filter_In, relevant_iff. tauto.
Qed.

Lemma bestKnownTimestamp_fallback : forall Date_parse s,
    (truthy (timestamp s) = true -> bestKnownTimestamp s = timestamp s)
    /\ (truthy (timestamp s) = false -> truthy (uploadedAt s) = true ->
        bestKnownTimestamp s = uploadedAt s)
    /\ (truthy (timestamp s) = false -> truthy (uploadedAt s) = false ->
        shotTime Date_parse s = Some 0).
Proof.
  intros Date_parse s. unfold shotTime, bestKnownTimestamp, or.
  repeat split.
  - intros H. now rewrite H, H.
  - intros H1 H2. now rewrite H1, H2.
  - intros H1 H2. now rewrite H1, H2.
Qed.

Lemma byRecency_key : forall Date_parse a b,
    shotTime Date_parse a <> None -> shotTime Date_parse b <> None ->
    byRecency Date_parse a b = timeKey Date_parse b - timeKey Date_parse a.
Proof.
  intros Date_parse a b Ha Hb. unfold byRecency, timeKey.
  destruct (shotTime Date_parse a), (shotTime Date_parse b); congruence.
Qed.

(** C3. Provided the best-known timestamp of every matching record
    denotes an instant, [findRelevantShots] returns the matching records,
    each once, newest first; three matching records with instants
    [t1 < t2 < t3] come back as [t3, t2, t1] whatever their order in the
    store.  The best-known timestamp is [timestamp]; without it (absent,
    [null] or empty) it is [uploadedAt]; without both it is the epoch. *)
Theorem findRelevantShots_newest_first :
  forall Date_parse qCourse qHole qShotType qClub w,
    (forall s, In s (matchingShots qCourse qHole qShotType qClub w) ->
               shotTime Date_parse s <> None) ->
    Permutation (matchingShots qCourse qHole qShotType qClub w)
      (fst (findRelevantShots Date_parse qCourse qHole qShotType qClub w))
    /\ newestFirst Date_parse
         (fst (findRelevantShots Date_parse qCourse qHole qShotType qClub w))
    /\ (forall r1 r2 r3 t1 t2 t3,
           Permutation (matchingShots qCourse qHole qShotType qClub w)
             [r1; r2; r3] ->
           shotTime Date_parse r1 = Some t1 ->
           shotTime Date_parse r2 = Some t2 ->
           shotTime Date_parse r3 = Some t3 ->
           t1 < t2 < t3 ->
           fst (findRelevantShots Date_parse qCourse qHole qShotType qClub w)
           = [r3; r2; r1])
    /\ (forall s,
           (truthy (timestamp s) = true ->
            bestKnownTimestamp s = timestamp s)
           /\ (truthy (timestamp s) = false ->
               truthy (uploadedAt s) = true ->
               bestKnownTimestamp s = uploadedAt s)
           /\ (truthy (timestamp s) = false ->
               truthy (uploadedAt s) = false ->
               shotTime Date_parse s = Some 0)).
Proof.
  intros Date_parse qCourse qHole qShotType qClub w Hvalid.
  rewrite findRelevantShots_result.
  set (m := matchingShots qCourse qHole qShotType qClub w) in *.
  assert (Hsorted : newestFirst Date_parse (sortBy (byRecency Date_parse) m)).
  { apply sortBy_desc. intros x y Hx Hy. apply byRecency_key; auto. }
  split; [apply sortBy_perm|].
  split; [exact Hsorted|].
  split; [|intro s; apply bestKnownTimestamp_fallback].
  intros r1 r2 r3 t1 t2 t3 Hp H1 H2 H3 Hlt.
  symmetry.
  apply (desc_sorted_unique (timeKey Date_parse)).
  - eapply perm_trans; [|apply sortBy_perm].
    eapply perm_trans; [|apply Permutation_sym; exact Hp].
    apply Permutation_sym. apply (Permutation_rev [r1; r2; r3]).
  - repeat constructor; unfold timeKey; rewrite ?H1, ?H2, ?H3; lia.
  - exact Hsorted.
  - unfold timeKey. simpl.
    intros x y [<-|[<-|[<-|[]]]] [<-|[<-|[<-|[]]]];
      rewrite ?H1, ?H2, ?H3; intro; try reflexivity; lia.
Qed.

Lemma findRelevantShots_newest_first_witness :
  fst (findRelevantShots Sample.parseDate (VStr "pebble") (VNum 7)
         VUndef VUndef Sample.world3)
  = [Sample.late; Sample.middle; Sample.early].
Proof.
  refine (proj1 (proj2 (proj2
    (findRelevantShots_newest_first Sample.parseDate (VStr "pebble")
       (VNum 7) VUndef VUndef Sample.world3 _)))
    Sample.early Sample.middle Sample.late
    1767225600000 1767312000000 1767398400000 _ _ _ _ _).
  - simpl. intros s [<-|[<-|[<-|[]]]]; discriminate.
  - simpl. apply perm_swap.
  - reflexivity.
  - reflexivity.
  - reflexivity.
  - lia.
Defined.

(* ================================================================== *)
(** ** Dictionaries and grouping loops *)

Section DictFacts.

Context {B : Type}.

Lemma get_upsert_same : forall k (i : B) f d,
    get k (upsert k i f d)
    = Some (match get k d with Some v => f v | None => i end).
Proof.
  intros k i f d; induction d as [|[k' v] r IH]; simpl.
  - now rewrite String.eqb_refl.
  - destruct (String.eqb_spec k k') as [->|Hne]; simpl.
    + now rewrite String.eqb_refl.
    + destruct (String.eqb_spec k k'); [contradiction|exact IH].
Qed.

Lemma get_upsert_other : forall k k' (i : B) f d,
    k <> k' -> get k' (upsert k i f d) = get k' d.
Proof.
  intros k k' i f d Hne; induction d as [|[k0 v] r IH]; simpl.
  - destruct (String.eqb_spec k' k); [congruence|reflexivity].
  - destruct (String.eqb_spec k k0) as [->|Hk]; simpl.
    + destruct (String.eqb_spec k' k0); [congruence|reflexivity].
    + destruct (String.eqb_spec k' k0); [reflexivity|exact IH].
Qed.

Lemma get_In_keys : forall k (d : dict B),
    In k (map fst d) <-> get k d <> None.
Proof.
  intros k d; induction d as [|[k' v] r IH]; simpl.
  - split; [tauto|congruence].
  - destruct (String.eqb_spec k k') as [->|Hne].
    + split; [discriminate|auto].
    + rewrite <- IH. split; [intros [H|H]; congruence|auto].
Qed.

Lemma get_In : forall k v (d : dict B), get k d = Some v -> In (k, v) d.
Proof.
  intros k v d; induction d as [|[k' v'] r IH]; simpl; [discriminate|].
  destruct (String.eqb_spec k k') as [->|Hne].
  - intros [= ->]. now left.
  - intro H. right. now apply IH.
Qed.

Lemma keys_In : forall k (d : dict B), In k (keys d) <-> In k (map fst d).
Proof.
  intros k d. unfold keys.
  rewrite in_app_iff, filter_In, in_map_iff.
  split.
  - intros [[[k0 n] [<- Hin]]|[Hin _]]; [|exact Hin].
    apply (proj1 (sortBy_In indexKeyCmp _ _)) in Hin.
    apply in_flat_map in Hin. destruct Hin as [k1 [Hk1 Hin]].
    destruct (arrayIndex k1); simpl in Hin; [|contradiction].
    destruct Hin as [[= <- <-]|[]]. exact Hk1.
  - intro Hin. destruct (arrayIndex k) as [n|] eqn:E.
    + left. exists (k, n). split; [reflexivity|].
      apply sortBy_In. apply in_flat_map. exists k.
      split; [exact Hin|]. rewrite E. now left.
    + right. now split.
Qed.

End DictFacts.

Section CollectFacts.

Context {A B : Type}.
Variable key : A -> option string.
Variable init : A -> B.
Variable step : A -> B -> B.

Local Abbreviation keyIs := (keyIs key).
Local Abbreviation entryAfter := (entryAfter init step).

Lemma collect_get : forall l d d' k,
    collect key init step l d = Some d' ->
    get k d' = entryAfter (filter (keyIs k) l) (get k d).
Proof.
  induction l as [|x r IH]; intros d d' k; simpl.
  - now intros [= ->].
  - unfold keyIs at 1. destruct (key x) as [kx|] eqn:Ex.
    + destruct (isProtoName kx); [discriminate|].
      intro H. rewrite (IH _ _ k H).
      destruct (String.eqb_spec kx k) as [->|Hne]; simpl.
      * now rewrite get_upsert_same.
      * now rewrite get_upsert_other.
    + intro H. now apply IH.
Qed.

Lemma entryAfter_none : forall l o,
    entryAfter l o = None <-> l = [] /\ o = None.
Proof.
  induction l as [|x r IH]; intros o; simpl.
  - tauto.
  - rewrite IH. split; [intros [_ H]; discriminate|intros [H _]; discriminate].
Qed.

Lemma collect_keys : forall l d' k,
    collect key init step l [] = Some d' ->
    (In k (map fst d') <-> exists x, In x l /\ key x = Some k).
Proof.
  intros l d' k H.
  rewrite get_In_keys, (collect_get _ _ _ k H). simpl.
  rewrite entryAfter_none.
  split.
  - intro Hne. destruct (filter (keyIs k) l) as [|x r] eqn:E.
    + now elim Hne.
    + assert (Hin : In x (filter (keyIs k) l)) by (rewrite E; now left).
      apply filter_In in Hin. destruct Hin as [Hin Hk].
      exists x. split; [exact Hin|].
      unfold keyIs in Hk. destruct (key x) as [k'|]; [|discriminate].
      apply String.eqb_eq in Hk. now subst.
  - intros [x [Hin Hk]] [Hnil _].
    assert (Hf : In x (filter (keyIs k) l)).
    { apply filter_In. split; [exact Hin|].
      unfold keyIs. rewrite Hk. apply String.eqb_refl. }
    rewrite Hnil in Hf. exact Hf.
Qed.

End CollectFacts.

(** Grouping into arrays: the group of a key is the sub-list of the
    elements with that key, in order. *)
Lemma entryAfter_push : forall (l : list Shot) (o : option (list Shot)),
    entryAfter (fun shot => [shot]) (fun shot g => g ++ [shot]) l o
    = match o, l with
      | None, [] => None
      | None, _ => Some l
      | Some g, _ => Some (g ++ l)
      end.
Proof.
  induction l as [|x r IH]; intros o; simpl.
  - destruct o; [now rewrite app_nil_r|reflexivity].
  - rewrite IH. destruct o as [g|].
    + now rewrite <- app_assoc.
    + reflexivity.
Qed.

Lemma group_get : forall (f : Shot -> string) shots d k,
    collect (fun shot => Some (f shot)) (fun shot => [shot])
      (fun shot g => g ++ [shot]) shots [] = Some d ->
    get k d = match filter (fun s => (f s =? k)%string) shots with
              | [] => None
              | g => Some g
              end.
Proof.
  intros f shots d k H.
  rewrite (collect_get _ _ _ _ _ _ k H), entryAfter_push. simpl.
  unfold keyIs. now destruct (filter _ shots).
Qed.

(* ================================================================== *)
(** ** Numerals, and loops that may throw *)

Lemma to_int_nonnil : forall z,
    Z.to_int z <> Decimal.Pos Decimal.Nil
    /\ Z.to_int z <> Decimal.Neg Decimal.Nil.
Proof.
  destruct z as [|p|p]; simpl; split; try discriminate;
    intros [= H]; now apply (DecimalPos.Unsigned.to_uint_nonnil p).
Qed.

Lemma parseInt_numToString : forall z, parseInt (numToString z) = Some z.
Proof.
  intro z. unfold parseInt, numToString.
  destruct (to_int_nonnil z) as [H1 H2].
  rewrite NilZero.isi by assumption. simpl. now rewrite DecimalZ.of_to.
Qed.

Lemma numToString_inj : forall a b, numToString a = numToString b -> a = b.
Proof.
  intros a b H.
  pose proof (parseInt_numToString a) as Ha.
  rewrite H, parseInt_numToString in Ha. congruence.
Qed.

(** A value that is no string and whose key parses is a number. *)
Lemma parseInt_key_number : forall v z,
    isStr v = false -> parseInt (toString v) = Some z -> v = VNum z.
Proof.
  intros v z Hs Hp. destruct v as [| |[|]|n|t]; simpl in *;
    try discriminate.
  rewrite parseInt_numToString in Hp. congruence.
Qed.

Lemma omap_In : forall {A B : Type} (f : A -> option B) l ys,
    omap f l = Some ys ->
    forall y, In y ys <-> exists x, In x l /\ f x = Some y.
Proof.
  intros A B f; induction l as [|x r IH]; intros ys H y; simpl in H.
  - injection H as <-. simpl. split; [tauto|intros [x [[] _]]].
  - destruct (f x) as [y0|] eqn:Ex; simpl in H; [|discriminate].
    destruct (omap f r) as [ys0|] eqn:Er; simpl in H; [|discriminate].
    injection H as <-. simpl. rewrite (IH ys0 eq_refl y).
    split.
    + intros [<-|[x' [Hin Hx']]].
      * exists x. auto.
      * exists x'. auto.
    + intros [x' [[<-|Hin] Hx']].
      * left. congruence.
      * right. exists x'. auto.
Qed.

Lemma omap_defined : forall {A B : Type} (f : A -> option B) l ys,
    omap f l = Some ys -> forall x, In x l -> f x <> None.
Proof.
  intros A B f; induction l as [|x r IH]; intros ys H x' Hin; simpl in H.
  - destruct Hin.
  - destruct (f x) as [y0|] eqn:Ex; simpl in H; [|discriminate].
    destruct (omap f r) as [ys0|] eqn:Er; simpl in H; [|discriminate].
    destruct Hin as [<-|Hin]; [congruence|].
    now apply (IH ys0 eq_refl).
Qed.

(* ================================================================== *)
(** ** The holes of a course *)

Section PerHole.

Variable courseShots : list Shot.
Variable shotsByHole : dict (list Shot).
Variable perHole : list (Z * list Shot).
Hypothesis Hmodelled : existsb notModelled courseShots = false.
Hypothesis Hgroup : groupByHole courseShots = Some shotsByHole.
Hypothesis HperHole : perHoleOf shotsByHole = Some perHole.

Lemma hole_keys_parse : forall k,
    In k (map fst shotsByHole) -> parseInt k <> None.
Proof.
  intros k Hk. pose proof HperHole as Hp. unfold perHoleOf in Hp.
  destruct (omap parseInt (keys shotsByHole)) as [holes|] eqn:E;
    simpl in Hp; [|discriminate].
  apply (omap_defined _ _ _ E). now apply keys_In.
Qed.

Lemma course_holes_numeric : forall s,
    In s courseShots -> exists z, holeNumber s = VNum z.
Proof.
  intros s Hs.
  assert (Hstr : isStr (holeNumber s) = false).
  { destruct (isStr (holeNumber s)) eqn:E; [|reflexivity].
    assert (Hex : existsb notModelled courseShots = true).
    { apply existsb_exists. exists s. split; [exact Hs|].
      unfold notModelled. now rewrite E. }
    congruence. }
  assert (Hk : In (holeKeyOf s) (map fst shotsByHole)).
  { apply (collect_keys _ _ _ _ _ _ Hgroup). exists s. auto. }
  apply hole_keys_parse in Hk.
  destruct (parseInt (holeKeyOf s)) as [z|] eqn:E; [|congruence].
  exists z. now apply parseInt_key_number.
Qed.

Lemma hole_group : forall h,
    get (numToString h) shotsByHole
    = match holeShotsOf h courseShots with
      | [] => None
      | g => Some g
      end.
Proof.
  intro h. unfold groupByHole in Hgroup.
  rewrite (group_get _ _ _ _ Hgroup).
  assert (Heq : filter (fun s => (holeKeyOf s =? numToString h)%string)
                  courseShots = holeShotsOf h courseShots).
  { apply filter_ext_in. intros s Hs.
    destruct (course_holes_numeric s Hs) as [z Hz].
    unfold holeKeyOf. rewrite Hz. simpl.
    destruct (Z.eqb_spec z h) as [->|Hne].
    - apply String.eqb_refl.
    - apply String.eqb_neq. intro H. now apply numToString_inj in H. }
  now rewrite Heq.
Qed.

(** [perHole] lists exactly the holes that have shots, each with its
    shots in store order. *)
Lemma perHole_spec : forall h g,
    In (h, g) perHole <-> g = holeShotsOf h courseShots /\ g <> [].
Proof.
  intros h g. pose proof HperHole as Hp. unfold perHoleOf in Hp.
  destruct (omap parseInt (keys shotsByHole)) as [holes|] eqn:E;
    simpl in Hp; [|discriminate].
  rewrite (omap_In _ _ _ Hp).
  split.
  - intros [h' [_ Hg]]. unfold shotsOfHole in Hg.
    destruct (get (numToString h') shotsByHole) as [g'|] eqn:Eg;
      simpl in Hg; [|discriminate].
    injection Hg as -> ->.
    rewrite hole_group in Eg.
    destruct (holeShotsOf h courseShots); [discriminate|].
    injection Eg as <-. split; [reflexivity|discriminate].
  - intros [-> Hne]. exists h. split.
    + apply (omap_In _ _ _ E). exists (numToString h).
      split; [|apply parseInt_numToString].
      apply keys_In, get_In_keys. rewrite hole_group.
      destruct (holeShotsOf h courseShots); [now elim Hne|discriminate].
    + unfold shotsOfHole. rewrite hole_group.
      destruct (holeShotsOf h courseShots); [now elim Hne|reflexivity].
Qed.

End PerHole.

(* ================================================================== *)
(** ** Course intelligence: tricky holes *)

Lemma Qltb_lt : forall x y : Q, Qltb x y = true <-> (x < y)%Q.
Proof.
  intros x y. unfold Qltb. rewrite negb_true_iff.
  split.
  - intro H. apply Qnot_le_lt. intro Hle.
    apply Qle_bool_iff in Hle. congruence.
  - intro H. destruct (Qle_bool y x) eqn:E; [|reflexivity].
    apply Qle_bool_iff in E. now apply Qlt_not_le in H.
Qed.

Lemma pos_of_nat_Z : forall t : nat,
    (0 < t)%nat -> Z.pos (Pos.of_nat t) = Z.of_nat t.
Proof. intros t Ht. lia. Qed.

Lemma ratio_Qmake : forall a t : nat,
    (0 < t)%nat ->
    (inject_Z (Z.of_nat a) / inject_Z (Z.of_nat t)
     == Z.of_nat a # Pos.of_nat t)%Q.
Proof.
  intros a t Ht. rewrite Qmake_Qdiv, (pos_of_nat_Z t Ht). reflexivity.
Qed.

Lemma majority_iff : forall shots,
    (0 < totalFeedbackOf shots)%nat ->
    (Qltb (1 # 2) (negativeFraction shots) = true
     <-> (totalFeedbackOf shots < 2 * offCountOf shots)%nat).
Proof.
  intros shots Ht. rewrite Qltb_lt. unfold negativeFraction.
  rewrite (ratio_Qmake _ _ Ht). unfold Qlt; simpl.
  pose proof (pos_of_nat_Z _ Ht) as Hp. lia.
Qed.






Lemma trickyHolesOf_In : forall perHole tricky e,
    trickyHolesOf perHole = Some tricky ->
    (In e tricky <-> exists h g l, In (h, g) perHole
                                   /\ trickyEntry h g = Some l /\ In e l).
Proof.
  intros perHole tricky e H. unfold trickyHolesOf in H.
  destruct (omap _ perHole) as [ls|] eqn:E; simpl in H; [|discriminate].
  injection H as <-. rewrite sortBy_In, in_concat.
  split.
  - intros [l [Hl He]]. apply (omap_In _ _ _ E) in Hl.
    destruct Hl as [[h g] [Hin Hl]]. exists h, g, l. auto.
  - intros [h [g [l [Hin [Hl He]]]]]. exists l. split; [|exact He].
    apply (omap_In _ _ _ E). exists (h, g). auto.
Qed.


Lemma aggregate_inv : forall qCourse courseShots ci,
    aggregate qCourse courseShots = Some ci ->
    exists shotsByHole perHole tricky clubStats,
      groupByHole courseShots = Some shotsByHole
      /\ perHoleOf shotsByHole = Some perHole
      /\ trickyHolesOf perHole = Some tricky
      /\ collectClubStats courseShots = Some clubStats
      /\ trickyHoles ci = tricky
      /\ clubInsights ci = clubInsightsOf clubStats
      /\ aiNotes ci = aiNotesOf courseShots perHole.
Proof.
  intros qCourse courseShots ci H. unfold aggregate in H.
  destruct (groupByHole courseShots) as [d|] eqn:Ed; simpl in H;
    [|discriminate].
  destruct (perHoleOf d) as [ph|] eqn:Eph; simpl in H; [|discriminate].
  destruct (trickyHolesOf ph) as [tr|] eqn:Etr; simpl in H; [|discriminate].
  destruct (collectClubStats courseShots) as [cs|] eqn:Ecs; simpl in H;
    [|discriminate].
  injection H as <-. exists d, ph, tr, cs. simpl. auto 10.
Qed.

(** *** The double behind the listed score *)

Lemma roundHalfEven_near : forall y : Q,
    (y - (1 # 2) <= inject_Z (roundHalfEven y) <= y + (1 # 2))%Q.
Proof.
  intro y. unfold roundHalfEven. cbv zeta.
  pose proof (Qfloor_le y) as H1. pose proof (Qlt_floor y) as H2.
  rewrite inject_Z_plus in H2. change (inject_Z 1) with 1%Q in H2.
  destruct (Qcompare_spec (y - inject_Z (Qfloor y)) (1 # 2)) as [E|E|E].
  - destruct (Z.even (Qfloor y)); rewrite ?inject_Z_plus;
      change (inject_Z 1) with 1%Q; split; lra.
  - split; lra.
  - rewrite inject_Z_plus. change (inject_Z 1) with 1%Q. split; lra.
Qed.


Lemma two_neq_0 : ~ (2 == 0)%Q.
Proof. intro H. discriminate H. Qed.

Lemma exponentOf_le : forall n d, (2 ^ exponentOf n d <= Z.pos n # d)%Q.
Proof.
  intros n d. unfold exponentOf. cbv zeta.
  set (a := Z.log2 (Z.pos n)). set (b := Z.log2 (Z.pos d)).
  destruct (Qle_bool (2 ^ (a - b)) (Z.pos n # d)) eqn:E.
  - now apply Qle_bool_iff.
  - assert (Ha : 0 <= a) by apply Z.log2_nonneg.
    assert (Hb : 0 <= b) by apply Z.log2_nonneg.
    destruct (Z.log2_spec (Z.pos n)) as [Hn _]; [lia|].
    destruct (Z.log2_spec (Z.pos d)) as [_ Hd]; [lia|].
    fold a in Hn. fold b in Hd.
    replace (a - b - 1) with (a - (b + 1)) by lia.
    rewrite (Qpower_minus 2 a (b + 1) two_neq_0).
    rewrite <- (Zpower_Qpower 2 a Ha).
    rewrite <- (Zpower_Qpower 2 (b + 1)) by lia.
    assert (HB : 0 < 2 ^ (b + 1)) by (apply Z.pow_pos_nonneg; lia).
    assert (HA : 0 < 2 ^ a) by (apply Z.pow_pos_nonneg; lia).
    replace (Z.succ b) with (b + 1) in Hd by lia.
    destruct (2 ^ (b + 1)) as [|B|B] eqn:EB; try lia.
    rewrite <- (Qmake_Qdiv (2 ^ a) B).
    unfold Qle. cbn [Qnum Qden]. nia.
Qed.

(** Rounding to binary64 moves a number by at most the fraction [2^-53]
    of itself. *)
Lemma binary64_near : forall x : Q,
    (0 <= x)%Q ->
    (x - x * (1 # 2 ^ 53) <= binary64 x <= x + x * (1 # 2 ^ 53))%Q.
Proof.
  intros [num den] Hx. unfold binary64. cbn [Qnum Qden].
  destruct num as [|n|n].
  - split; unfold Qle; cbn; lia.
  - set (x := Z.pos n # den) in *.
    set (e := exponentOf n den).
    pose proof (exponentOf_le n den) as He. fold e x in He.
    pose proof (roundHalfEven_near (x * 2 ^ (52 - e))) as Hm.
    set (m := inject_Z (roundHalfEven (x * 2 ^ (52 - e)))) in *.
    assert (HPR : (2 ^ (52 - e) * 2 ^ (e - 52) == 1)%Q).
    { rewrite <- (Qpower_plus 2 _ _ two_neq_0).
      replace (52 - e + (e - 52)) with 0 by lia. reflexivity. }
    assert (HR : (2 ^ (e - 52) == 2 ^ e * (1 # 2 ^ 52))%Q).
    { unfold Z.sub at 1. rewrite (Qpower_plus 2 _ _ two_neq_0).
      reflexivity. }
    assert (HE : (0 < 2 ^ e)%Q) by (apply Qpower_0_lt; reflexivity).
    assert (HP : (0 < 2 ^ (52 - e))%Q) by (apply Qpower_0_lt; reflexivity).
    set (P := (2 ^ (52 - e))%Q) in *. set (R := (2 ^ (e - 52))%Q) in *.
    set (E := (2 ^ e)%Q) in *.
    assert (Hd : (m * R - x == (m - x * P) * R)%Q).
    { transitivity (m * R - x * (P * R))%Q; [rewrite HPR|]; ring. }
    assert (HRp : (0 < R)%Q) by (rewrite HR; nra).
    destruct Hm as [Hm1 Hm2].
    assert (H1 : ((m - x * P) * R <= (1 # 2) * R)%Q)
      by (apply Qmult_le_compat_r; lra).
    assert (H2 : (- ((1 # 2) * R) <= (m - x * P) * R)%Q).
    { setoid_replace (- ((1 # 2) * R))%Q with ((- (1 # 2)) * R)%Q by ring.
      apply Qmult_le_compat_r; lra. }
    assert (Hc : ((1 # 2 ^ 53) == (1 # 2) * (1 # 2 ^ 52))%Q)
      by (vm_compute; reflexivity).
    assert (Hc0 : (0 < (1 # 2 ^ 52))%Q) by reflexivity.
    assert (H3 : ((1 # 2) * R <= x * (1 # 2 ^ 53))%Q).
    { rewrite HR, Hc.
      set (c := (1 # 2 ^ 52)%Q) in *.
      setoid_replace ((1 # 2) * (E * c))%Q with (E * ((1 # 2) * c))%Q by ring.
      apply Qmult_le_compat_r; [exact He|lra]. }
    split; lra.
  - exfalso. unfold Qle in Hx. cbn in Hx. lia.
Qed.



(** A quotient that is exactly one half is its own double. *)
Lemma binary64_half : forall x : Q, (x == 1 # 2)%Q -> (binary64 x == 1 # 2)%Q.
Proof.
  intros [num den] Hx. unfold binary64. cbn [Qnum Qden].
  destruct num as [|n|n]; try (unfold Qeq in Hx; cbn in Hx; lia).
  set (x := Z.pos n # den) in *.
  set (e := exponentOf n den).
  pose proof (exponentOf_le n den) as He. fold e x in He.
  assert (Hle : e <= -1).
  { apply (Qpower_le_compat_l_inv 2); [|reflexivity].
    rewrite Hx in He. exact He. }
  assert (Hy : (x * 2 ^ (52 - e) == inject_Z (2 ^ (51 - e)))%Q).
  { rewrite Hx, (Zpower_Qpower 2 (51 - e)) by lia.
    change (inject_Z 2) with 2%Q.
    replace (52 - e) with (1 + (51 - e)) by lia.
    rewrite (Qpower_plus 2 _ _ two_neq_0). change (2 ^ 1)%Q with 2%Q.
    field. }
  pose proof (roundHalfEven_near (x * 2 ^ (52 - e))) as Hm.
  set (m := roundHalfEven (x * 2 ^ (52 - e))) in *. clearbody m.
  rewrite Hy in Hm.
  assert (Hmk : m = 2 ^ (51 - e)).
  { destruct Hm as [H1 H2]. unfold Qle, Qminus, Qplus in H1, H2.
    cbn [Qnum Qden inject_Z Qopp] in H1, H2. lia. }
  rewrite Hmk, <- Hy.
  assert (HPR : (2 ^ (52 - e) * 2 ^ (e - 52) == 1)%Q).
  { rewrite <- (Qpower_plus 2 _ _ two_neq_0).
    replace (52 - e + (e - 52)) with 0 by lia. reflexivity. }
  rewrite <- Qmult_assoc, HPR, Hx. reflexivity.
Qed.

(** The test [negativeRatio > 0.5] of the code, made on the double, comes
    out as on the exact quotient for all counts below [2^53 - 1]. *)
Lemma majority_test_on_doubles : forall a t : nat,
    (0 < t)%nat -> (a <= t)%nat -> Z.of_nat t < 2 ^ 53 - 1 ->
    Qltb (1 # 2) (binary64 (inject_Z (Z.of_nat a) / inject_Z (Z.of_nat t)))
    = Qltb (1 # 2) (inject_Z (Z.of_nat a) / inject_Z (Z.of_nat t)).
Proof.
  intros a t Ht Hat Hbig.
  set (x := (inject_Z (Z.of_nat a) / inject_Z (Z.of_nat t))%Q).
  assert (Hxq : (x == Z.of_nat a # Pos.of_nat t)%Q)
    by (apply ratio_Qmake; exact Ht).
  assert (Hx0 : (0 <= x)%Q).
  { rewrite Hxq. unfold Qle. cbn. lia. }
  pose proof (binary64_near x Hx0) as [Hlo Hhi].
  pose proof (pos_of_nat_Z t Ht) as Hp.
  destruct (Z.compare_spec (2 * Z.of_nat a) (Z.of_nat t)) as [E|E|E].
  - assert (Hh : (x == 1 # 2)%Q).
    { rewrite Hxq. unfold Qeq. cbn [Qnum Qden]. lia. }
    pose proof (binary64_half x Hh) as Hb.
    transitivity false.
    + apply not_true_is_false. rewrite Qltb_lt, Hb. apply Qlt_irrefl.
    + symmetry. apply not_true_is_false. rewrite Qltb_lt, Hh.
      apply Qlt_irrefl.
  - assert (Hlt : (x * ((1 # 1) + (1 # 2 ^ 53)) < 1 # 2)%Q).
    { rewrite Hxq. unfold Qlt, Qmult, Qplus. cbn [Qnum Qden].
      rewrite !Pos2Z.inj_mul, Hp.
      change (Z.pos (2 ^ 53)) with (2 ^ 53) in *.
      change (Z.pos 1) with 1. nia. }
    transitivity false.
    + apply not_true_is_false. rewrite Qltb_lt. lra.
    + symmetry. apply not_true_is_false. rewrite Qltb_lt. lra.
  - assert (Hgt : (1 # 2 < x * ((1 # 1) - (1 # 2 ^ 53)))%Q).
    { rewrite Hxq. unfold Qlt, Qmult, Qminus, Qplus, Qopp. cbn [Qnum Qden].
      rewrite !Pos2Z.inj_mul, Hp.
      change (Z.pos (2 ^ 53)) with (2 ^ 53) in *.
      change (Z.pos 1) with 1. nia. }
    transitivity true.
    + rewrite Qltb_lt. lra.
    + symmetry. rewrite Qltb_lt. lra.
Qed.

(** [binary64] gives the doubles the IEEE 754 division and multiplication
    of the standard library give. *)
Remark binary64_as_SpecFloat :
  Forall (fun ab => Qeq_bool (SF2Q (double_ratio_twice (fst ab) (snd ab)))
                      (binary64 (2 * (inject_Z (fst ab) / inject_Z (snd ab))))
                    = true)
    [(3, 4); (23, 40); (5, 6); (6, 7); (2, 3); (7, 13); (51, 100); (1, 1);
     (999, 1000); (4294967295, 4294967296)].
Proof. repeat constructor. Qed.




(* ================================================================== *)
(** ** Course intelligence: wind notes *)

Lemma string_length_append : forall s t : string,
    String.length (s ++ t)%string = (String.length s + String.length t)%nat.
Proof.
  induction s as [|c r IH]; intro t; simpl; [reflexivity|now rewrite IH].
Qed.

Lemma append_cancel_r : forall s1 s2 t : string,
    (s1 ++ t)%string = (s2 ++ t)%string -> s1 = s2.
Proof.
  induction s1 as [|c r IH]; intros s2 t H; destruct s2 as [|c' r'];
    simpl in H.
  - reflexivity.
  - apply (f_equal String.length) in H. simpl in H.
    rewrite string_length_append in H. lia.
  - apply (f_equal String.length) in H. simpl in H.
    rewrite string_length_append in H. lia.
  - injection H as -> H. f_equal. now apply (IH r' t).
Qed.

Lemma windNote_inj : forall a b, windNote a = windNote b -> a = b.
Proof.
  intros a b H. unfold windNote in H. simpl in H.
  repeat match type of H with
         | String _ _ = String _ _ => injection H as H
         end.
  apply append_cancel_r in H. now apply numToString_inj.
Qed.

Lemma countOf_tally : forall vs d k,
    countOf (fold_left (fun counts v => upsert (toString v) 1%nat S counts)
               vs d) k
    = (countOf d k
       + List.length (filter (fun v => (toString v =? k)%string) vs))%nat.
Proof.
  induction vs as [|v r IH]; intros d k; simpl.
  - lia.
  - rewrite IH. unfold countOf at 1 2.
    destruct (String.eqb_spec (toString v) k) as [->|Hne]; simpl.
    + rewrite get_upsert_same. destruct (get k d); lia.
    + rewrite get_upsert_other by assumption. lia.
Qed.

(** Among truthy values only the string [kind] itself has the key
    [kind], for a [kind] such as ["into"] or ["strong"]. *)
Lemma key_is_kind : forall kind v,
    parseInt kind = None -> kind <> "true" -> kind <> "" ->
    truthy v && (toString v =? kind)%string = strictEq v (VStr kind).
Proof.
  intros kind v Hp Ht He.
  destruct v as [| |[|]|z|s]; cbn [truthy toString strictEq andb];
    try reflexivity.
  - apply String.eqb_neq. congruence.
  - rewrite andb_comm.
    destruct (String.eqb_spec (numToString z) kind) as [<-|_];
      [|reflexivity].
    now rewrite parseInt_numToString in Hp.
  - destruct (String.eqb_spec s kind) as [->|_].
    + apply String.eqb_neq in He. now rewrite He.
    + apply andb_false_r.
Qed.

Lemma wind_tally : forall kind shots,
    parseInt kind = None -> kind <> "true" -> kind <> "" ->
    countOf (tally (filter truthy (map shotWind shots))) kind
    = windCountOf kind shots.
Proof.
  intros kind shots Hp Ht He. unfold tally, windCountOf.
  rewrite countOf_tally. simpl.
  induction shots as [|s r IH]; simpl; [reflexivity|].
  rewrite <- (key_is_kind kind (shotWind s) Hp Ht He).
  destruct (truthy (shotWind s)); simpl; [|exact IH].
  destruct (toString (shotWind s) =? kind)%string; simpl; now rewrite IH.
Qed.

Ltac nat_bools :=
  repeat match goal with
    | H : (_ <? _)%nat = true |- _ => apply Nat.ltb_lt in H
    | H : (_ <? _)%nat = false |- _ => apply Nat.ltb_ge in H
    | H : (_ <=? _)%nat = true |- _ => apply Nat.leb_le in H
    | H : (_ <=? _)%nat = false |- _ => apply Nat.leb_gt in H
    | H : (_ =? _)%nat = true |- _ => apply Nat.eqb_eq in H
    | H : (_ =? _)%nat = false |- _ => apply Nat.eqb_neq in H
    end.

Lemma windEntry_spec : forall h g,
    let into := windCountOf "into" g in
    let strong := windCountOf "strong" g in
    windEntry h g
    = if (3 <=? into)%nat || ((into =? 0)%nat && (3 <=? strong)%nat)
      then [windNote h] else [].
Proof.
  intros h g into strong. unfold windEntry. cbv zeta.
  rewrite !wind_tally by (try reflexivity; discriminate).
  fold into strong.
  destruct (0 <? into)%nat eqn:E0, (3 <=? into)%nat eqn:E3,
    (into =? 0)%nat eqn:Ez, (3 <=? strong)%nat eqn:Es,
    (0 <? strong)%nat eqn:E0s; simpl;
    rewrite ?E0, ?E3, ?Ez, ?Es, ?E0s; simpl; try reflexivity;
    nat_bools; lia.
Qed.

Lemma windNotesOf_In : forall perHole x,
    In x (windNotesOf perHole)
    <-> exists h g, In (h, g) perHole /\ In x (windEntry h g).
Proof.
  intros perHole x. unfold windNotesOf. rewrite in_flat_map.
  split.
  - intros [[h g] [Hin Hx]]. exists h, g. auto.
  - intros [h [g [Hin Hx]]]. exists (h, g). auto.
Qed.

Lemma aiNotesOf_wind : forall courseShots perHole N,
    In (windNote N) (aiNotesOf courseShots perHole)
    <-> In (windNote N) (windNotesOf perHole).
Proof.
  intros courseShots perHole N. unfold aiNotesOf. cbv zeta.
  rewrite !in_app_iff.
  split; [|tauto].
  intros [H|[H|[H|H]]]; [|exact H| |]; exfalso;
    repeat match type of H with
      | In _ (if ?c then _ else _) => destruct c
      end;
    simpl in H; try tauto;
    destruct H as [H|[]]; unfold windNote in H; simpl in H; discriminate H.
Qed.

(** C6, as the code has it.  When the aggregation completes, [aiNotes]
    contains the wind note of hole [N] exactly when hole [N] has at least 3
    shots whose wind is ["into"], or has no ["into"] shot and at least 3
    shots whose wind is ["strong"]: the count read is
    [holeWind["into"] || holeWind["strong"]], the two are never added. *)
Theorem windNote_rule : forall qCourse courseShots ci N,
    aggregate qCourse courseShots = Some ci ->
    existsb notModelled courseShots = false ->
    (In (windNote N) (aiNotes ci)
     <-> (3 <= windCountOf "into" (holeShotsOf N courseShots))%nat
         \/ (windCountOf "into" (holeShotsOf N courseShots) = 0%nat
             /\ (3 <= windCountOf "strong" (holeShotsOf N courseShots))%nat)).
Proof.
  intros qCourse courseShots ci N Hagg Hmod.
  destruct (aggregate_inv _ _ _ Hagg)
    as (d & ph & tr & cs & Hd & Hph & _ & _ & _ & _ & Hnotes).
  rewrite Hnotes, aiNotesOf_wind, windNotesOf_In.
  split.
  - intros (h & g & Hin & Hx).
    apply (perHole_spec _ _ _ Hmod Hd Hph) in Hin. destruct Hin as [-> _].
    rewrite windEntry_spec in Hx.
    destruct (_ || _) eqn:E; [|destruct Hx].
    destruct Hx as [Hx|[]]. apply windNote_inj in Hx. subst h.
    apply orb_true_iff in E. destruct E as [E|E].
    + left. now apply Nat.leb_le.
    + right. apply andb_true_iff in E. destruct E as [E1 E2].
      split; [now apply Nat.eqb_eq|now apply Nat.leb_le].
  - intro Hc. exists N, (holeShotsOf N courseShots). split.
    + apply (perHole_spec _ _ _ Hmod Hd Hph). split; [reflexivity|].
      intro Hnil. rewrite Hnil in Hc. unfold windCountOf in Hc.
      simpl in Hc. lia.
    + rewrite windEntry_spec.
      replace (_ || _) with true; [now left|].
      symmetry. apply orb_true_iff.
      destruct Hc as [Hc|[Hc1 Hc2]].
      * left. now apply Nat.leb_le.
      * right. apply andb_true_iff.
        split; [now apply Nat.eqb_eq|now apply Nat.leb_le].
Qed.

Lemma windNote_rule_witness :
  In (windNote 7) (aiNotes Sample.insights)
  <-> (3 <= windCountOf "into" (holeShotsOf 7 Sample.courseShots))%nat
      \/ (windCountOf "into" (holeShotsOf 7 Sample.courseShots) = 0%nat
          /\ (3 <= windCountOf "strong"
                     (holeShotsOf 7 Sample.courseShots))%nat).
Proof.
  apply (windNote_rule (VStr "pebble") Sample.courseShots Sample.insights 7).
  - reflexivity.
  - reflexivity.
Defined.

(** C6 as stated fails: hole 7 of the sample course has two shots into
    the wind and one in strong wind, three together, and the route emits no
    wind note for it. *)
Lemma windNote_not_combined :
  fst (getCourseIntelligence (VStr "pebble") Sample.courseWorld)
  = Insights Sample.insights
  /\ (3 <= windCountOf "into" (holeShotsOf 7 Sample.courseShots)
           + windCountOf "strong" (holeShotsOf 7 Sample.courseShots))%nat
  /\ ~ In (windNote 7) (aiNotes Sample.insights).
Proof.
  split; [reflexivity|]. split; [vm_compute; lia|].
  vm_compute. intro H.
  repeat (destruct H as [H|H]; [discriminate H|]). exact H.
Qed.

(* ================================================================== *)
(** ** Course intelligence: club insights *)

Lemma clubStat_after : forall l st,
    entryAfter
      (fun shot => pushShot shot {| cs_club := clubOf shot;
                                    cs_distances := []; cs_shots := [] |})
      pushShot l (Some st)
    = Some {| cs_club := cs_club st;
              cs_distances :=
                cs_distances st ++ filter truthy (map distance l);
              cs_shots := cs_shots st ++ l |}.
Proof.
  induction l as [|x r IH]; intro st; simpl.
  - rewrite !app_nil_r. now destruct st.
  - rewrite IH. unfold pushShot; simpl.
    destruct (truthy (distance x)); simpl; now rewrite <- !app_assoc.
Qed.

Lemma clubStats_get : forall shots clubStats k,
    collectClubStats shots = Some clubStats ->
    get k clubStats
    = match clubShotsOf k shots with
      | [] => None
      | x :: _ =>
          Some {| cs_club := clubOf x;
                  cs_distances := distanceSamples k shots;
                  cs_shots := clubShotsOf k shots |}
      end.
Proof.
  intros shots clubStats k H. unfold collectClubStats in H.
  rewrite (collect_get _ _ _ _ _ _ k H). simpl.
  unfold distanceSamples, clubShotsOf.
  destruct (filter (keyIs clubKeyOf k) shots) as [|x r]; simpl;
    [reflexivity|].
  rewrite clubStat_after. unfold pushShot; simpl.
  destruct (truthy (distance x)); reflexivity.
Qed.

Lemma clubInsightsOf_In : forall clubStats e,
    In e (clubInsightsOf clubStats)
    <-> exists stats, get (ci_club e) clubStats = Some stats
                      /\ In e (clubEntry (ci_club e) stats).
Proof.
  intros clubStats e. unfold clubInsightsOf. rewrite in_flat_map.
  split.
  - intros [k [_ He]].
    destruct (get k clubStats) as [stats|] eqn:Eg; [|destruct He].
    assert (Hk : ci_club e = k).
    { unfold clubEntry in He.
      destruct (_ =? 0)%nat; [destruct He|].
      destruct He as [<-|[]]. reflexivity. }
    subst k. exists stats. auto.
  - intros [stats [Hg He]]. exists (ci_club e). split.
    + apply keys_In, get_In_keys. congruence.
    + now rewrite Hg.
Qed.

Lemma filter_truthy_nil : forall vs,
    (forall v, In v vs -> v = VUndef \/ v = VNull \/ v = VNum 0) ->
    filter truthy vs = [].
Proof.
  induction vs as [|v r IH]; intro H; simpl; [reflexivity|].
  destruct (H v (or_introl eq_refl)) as [ -> | [ -> | -> ] ]; simpl;
    apply IH; intros u Hu; apply H; now right.
Qed.

(** C10. When the aggregation completes, the distances averaged for a
    club are those of its shots whose [distance] is truthy: an absent
    ([undefined] or [null]) distance and a recorded distance of 0 are left
    out alike.  The club's entry carries the rounded mean of these samples,
    a club with at least one sample has an entry, and a club all of whose
    shots have an absent or zero distance has none. *)
Theorem clubInsights_distance_samples : forall qCourse courseShots ci k,
    aggregate qCourse courseShots = Some ci ->
    existsb notModelled courseShots = false ->
    (forall d, In d (distanceSamples k courseShots) ->
               d <> VUndef /\ d <> VNull /\ d <> VNum 0
               /\ exists s, In s (clubShotsOf k courseShots) /\ distance s = d)
    /\ (forall e, In e (clubInsights ci) -> ci_club e = k ->
                  distanceSamples k courseShots <> []
                  /\ ci_avg e
                     = Math_round
                         (inject_Z (sumDistances
                                      (distanceSamples k courseShots))
                          / inject_Z (Z.of_nat
                                        (List.length
                                           (distanceSamples k courseShots)))))
    /\ (distanceSamples k courseShots <> [] ->
        exists e, In e (clubInsights ci) /\ ci_club e = k)
    /\ ((forall s, In s (clubShotsOf k courseShots) ->
                   distance s = VUndef \/ distance s = VNull
                   \/ distance s = VNum 0) ->
        forall e, In e (clubInsights ci) -> ci_club e <> k).
Proof.
  intros qCourse courseShots ci k Hagg _.
  destruct (aggregate_inv _ _ _ Hagg)
    as (d & ph & tr & cs & _ & _ & _ & Hcs & _ & Hci & _).
  rewrite Hci.
  assert (Hentry : forall e, In e (clubInsightsOf cs) -> ci_club e = k ->
             distanceSamples k courseShots <> []
             /\ ci_avg e
                = Math_round
                    (inject_Z (sumDistances (distanceSamples k courseShots))
                     / inject_Z (Z.of_nat
                                   (List.length
                                      (distanceSamples k courseShots))))).
  { intros e He Hk. apply clubInsightsOf_In in He.
    destruct He as [stats [Hg He]]. rewrite Hk in Hg, He.
    rewrite (clubStats_get _ _ k Hcs) in Hg.
    destruct (clubShotsOf k courseShots) as [|x r] eqn:Ecl; [discriminate|].
    injection Hg as <-. unfold clubEntry in He. simpl in He.
    destruct (List.length (distanceSamples k courseShots) =? 0)%nat eqn:El;
      [destruct He|].
    destruct He as [<-|[]]. simpl. split; [|reflexivity].
    intro Hnil. rewrite Hnil in El. discriminate. }
  split; [|split; [exact Hentry|split]].
  - intros v Hv. unfold distanceSamples in Hv.
    apply filter_In in Hv. destruct Hv as [Hin Ht].
    apply in_map_iff in Hin. destruct Hin as [s [Hs Hin]].
    split; [intro E; rewrite E in Ht; discriminate|].
    split; [intro E; rewrite E in Ht; discriminate|].
    split; [intro E; rewrite E in Ht; discriminate|].
    exists s. auto.
  - intro Hne.
    pose proof (clubStats_get _ _ k Hcs) as Hg.
    destruct (clubShotsOf k courseShots) as [|x r] eqn:Ecl.
    { unfold distanceSamples in Hne. rewrite Ecl in Hne. now elim Hne. }
    destruct (distanceSamples k courseShots) as [|v vs] eqn:Eds;
      [now elim Hne|].
    match type of Hg with _ = Some ?st => set (stats := st) in Hg end.
    assert (Hce : exists e, In e (clubEntry k stats) /\ ci_club e = k).
    { unfold clubEntry; simpl. eexists. split; [left; reflexivity|].
      reflexivity. }
    destruct Hce as [e [He Hk]]. exists e. split; [|exact Hk].
    apply clubInsightsOf_In. exists stats. rewrite Hk. auto.
  - intros Hall e He Hk.
    destruct (Hentry e He Hk) as [Hne _]. apply Hne.
    unfold distanceSamples. apply filter_truthy_nil.
    intros v Hv. apply in_map_iff in Hv. destruct Hv as [s [<- Hs]].
    now apply Hall.
Qed.

Lemma clubInsights_distance_samples_witness :
  (exists e, In e (clubInsights Sample.insights) /\ ci_club e = "7 iron")
  /\ (forall e, In e (clubInsights Sample.insights) ->
                ci_club e <> "8 iron").
Proof.
  split.
  - refine (proj1 (proj2 (proj2
      (clubInsights_distance_samples (VStr "pebble") Sample.courseShots
         Sample.insights "7 iron" _ _))) _).
    + reflexivity.
    + reflexivity.
    + discriminate.
  - refine (proj2 (proj2 (proj2
      (clubInsights_distance_samples (VStr "pebble") Sample.courseShots
         Sample.insights "8 iron" _ _))) _).
    + reflexivity.
    + reflexivity.
    + simpl. intros s [<-|[]]. right. left. reflexivity.
Defined.

(* ================================================================== *)
(** ** Insight synthesizer *)

Lemma dedupBy_In : forall (l : list value) x,
    In x (dedupBy strictEq l) <-> In x l.
Proof.
  induction l as [|y r IH]; intro x; simpl; [tauto|].
  rewrite filter_In, IH. split.
  - intros [H|[H _]]; auto.
  - intros [H|H]; [now left|].
    destruct (strictEq y x) eqn:E.
    + left. now apply strictEq_eq.
    + right. now split.
Qed.

Lemma filter_filter_and : forall {A : Type} (p q : A -> bool) l,
    filter q (filter p l) = filter (fun x => p x && q x) l.
Proof.
  intros A p q; induction l as [|x r IH]; simpl; [reflexivity|].
  destruct (p x); simpl; [|exact IH].
  destruct (q x); now rewrite IH.
Qed.




Lemma shotsOfType_spec : forall shots byShotType k,
    groupByShotType shots = Some byShotType ->
    shotsOfType byShotType k
    = filter (fun s => (shotTypeKeyOf s =? k)%string) shots.
Proof.
  intros shots d k H. unfold shotsOfType, groupByShotType in *.
  rewrite (group_get _ _ _ k H).
  now destruct (filter _ shots).
Qed.

Lemma typeInsights_In : forall shots byShotType k l s,
    groupByShotType shots = Some byShotType ->
    typeInsights byShotType k = Some l ->
    (In s l <-> exists hn g, groupOf k hn shots <> []
                             /\ groupInsights k hn (groupOf k hn shots)
                                = Some g
                             /\ In s g).
Proof.
  intros shots d k l s Hd H. unfold typeInsights in H. cbv zeta in H.
  rewrite (shotsOfType_spec _ _ k Hd) in H.
  match type of H with
  | obind ?c _ = _ => destruct c as [ls|] eqn:E; cbn [obind] in H;
                      [|discriminate]
  end.
  injection H as <-. rewrite in_concat.
  assert (Hgrp : forall hn,
             filter (fun s0 => strictEq (holeNumber s0) hn)
               (filter (fun s0 => (shotTypeKeyOf s0 =? k)%string) shots)
             = groupOf k hn shots).
  { intro hn. apply filter_filter_and. }
  split.
  - intros [g [Hg Hs]]. apply (omap_In _ _ _ E) in Hg.
    destruct Hg as [hn [Hhn Hg]]. rewrite Hgrp in Hg.
    exists hn, g. split; [|auto].
    apply dedupBy_In, in_map_iff in Hhn. destruct Hhn as [x [Hx Hin]].
    intro Hnil.
    assert (Hxin : In x (groupOf k hn shots)).
    { rewrite <- Hgrp. apply filter_In. split; [exact Hin|].
      apply strictEq_eq. exact Hx. }
    rewrite Hnil in Hxin. exact Hxin.
  - intros [hn [g [Hne [Hg Hs]]]]. exists g. split; [|exact Hs].
    apply (omap_In _ _ _ E). exists hn. split; [|now rewrite Hgrp].
    destruct (groupOf k hn shots) as [|x r] eqn:Eg; [now elim Hne|].
    assert (Hx : In x (groupOf k hn shots)) by (rewrite Eg; now left).
    rewrite <- Hgrp in Hx. apply filter_In in Hx. destruct Hx as [Hx Hh].
    apply dedupBy_In, in_map_iff. exists x. split; [|exact Hx].
    now apply strictEq_eq.
Qed.

(** The sentences of the narrative are those of the non-empty
    (shot type, hole) groups. *)
Lemma insightsOf_In : forall shots insights s,
    insightsOf shots = Some insights ->
    (In s insights <-> exists k hn g, groupOf k hn shots <> []
                                      /\ groupInsights k hn
                                           (groupOf k hn shots) = Some g
                                      /\ In s g).
Proof.
  intros shots insights s H. unfold insightsOf in H.
  destruct (groupByShotType shots) as [d|] eqn:Ed; cbn [obind] in H;
    [|discriminate].
  destruct (omap (typeInsights d) (keys d)) as [ls|] eqn:E;
    cbn [obind] in H; [|discriminate].
  injection H as <-. rewrite in_concat. split.
  - intros [l [Hl Hs]]. apply (omap_In _ _ _ E) in Hl.
    destruct Hl as [k [_ Hl]].
    apply (typeInsights_In _ _ _ _ s Ed Hl) in Hs.
    destruct Hs as [hn [g Hs]]. exists k, hn, g. exact Hs.
  - intros [k [hn [g [Hne [Hg Hs]]]]].
    assert (Hk : In k (keys d)).
    { apply keys_In. apply (collect_keys _ _ _ _ _ _ Ed).
      destruct (groupOf k hn shots) as [|x r] eqn:Eg; [now elim Hne|].
      assert (Hx : In x (groupOf k hn shots)) by (rewrite Eg; now left).
      apply filter_In in Hx. destruct Hx as [Hx Hkx].
      apply andb_true_iff in Hkx. destruct Hkx as [Hkx _].
      apply String.eqb_eq in Hkx. exists x. split; [exact Hx|].
      now rewrite Hkx. }
    pose proof (omap_defined _ _ _ E _ Hk) as Hdef.
    destruct (typeInsights d k) as [l|] eqn:El; [|congruence].
    exists l. split.
    + apply (omap_In _ _ _ E). exists k. auto.
    + apply (typeInsights_In _ _ _ _ s Ed El). exists hn, g. auto.
Qed.





(* ================================================================== *)
(** ** Remarks *)

(** Appending records one after the other keeps all of them, in append
    order, as long as the document can be written. *)
Remark addShot_sequence : forall records w,
    writable w = true ->
    storedShots
      (file (fold_left (fun w' r => snd (addShot r w')) records w))
    = storedShots (file w) ++ records.
Proof.
  induction records as [|r rs IH]; intros w Hw; simpl.
  - now rewrite app_nil_r.
  - assert (Hw' : writable (snd (addShot r w)) = true).
    { unfold addShot, bind.
      pose proof (loadShots_writable w) as Hl.
      destruct (loadShots w) as [shots w1]. simpl in Hl.
      unfold saveShots, bind, writeFile. rewrite Hl, Hw. reflexivity. }
    rewrite (IH _ Hw'), addShot_file, Hw. simpl.
    now rewrite <- app_assoc.
Qed.

(* ================================================================== *)
(** ** On well-formed records nothing throws *)

Lemma omap_total : forall {A B : Type} (f : A -> option B) l,
    (forall x, In x l -> f x <> None) -> exists ys, omap f l = Some ys.
Proof.
  intros A B f; induction l as [|x r IH]; intro H; simpl.
  - now exists [].
  - destruct (f x) as [y|] eqn:E; [|now elim (H x (or_introl eq_refl))].
    destruct IH as [ys Hys]; [intros z Hz; apply H; now right|].
    rewrite Hys. simpl. now exists (y :: ys).
Qed.

Lemma someM_total : forall {A : Type} (f : A -> option bool) l,
    (forall x, In x l -> f x <> None) -> exists b, someM f l = Some b.
Proof.
  intros A f; induction l as [|x r IH]; intro H; simpl.
  - now exists false.
  - destruct (f x) as [[|]|] eqn:E; simpl.
    + now exists true.
    + apply IH. intros z Hz. apply H. now right.
    + now elim (H x (or_introl eq_refl)).
Qed.

Lemma filterM_total : forall {A : Type} (f : A -> option bool) l,
    (forall x, In x l -> f x <> None) -> exists ys, filterM f l = Some ys.
Proof.
  intros A f; induction l as [|x r IH]; intro H; simpl.
  - now exists [].
  - destruct (f x) as [b|] eqn:E; [|now elim (H x (or_introl eq_refl))].
    destruct IH as [ys Hys]; [intros z Hz; apply H; now right|].
    rewrite Hys. simpl. eexists. reflexivity.
Qed.

Lemma collect_total : forall {A B : Type} (key : A -> option string)
    (init : A -> B) (step : A -> B -> B) l d,
    (forall x k, In x l -> key x = Some k -> isProtoName k = false) ->
    exists d', collect key init step l d = Some d'.
Proof.
  intros A B key init step; induction l as [|x r IH]; intros d H; simpl.
  - now exists d.
  - destruct (key x) as [k|] eqn:E.
    + rewrite (H x k (or_introl eq_refl) E).
      apply IH. intros y k' Hy. apply H. now right.
    + apply IH. intros y k' Hy. apply H. now right.
Qed.

Lemma includesPlus_total : forall e,
    (truthy e = true -> isStr e = true) -> includesPlus e <> None.
Proof.
  intros e H. unfold includesPlus.
  destruct (truthy e); [|discriminate].
  destruct e; try discriminate; now specialize (H eq_refl).
Qed.

Lemma contextsOf_In : forall shots c,
    In c (contextsOf shots)
    <-> exists s, In s shots /\ shotContext s = Some c.
Proof.
  intros shots c. unfold contextsOf. rewrite in_flat_map. split.
  - intros [s [Hs Hc]]. exists s. split; [exact Hs|].
    destruct (shotContext s); [|destruct Hc].
    destruct Hc as [->|[]]. reflexivity.
  - intros [s [Hs Hc]]. exists s. split; [exact Hs|].
    rewrite Hc. now left.
Qed.

Lemma elevations_total : forall shots e,
    plainElevations shots ->
    In e (filter truthy (map ctxElevation (contextsOf shots))) ->
    includesPlus e <> None.
Proof.
  intros shots e Hp He. apply filter_In in He. destruct He as [He Ht].
  apply in_map_iff in He. destruct He as [c [<- Hc]].
  apply contextsOf_In in Hc. destruct Hc as [s [Hs Hc]].
  apply includesPlus_total. intros _. exact (Hp s c Hs Hc Ht).
Qed.

Lemma contextSentences_total : forall hn g,
    plainElevations g -> contextSentences hn g <> None.
Proof.
  intros hn g Hp. unfold contextSentences. cbv zeta.
  destruct (0 <? _)%nat; [|discriminate].
  assert (Hall : forall e,
             In e (dedupBy strictEq
                     (filter truthy (map ctxElevation (contextsOf g)))) ->
             includesPlus e <> None).
  { intros e He. apply (proj1 (dedupBy_In _ _)) in He.
    now apply (elevations_total g). }
  destruct (someM_total includesPlus _ Hall) as [b Hb].
  destruct (filterM_total includesPlus _ Hall) as [ups Hups].
  destruct (0 <? _)%nat; [rewrite Hb|]; cbn [obind].
  - destruct b; [rewrite Hups|]; cbn [obind]; discriminate.
  - discriminate.
Qed.

Lemma plainElevations_filter : forall (p : Shot -> bool) shots,
    plainElevations shots -> plainElevations (filter p shots).
Proof.
  intros p shots H s c Hs. apply filter_In in Hs. destruct Hs as [Hs _].
  now apply H.
Qed.

(** [generateInsightsFromHistory] returns on well-formed records. *)
Lemma insightsOf_total : forall shots,
    plainShotTypes shots -> plainElevations shots ->
    exists insights, insightsOf shots = Some insights.
Proof.
  intros shots Ht He. unfold insightsOf.
  destruct (collect_total (fun shot => Some (shotTypeKeyOf shot))
              (fun shot => [shot]) (fun shot l => l ++ [shot]) shots [])
    as [d Hd].
  { intros x k Hx [= <-]. now apply Ht. }
  fold (groupByShotType shots) in Hd. rewrite Hd. cbn [obind].
  destruct (omap_total (typeInsights d) (keys d)) as [ls Hls].
  - intros k _. unfold typeInsights. cbv zeta.
    rewrite (shotsOfType_spec _ _ k Hd).
    match goal with
    | |- obind (omap ?f ?l) _ <> None =>
        destruct (omap_total f l) as [ys Hys]
    end.
    + intros hn _. unfold groupInsights.
      destruct (contextSentences hn _) as [ctx|] eqn:Ec;
        [discriminate|].
      exfalso. revert Ec. apply contextSentences_total.
      now apply plainElevations_filter, plainElevations_filter.
    + rewrite Hys. discriminate.
  - rewrite Hls. cbn [obind]. eexists. reflexivity.
Qed.

Lemma protoName_not_numeral : forall z, isProtoName (numToString z) = false.
Proof.
  intro z. destruct (isProtoName (numToString z)) eqn:E; [|reflexivity].
  unfold isProtoName in E. apply existsb_exists in E.
  destruct E as [n [Hn Hk]]. apply String.eqb_eq in Hk.
  pose proof (parseInt_numToString z) as Hp. rewrite Hk in Hp.
  simpl in Hn.
  repeat (destruct Hn as [<-|Hn]; [discriminate Hp|]). destruct Hn.
Qed.

(** The aggregation completes on well-formed records. *)
Lemma aggregate_total : forall qCourse courseShots,
    numericHoles courseShots -> plainClubs courseShots ->
    plainElevations courseShots ->
    exists ci, aggregate qCourse courseShots = Some ci.
Proof.
  intros qCourse shots Hn Hc He. unfold aggregate.
  destruct (collect_total (fun shot => Some (holeKeyOf shot))
              (fun shot => [shot]) (fun shot l => l ++ [shot]) shots [])
    as [d Hd].
  { intros x k Hx [= <-]. destruct (Hn x Hx) as [z Hz].
    unfold holeKeyOf. rewrite Hz. apply protoName_not_numeral. }
  fold (groupByHole shots) in Hd. rewrite Hd. cbn [obind].
  assert (Hkeys : forall k, In k (keys d) -> exists z, k = numToString z).
  { intros k Hk. apply keys_In in Hk.
    apply (collect_keys _ _ _ _ _ _ Hd) in Hk.
    destruct Hk as [x [Hx [= <-]]]. destruct (Hn x Hx) as [z Hz].
    exists z. unfold holeKeyOf. now rewrite Hz. }
  destruct (omap_total parseInt (keys d)) as [holes Hholes].
  { intros k Hk. destruct (Hkeys k Hk) as [z ->].
    rewrite parseInt_numToString. discriminate. }
  destruct (omap_total
              (fun hole => obind (shotsOfHole d hole)
                             (fun g => Some (hole, g))) holes)
    as [ph Hph].
  { intros hole Hh. apply (omap_In _ _ _ Hholes) in Hh.
    destruct Hh as [k [Hk Hp]]. destruct (Hkeys k Hk) as [z ->].
    rewrite parseInt_numToString in Hp. injection Hp as <-.
    unfold shotsOfHole.
    apply keys_In, get_In_keys in Hk.
    destruct (get (numToString z) d); [discriminate|now elim Hk]. }
  assert (Hper : perHoleOf d = Some ph).
  { unfold perHoleOf. rewrite Hholes. exact Hph. }
  rewrite Hper. cbn [obind].
  assert (Hsub : forall h g, In (h, g) ph -> forall s, In s g -> In s shots).
  { intros h g Hin s Hs. apply (omap_In _ _ _ Hph) in Hin.
    destruct Hin as [hole [_ Hg]]. unfold shotsOfHole in Hg.
    destruct (get (numToString hole) d) as [g'|] eqn:Eg;
      cbn [obind] in Hg; [|discriminate].
    injection Hg as <- <-. unfold groupByHole in Hd.
    rewrite (group_get _ _ _ _ Hd) in Eg.
    destruct (filter _ shots) as [|x r] eqn:Ef; [discriminate|].
    injection Eg as <-. rewrite <- Ef in Hs.
    apply filter_In in Hs. tauto. }
  destruct (omap_total (fun hs => trickyEntry (fst hs) (snd hs)) ph)
    as [tr Htr].
  { intros [h g] Hin. simpl. unfold trickyEntry. cbv zeta.
    destruct (someM_total includesPlus
                (filter truthy (map ctxElevation (contextsOf g))))
      as [b Hb].
    - intros e Hin'. apply (elevations_total g); [|exact Hin'].
      intros s c Hs. apply He. exact (Hsub h g Hin s Hs).
    - rewrite Hb. cbn [obind]. destruct (_ || _); discriminate. }
  unfold trickyHolesOf. rewrite Htr. cbn [obind].
  destruct (collect_total clubKeyOf
              (fun shot => pushShot shot {| cs_club := clubOf shot;
                                            cs_distances := [];
                                            cs_shots := [] |})
              pushShot shots []) as [cs Hcs].
  { intros x k Hx Hk. exact (Hc x k Hx Hk). }
  fold (collectClubStats shots) in Hcs. rewrite Hcs. cbn [obind].
  eexists. reflexivity.
Qed.

(* ================================================================== *)
(** ** Further properties of the record store *)

Lemma addShot_writable : forall r w,
    writable (snd (addShot r w)) = writable w.
Proof.
  intros r w. unfold addShot, bind.
  pose proof (loadShots_writable w) as Hl.
  destruct (loadShots w) as [shots w1]. simpl in Hl.
  unfold saveShots, bind, writeFile.
  destruct (writable w1) eqn:E; simpl; congruence.
Qed.

(** Appending records one after the other and reading the store back
    gives the records that were there followed by the appended ones, in
    append order. *)
Theorem append_read_round_trip : forall records w,
    writable w = true ->
    fst (loadShots (fold_left (fun w' r => snd (addShot r w')) records w))
    = storedShots (file w) ++ records.
Proof.
  intros records w Hw. rewrite loadShots_shots.
  now apply addShot_sequence.
Qed.

Lemma append_read_round_trip_witness :
  fst (loadShots (fold_left (fun w' r => snd (addShot r w'))
                    [Sample.early; Sample.late] Sample.world1))
  = [Sample.s1; Sample.early; Sample.late].
Proof.
  apply (append_read_round_trip [Sample.early; Sample.late] Sample.world1).
  reflexivity.
Defined.

(** The first append creates the document; an append to a document that
    cannot be read logs the read error and replaces the document by one
    that holds the new record alone. *)
Theorem addShot_without_readable_document : forall r c,
    addShot r {| file := Missing; writable := true; console := c |}
    = (tt, {| file := Stored [r]; writable := true; console := c |})
    /\ addShot r {| file := Corrupt; writable := true; console := c |}
       = (tt, {| file := Stored [r]; writable := true;
                 console := c ++ [LogError "Error loading shots:"] |}).
Proof. intros r c. split; reflexivity. Qed.

Lemma loadShots_console : forall w,
    console (snd (loadShots w)) = console w
    \/ console (snd (loadShots w))
       = console w ++ [LogError "Error loading shots:"].
Proof. intros [[| |l] wr c]; simpl; auto. Qed.



Lemma find_some_iff : forall (p : Shot -> bool) l,
    find p l <> None <-> exists s, In s l /\ p s = true.
Proof.
  intros p l; induction l as [|x r IH]; simpl.
  - split; [congruence|intros [s [[] _]]].
  - destruct (p x) eqn:E.
    + split; [intros _; exists x; auto|discriminate].
    + rewrite IH. split.
      * intros [s [Hs Hp]]. exists s. auto.
      * intros [s [[<-|Hs] Hp]]; [congruence|exists s; auto].
Qed.

(** [updateShotFeedback] answers whether a record with the id was found,
    not whether the change was saved: it returns [true] exactly when some
    stored record has the id, also when the document cannot be written. *)
Theorem updateShotFeedback_reports_found : forall shotId feedback now w,
    fst (updateShotFeedback shotId feedback now w) = true
    <-> exists s, In s (storedShots (file w)) /\ id s = shotId.
Proof.
  intros shotId feedback now w. unfold updateShotFeedback, bind.
  pose proof (loadShots_shots w) as Hs.
  destruct (loadShots w) as [shots w1]. simpl in Hs. subst shots.
  pose proof (find_some_iff (fun s => strictEq (id s) shotId)
                (storedShots (file w))) as Hf.
  destruct (find _ _) as [x|].
  - destruct (saveShots _ w1) as [ok w2]. simpl.
    split; [intros _|reflexivity].
    destruct (proj1 Hf) as [s [Hin Hid]]; [discriminate|].
    exists s. split; [exact Hin|now apply strictEq_eq].
  - simpl. split; [discriminate|].
    intros [s [Hin Hid]]. exfalso. apply (proj2 Hf); [|reflexivity].
    exists s. split; [exact Hin|now apply strictEq_eq].
Qed.

Lemma updateFirst_split : forall (p : Shot -> bool) f pre x post,
    (forall s, In s pre -> p s = false) -> p x = true ->
    updateFirst p f (pre ++ x :: post) = pre ++ f x :: post.
Proof.
  intros p f pre x post Hpre Hx; induction pre as [|y r IH]; simpl.
  - now rewrite Hx.
  - rewrite (Hpre y (or_introl eq_refl)). f_equal.
    apply IH. intros s Hs. apply Hpre. now right.
Qed.

Lemma find_split : forall (p : Shot -> bool) pre x post,
    (forall s, In s pre -> p s = false) -> p x = true ->
    find p (pre ++ x :: post) = Some x.
Proof.
  intros p pre x post Hpre Hx; induction pre as [|y r IH]; simpl.
  - now rewrite Hx.
  - rewrite (Hpre y (or_introl eq_refl)).
    apply IH. intros s Hs. apply Hpre. now right.
Qed.

Lemma updateShotFeedback_first : forall shotId feedback now w pre x post,
    writable w = true ->
    storedShots (file w) = pre ++ x :: post ->
    id x = shotId ->
    (forall s, In s pre -> id s <> shotId) ->
    file (snd (updateShotFeedback shotId feedback now w))
    = Stored (pre ++ setFeedback feedback (VStr now) x :: post).
Proof.
  intros shotId feedback now w pre x post Hw Hst Hx Hpre.
  unfold updateShotFeedback, bind.
  pose proof (loadShots_shots w) as Hs.
  pose proof (loadShots_writable w) as Hlw.
  destruct (loadShots w) as [shots w1]. simpl in Hs, Hlw. subst shots.
  rewrite Hst.
  assert (Hp : forall s, In s pre -> strictEq (id s) shotId = false)
    by (intros s Hin; apply strictEq_neq; now apply Hpre).
  assert (Hpx : strictEq (id x) shotId = true) by now apply strictEq_eq.
  rewrite (find_split _ pre x post Hp Hpx).
  rewrite (updateFirst_split _ _ pre x post Hp Hpx).
  match goal with
  | |- context [saveShots ?l w1] =>
      pose proof (saveShots_file l w1) as Hsave;
      destruct (saveShots l w1) as [ok w2]
  end.
  simpl in *. now rewrite Hsave, Hlw, Hw.
Qed.

(** A feedback request that names a stored shot changes the first record
    with that id and nothing else: the records before and after it stay
    as they are and in place, the record itself gets the verdict and the
    time of the request, it can be found again by its id, and the route
    answers [{ ok: true }]. *)
Theorem submitFeedback_updates_first_match :
  forall b now nowMs rnd w pre x post,
    writable w = true ->
    truthy (fb_shotId b) = true ->
    storedShots (file w) = pre ++ x :: post ->
    id x = fb_shotId b ->
    (forall s, In s pre -> id s <> fb_shotId b) ->
    fst (submitFeedback b now nowMs rnd w) = RespOk
    /\ storedShots (file (snd (submitFeedback b now nowMs rnd w)))
       = pre ++ setFeedback (fb_feedback b) (VStr now) x :: post
    /\ option_map userFeedback
         (find (fun s => strictEq (id s) (fb_shotId b))
            (storedShots (file (snd (submitFeedback b now nowMs rnd w)))))
       = Some (fb_feedback b).
Proof.
  intros b now nowMs rnd w pre x post Hw Ht Hst Hx Hpre.
  rewrite submitFeedback_after_log, Ht.
  remember (snd (log (LogInfo "Caddie feedback received:") w)) as w1 eqn:Ew.
  assert (Hf1 : file w1 = file w) by (subst w1; reflexivity).
  assert (Hw1 : writable w1 = true) by (subst w1; exact Hw).
  unfold bind.
  pose proof (updateShotFeedback_first (fb_shotId b) (fb_feedback b) now w1
                pre x post Hw1) as Hu.
  rewrite Hf1 in Hu. specialize (Hu Hst Hx Hpre).
  destruct (updateShotFeedback (fb_shotId b) (fb_feedback b) now w1)
    as [r w2].
  simpl in *. rewrite Hu. simpl.
  split; [reflexivity|]. split; [reflexivity|].
  rewrite find_split.
  - reflexivity.
  - intros s Hs. apply strictEq_neq. now apply Hpre.
  - simpl. now apply strictEq_eq.
Qed.

Lemma submitFeedback_updates_first_match_witness :
  fst (submitFeedback Sample.helpfulBody "2026-01-01T00:00:00.000Z"
         1767225600000 "k3j9x0q2a" Sample.world1) = RespOk
  /\ storedShots
       (file (snd (submitFeedback Sample.helpfulBody
                     "2026-01-01T00:00:00.000Z" 1767225600000 "k3j9x0q2a"
                     Sample.world1)))
     = [] ++ setFeedback Sample.helpful (VStr "2026-01-01T00:00:00.000Z")
               Sample.s1 :: []
  /\ option_map userFeedback
       (find (fun s => strictEq (id s) (VStr "shot-1"))
          (storedShots
             (file (snd (submitFeedback Sample.helpfulBody
                           "2026-01-01T00:00:00.000Z" 1767225600000
                           "k3j9x0q2a" Sample.world1)))))
     = Some Sample.helpful.
Proof.
  apply (submitFeedback_updates_first_match Sample.helpfulBody
           "2026-01-01T00:00:00.000Z" 1767225600000 "k3j9x0q2a"
           Sample.world1 [] Sample.s1 []).
  - reflexivity.
  - reflexivity.
  - reflexivity.
  - reflexivity.
  - intros s [].
Defined.

Lemma updateFirst_ids : forall p feedback now l,
    map id (updateFirst p (setFeedback feedback now) l) = map id l.
Proof.
  intros p feedback now; induction l as [|x r IH]; simpl; [reflexivity|].
  destruct (p x); simpl; [reflexivity|now rewrite IH].
Qed.

(** A feedback request without a shot id appends one record, after the
    records that were there: it carries the verdict, the course and the
    hole of the request, a fresh ["feedback-..."] id, and neither a
    recommendation nor a shot context. *)
Theorem submitFeedback_without_shotId_appends :
  forall b now nowMs rnd w,
    writable w = true ->
    truthy (fb_shotId b) = false ->
    fst (submitFeedback b now nowMs rnd w) = RespOk
    /\ exists r,
         storedShots (file (snd (submitFeedback b now nowMs rnd w)))
         = storedShots (file w) ++ [r]
         /\ userFeedback r = fb_feedback b
         /\ courseId r = fb_courseId b
         /\ holeNumber r = fb_hole b
         /\ id r = VStr ("feedback-" ++ numToString nowMs ++ "-" ++ rnd)%string
         /\ recommendation r = None
         /\ shotContext r = None.
Proof.
  intros b now nowMs rnd w Hw Ht.
  rewrite submitFeedback_after_log, Ht.
  remember (snd (log (LogInfo "Caddie feedback received:") w)) as w1 eqn:Ew.
  assert (Hf1 : file w1 = file w) by (subst w1; reflexivity).
  assert (Hw1 : writable w1 = true) by (subst w1; exact Hw).
  unfold bind.
  pose proof (addShot_file (feedbackData b now nowMs rnd) w1) as Ha.
  destruct (addShot (feedbackData b now nowMs rnd) w1) as [u w2].
  simpl in *. split; [reflexivity|].
  exists (feedbackData b now nowMs rnd).
  rewrite Ha, Hw1, Hf1. simpl. repeat split; reflexivity.
Qed.

Lemma submitFeedback_without_shotId_appends_witness :
  fst (submitFeedback
         {| fb_courseId := VStr "pebble"; fb_hole := VNum 7;
            fb_suggestedClub := VStr "7 iron"; fb_feedback := Sample.off;
            fb_shotId := VUndef |}
         "2026-01-01T00:00:00.000Z" 1767225600000 "k3j9x0q2a"
         Sample.world1) = RespOk
  /\ exists r,
       storedShots
         (file (snd (submitFeedback
                       {| fb_courseId := VStr "pebble"; fb_hole := VNum 7;
                          fb_suggestedClub := VStr "7 iron";
                          fb_feedback := Sample.off; fb_shotId := VUndef |}
                       "2026-01-01T00:00:00.000Z" 1767225600000 "k3j9x0q2a"
                       Sample.world1)))
       = storedShots (file Sample.world1) ++ [r]
       /\ userFeedback r = Sample.off
       /\ courseId r = VStr "pebble"
       /\ holeNumber r = VNum 7
       /\ id r = VStr ("feedback-" ++ numToString 1767225600000 ++ "-"
                       ++ "k3j9x0q2a")%string
       /\ recommendation r = None
       /\ shotContext r = None.
Proof.
  apply (submitFeedback_without_shotId_appends
           {| fb_courseId := VStr "pebble"; fb_hole := VNum 7;
              fb_suggestedClub := VStr "7 iron"; fb_feedback := Sample.off;
              fb_shotId := VUndef |}
           "2026-01-01T00:00:00.000Z" 1767225600000 "k3j9x0q2a"
           Sample.world1).
  - reflexivity.
  - reflexivity.
Defined.

(** The ids of the store stay pairwise distinct: a capture with an id
    that is not in the store keeps them distinct, and a feedback request
    that names a shot id leaves the list of ids as it is. *)
Theorem store_ids_stay_distinct : forall w,
    NoDup (map id (storedShots (file w))) ->
    (forall shotId md rec ctx now url,
        ~ In (VStr shotId) (map id (storedShots (file w))) ->
        NoDup (map id (storedShots
                         (file (snd (appendShot shotId md rec ctx now url
                                       w))))))
    /\ (forall b now nowMs rnd,
           truthy (fb_shotId b) = true ->
           map id (storedShots (file (snd (submitFeedback b now nowMs rnd w))))
           = map id (storedShots (file w))).
Proof.
  intros w Hnd. split.
  - intros shotId md rec ctx now url Hfresh.
    unfold appendShot, bind.
    pose proof (addShot_file (shotData shotId md rec ctx now url) w) as Ha.
    destruct (addShot (shotData shotId md rec ctx now url) w) as [u w1].
    simpl in *. rewrite Ha.
    destruct (writable w); [|exact Hnd].
    simpl. rewrite map_app. simpl.
    apply NoDup_app_remove_l with (l := []).
    simpl. apply Permutation_NoDup with (l := VStr shotId :: map id (storedShots (file w))).
    + apply Permutation_cons_append.
    + constructor; assumption.
  - intros b now nowMs rnd Ht.
    rewrite submitFeedback_after_log, Ht.
    remember (snd (log (LogInfo "Caddie feedback received:") w)) as w1 eqn:Ew.
    assert (Hf1 : file w1 = file w) by (subst w1; reflexivity).
    unfold bind.
    pose proof (updateShotFeedback_file (fb_shotId b) (fb_feedback b) now w1)
      as Hu.
    destruct (updateShotFeedback (fb_shotId b) (fb_feedback b) now w1)
      as [r w2].
    simpl in *. destruct Hu as [Hu|Hu]; rewrite Hu.
    + now rewrite Hf1.
    + simpl. rewrite updateFirst_ids. now rewrite Hf1.
Qed.

Lemma store_ids_stay_distinct_witness :
  (forall shotId md rec ctx now url,
      ~ In (VStr shotId) (map id (storedShots (file Sample.world3))) ->
      NoDup (map id (storedShots
                       (file (snd (appendShot shotId md rec ctx now url
                                     Sample.world3))))))
  /\ (forall b now nowMs rnd,
         truthy (fb_shotId b) = true ->
         map id (storedShots
                   (file (snd (submitFeedback b now nowMs rnd Sample.world3))))
         = map id (storedShots (file Sample.world3))).
Proof.
  apply (store_ids_stay_distinct Sample.world3).
  simpl. repeat constructor; simpl; intuition discriminate.
Defined.

(* ================================================================== *)
(** ** Further properties of the sort and of the relevance matcher *)

Section SortStable.

Context {A : Type}.
Variable cmp : A -> A -> Z.
Variable key : A -> Z.



(** Selecting from a sorted list and sorting the selection agree. *)
Lemma insertBy_filter : forall (q : A -> bool) x l,
    (forall y, In y l -> cmp x y = key y - key x) ->
    StronglySorted (fun a b => key b <= key a) l ->
    filter q (insertBy cmp x l)
    = if q x then insertBy cmp x (filter q l) else filter q l.
Proof.
  intros q x l; induction l as [|y r IH]; intros Hc Hs.
  - simpl. destruct (q x); reflexivity.
  - pose proof (Hc y (or_introl eq_refl)) as Hy.
    inversion Hs as [|? ? Hr Hall]; subst.
    rewrite Forall_forall in Hall.
    cbn [insertBy]. destruct (cmp x y <=? 0) eqn:E.
    + apply Z.leb_le in E. cbn [filter].
      destruct (q x) eqn:Eqx; [|reflexivity].
      destruct (q y) eqn:Eqy.
      * cbn [insertBy]. apply Z.leb_le in E. now rewrite E.
      * (* every later element is no newer than [x] either *)
        clear IH. induction r as [|z r' IHr]; [reflexivity|].
        cbn [filter]. destruct (q z) eqn:Eqz.
        -- cbn [insertBy].
           assert (Hz : (cmp x z <=? 0) = true).
           { apply Z.leb_le. rewrite (Hc z) by (right; now left).
             specialize (Hall z (or_introl eq_refl)). simpl in Hall. lia. }
           now rewrite Hz.
        -- apply IHr.
           ++ intros u [<-|Hu]; apply Hc; [now left|right; now right].
           ++ inversion Hr; subst. constructor; [assumption|].
              apply Forall_forall. intros u Hu. apply Hall. now right.
           ++ inversion Hr; assumption.
           ++ intros u Hu. apply Hall. now right.
    + apply Z.leb_gt in E. cbn [filter].
      rewrite IH by (try assumption; intros z Hz; apply Hc; now right).
      destruct (q x) eqn:Eqx; destruct (q y) eqn:Eqy; try reflexivity.
      cbn [insertBy]. apply Z.leb_gt in E. now rewrite E.
Qed.

Lemma sortBy_filter : forall (q : A -> bool) l,
    (forall x y, In x l -> In y l -> cmp x y = key y - key x) ->
    filter q (sortBy cmp l) = sortBy cmp (filter q l).
Proof.
  intros q; induction l as [|x r IH]; intro Hc; [reflexivity|].
  assert (Hr : forall a b, In a r -> In b r -> cmp a b = key b - key a)
    by (intros a b Ha Hb; apply Hc; now right).
  cbn [sortBy]. rewrite insertBy_filter.
  - cbn [filter]. destruct (q x); rewrite IH by exact Hr; reflexivity.
  - intros y Hy. apply (proj1 (sortBy_In cmp y r)) in Hy.
    apply Hc; [now left|now right].
  - now apply sortBy_desc.
Qed.

End SortStable.

Lemma relevant_filters : forall qCourse qHole qShotType qClub s,
    relevant qCourse qHole qShotType qClub s
    = relevant qCourse qHole VUndef VUndef s
      && passesFilters qShotType qClub s.
Proof.
  intros qCourse qHole qShotType qClub s. unfold relevant, passesFilters.
  simpl.
  destruct (strictEq (courseId s) qCourse); simpl; [|reflexivity].
  destruct (strictEq (holeNumber s) qHole); simpl; [|reflexivity].
  destruct (truthy qShotType); simpl.
  - destruct (strictEq (shotType s) qShotType); simpl; [|reflexivity].
    destruct (truthy qClub); simpl; [|reflexivity].
    destruct (strictEq (recClub s) qClub); reflexivity.
  - destruct (truthy qClub); simpl; [|reflexivity].
    destruct (strictEq (recClub s) qClub); reflexivity.
Qed.

(** The optional filters select from the result of the unfiltered query
    without reordering it: asking for a shot type and a club gives the
    records of the hole's history that pass the two filters, in the order
    they have in that history (for a hole whose records carry valid
    dates). *)
Theorem findRelevantShots_filters_select :
  forall Date_parse qCourse qHole qShotType qClub w,
    (forall s, In s (matchingShots qCourse qHole VUndef VUndef w) ->
               shotTime Date_parse s <> None) ->
    fst (findRelevantShots Date_parse qCourse qHole qShotType qClub w)
    = filter (passesFilters qShotType qClub)
        (fst (findRelevantShots Date_parse qCourse qHole VUndef VUndef w)).
Proof.
  intros Date_parse qCourse qHole qShotType qClub w Hvalid.
  rewrite !findRelevantShots_result.
  rewrite (sortBy_filter _ (timeKey Date_parse)).
  - f_equal. unfold matchingShots. rewrite filter_filter_and.
    apply filter_ext. intro s. apply relevant_filters.
  - intros x y Hx Hy. apply byRecency_key; auto.
Qed.

Lemma findRelevantShots_filters_select_witness :
  fst (findRelevantShots Sample.parseDate (VStr "pebble") (VNum 7)
         (VStr "approach") (VStr "7 iron") Sample.world3)
  = filter (passesFilters (VStr "approach") (VStr "7 iron"))
      (fst (findRelevantShots Sample.parseDate (VStr "pebble") (VNum 7)
              VUndef VUndef Sample.world3)).
Proof.
  apply (findRelevantShots_filters_select Sample.parseDate (VStr "pebble")
           (VNum 7) (VStr "approach") (VStr "7 iron") Sample.world3).
  simpl. intros s [<-|[<-|[<-|[]]]]; discriminate.
Defined.



(* ================================================================== *)
(** ** Further properties of the insight synthesizer *)

Lemma includesPlus_isUphill : forall e b,
    includesPlus e = Some b -> b = isUphill e.
Proof.
  intros e b H. unfold includesPlus in H.
  destruct e as [| |[|]|z|s]; simpl in *; try congruence.
  - destruct (negb (z =? 0)%Z); congruence.
  - destruct (negb (s =? "")%string) eqn:E; [congruence|].
    apply negb_false_iff, String.eqb_eq in E. subst s. simpl. congruence.
Qed.

Lemma someM_existsb : forall l b,
    someM includesPlus l = Some b -> b = existsb isUphill l.
Proof.
  induction l as [|e r IH]; intros b H; simpl in H.
  - simpl. congruence.
  - destruct (includesPlus e) as [c|] eqn:E; simpl in H; [|discriminate].
    apply includesPlus_isUphill in E. simpl. rewrite <- E.
    destruct c; simpl; [congruence|now apply IH].
Qed.

Lemma filterM_filter : forall l ys,
    filterM includesPlus l = Some ys -> ys = filter isUphill l.
Proof.
  induction l as [|e r IH]; intros ys H; simpl in H.
  - simpl. congruence.
  - destruct (includesPlus e) as [c|] eqn:E; simpl in H; [|discriminate].
    destruct (filterM includesPlus r) as [zs|]; simpl in H; [|discriminate].
    apply includesPlus_isUphill in E. simpl. rewrite <- E.
    injection H as <-. rewrite (IH zs eq_refl). reflexivity.
Qed.

Lemma existsb_filter_nonempty : forall {A : Type} (p : A -> bool) l,
    existsb p l = (0 <? List.length (filter p l))%nat.
Proof.
  intros A p; induction l as [|x r IH]; simpl; [reflexivity|].
  destruct (p x); simpl; [reflexivity|exact IH].
Qed.

Lemma rough_surface_listed : forall g,
    existsb (strictEq (VStr "rough"))
      (dedupBy strictEq (filter truthy (map surface (contextsOf g))))
    = (0 <? roughCount g)%nat.
Proof.
  intro g. unfold roughCount.
  rewrite <- existsb_filter_nonempty.
  apply eq_true_iff_eq. rewrite !existsb_exists. split.
  - intros [v [Hv He]]. apply strictEq_eq in He. subst v.
    apply (proj1 (dedupBy_In _ _)), filter_In in Hv. destruct Hv as [Hv _].
    apply in_map_iff in Hv. destruct Hv as [c [Hc Hin]].
    exists c. split; [exact Hin|]. unfold isRough. now apply strictEq_eq.
  - intros [c [Hin Hc]]. unfold isRough in Hc. apply strictEq_eq in Hc.
    exists (VStr "rough"). split; [|apply strictEq_refl].
    apply dedupBy_In, filter_In. split; [|reflexivity].
    apply in_map_iff. exists c. auto.
Qed.

(** What the context block of one group pushes. *)
Lemma contextSentences_spec : forall hn g l,
    contextSentences hn g = Some l ->
    l = (if (0 <? distinctUphill g)%nat
         then [UphillElevation hn (distinctUphill g)] else [])
        ++ (if (0 <? roughCount g)%nat && (2 <=? List.length g)%nat
            then [RoughConditions hn (roughCount g)] else []).
Proof.
  intros hn g l H. unfold contextSentences in H. cbv zeta in H.
  unfold distinctUphill.
  set (elevs := dedupBy strictEq
                  (filter truthy (map ctxElevation (contextsOf g)))) in *.
  rewrite <- existsb_filter_nonempty.
  destruct (0 <? List.length (contextsOf g))%nat eqn:Ec.
  - assert (Hup : forall b,
               (if (0 <? List.length elevs)%nat
                then someM includesPlus elevs else Some false) = Some b ->
               b = existsb isUphill elevs).
    { intros b Hb. destruct elevs as [|e r] eqn:Ee.
      - simpl in Hb. simpl. congruence.
      - cbn [List.length Nat.ltb Nat.leb] in Hb. now apply someM_existsb. }
    match type of H with
    | obind ?c _ = _ => destruct c as [up|] eqn:Eu; cbn [obind] in H;
                        [|discriminate]
    end.
    specialize (Hup up eq_refl). subst up.
    rewrite rough_surface_listed in H.
    destruct (existsb isUphill elevs).
    + destruct (filterM includesPlus elevs) as [ups|] eqn:Ef;
        cbn [obind] in H; [|discriminate].
      apply filterM_filter in Ef. subst ups. injection H as <-. reflexivity.
    + cbn [obind] in H. injection H as <-. reflexivity.
  - injection H as <-.
    assert (Hnil : contextsOf g = []).
    { destruct (contextsOf g); [reflexivity|discriminate]. }
    unfold roughCount, elevs. rewrite Hnil. reflexivity.
Qed.

Lemma groupInsights_hole : forall k hn g l s,
    groupInsights k hn g = Some l -> In s l -> sentenceHole s = hn.
Proof.
  intros k hn g l s H Hin. unfold groupInsights in H.
  destruct (contextSentences hn g) as [ctx|] eqn:Ec; cbn [obind] in H;
    [|discriminate].
  injection H as <-. apply in_app_iff in Hin. destruct Hin as [Hin|Hin].
  - unfold feedbackSentence in Hin. cbv zeta in Hin.
    destruct (0 <? _)%nat; [|destruct Hin].
    destruct (_ && _); [destruct Hin as [<-|[]]; reflexivity|].
    destruct (_ && _); [|destruct Hin].
    destruct Hin as [<-|[]]; reflexivity.
  - rewrite (contextSentences_spec _ _ _ Ec) in Hin.
    apply in_app_iff in Hin.
    destruct Hin as [Hin|Hin];
      match type of Hin with
      | In _ (if ?c then _ else _) => destruct c
      end; try destruct Hin as [<-|[]]; try reflexivity; destruct Hin.
Qed.






(** Asking for the history of a hole and turning it into a narrative
    gives sentences about that hole only. *)
Theorem insights_speak_of_the_queried_hole :
  forall Date_parse qCourse qHole qShotType qClub w insights,
    insightsOf
      (fst (findRelevantShots Date_parse qCourse qHole qShotType qClub w))
    = Some insights ->
    forall s, In s insights -> sentenceHole s = qHole.
Proof.
  intros Date_parse qCourse qHole qShotType qClub w insights Hins s Hs.
  apply (insightsOf_In _ _ _ Hins) in Hs.
  destruct Hs as (k & hn & l & Hne & Hl & Hs).
  rewrite (groupInsights_hole _ _ _ _ _ Hl Hs).
  destruct (groupOf k hn _) as [|x r] eqn:Eg; [now elim Hne|].
  assert (Hx : In x (groupOf k hn
                       (fst (findRelevantShots Date_parse qCourse qHole
                               qShotType qClub w))))
    by (rewrite Eg; now left).
  apply filter_In in Hx. destruct Hx as [Hx Hkx].
  apply andb_true_iff in Hkx. destruct Hkx as [_ Hhx].
  apply strictEq_eq in Hhx.
  rewrite findRelevantShots_result in Hx.
  apply (proj1 (sortBy_In _ _ _)) in Hx.
  apply filter_In in Hx. destruct Hx as [_ Hrel].
  apply relevant_iff in Hrel. destruct Hrel as (_ & Hh & _). congruence.
Qed.

Lemma insights_speak_of_the_queried_hole_witness :
  Forall (fun s => sentenceHole s = VNum 7)
    (match insightsOf
             (fst (findRelevantShots Sample.parseDate (VStr "pebble")
                     (VNum 7) VUndef VUndef Sample.courseWorld)) with
     | Some l => l
     | None => []
     end).
Proof.
  apply Forall_forall.
  apply (insights_speak_of_the_queried_hole Sample.parseDate (VStr "pebble")
           (VNum 7) VUndef VUndef Sample.courseWorld).
  reflexivity.
Defined.

(* ================================================================== *)
(** ** The memory lookup of the completion route *)

(** Without history the prompt goes out as it came: when the request
    names no course or no hole, the store is not even read; when no stored
    record is of that course and hole, the system message is the one of
    the request. *)
Theorem systemMessage_unchanged_without_history :
  forall Date_parse system qCourse qHole qShotType qClub w,
    truthy qCourse && truthy qHole = false
    \/ (forall s, In s (storedShots (file w)) ->
                  courseId s = qCourse -> holeNumber s <> qHole) ->
    fst (systemMessage Date_parse system qCourse qHole qShotType qClub w)
    = Some system
    /\ (truthy qCourse && truthy qHole = false ->
        snd (systemMessage Date_parse system qCourse qHole qShotType qClub w)
        = w).
Proof.
  intros Date_parse system qCourse qHole qShotType qClub w H.
  unfold systemMessage, memoryInsights, bind.
  destruct (truthy qCourse && truthy qHole) eqn:Et.
  - destruct H as [H|H]; [discriminate|].
    pose proof (findRelevantShots_result Date_parse qCourse qHole
                  qShotType qClub w) as Hr.
    destruct (findRelevantShots Date_parse qCourse qHole qShotType qClub w)
      as [rel w1]. simpl in Hr.
    assert (Hnil : rel = []).
    { destruct rel as [|x r]; [reflexivity|]. exfalso.
      assert (Hx : In x (x :: r)) by now left.
      rewrite Hr in Hx. apply (proj1 (sortBy_In _ _ _)) in Hx.
      apply filter_In in Hx. destruct Hx as [Hin Hrel].
      apply relevant_iff in Hrel. destruct Hrel as (Hc & Hh & _).
      exact (H x Hin Hc Hh). }
    subst rel. rewrite Hnil. simpl. split; [reflexivity|discriminate].
  - simpl. split; [reflexivity|reflexivity].
Qed.

Lemma systemMessage_unchanged_without_history_witness :
  fst (systemMessage Sample.parseDate (VStr "You are a caddie.")
         (VStr "pebble") (VNum 8) VUndef VUndef Sample.courseWorld)
  = Some (VStr "You are a caddie.")
  /\ (truthy (VStr "pebble") && truthy (VNum 8) = false ->
      snd (systemMessage Sample.parseDate (VStr "You are a caddie.")
             (VStr "pebble") (VNum 8) VUndef VUndef Sample.courseWorld)
      = Sample.courseWorld).
Proof.
  apply (systemMessage_unchanged_without_history Sample.parseDate
           (VStr "You are a caddie.") (VStr "pebble") (VNum 8) VUndef VUndef
           Sample.courseWorld).
  right. simpl.
  intros s [<-|[<-|[<-|[<-|[<-|[]]]]]] _; discriminate.
Defined.

(* ================================================================== *)
(** ** Reading never writes *)

Lemma findRelevantShots_file :
  forall Date_parse qCourse qHole qShotType qClub w,
    file (snd (findRelevantShots Date_parse qCourse qHole qShotType qClub w))
    = file w.
Proof.
  intros. unfold findRelevantShots, bind.
  pose proof (loadShots_file w) as Hf.
  destruct (loadShots w) as [shots w1]. exact Hf.
Qed.

(** The matcher, the course-intelligence route and the memory lookup of
    the completion route leave [shots.json] as it is, whatever it holds. *)
Theorem reads_leave_the_document_untouched :
  forall Date_parse system qCourse qHole qShotType qClub w,
    file (snd (findRelevantShots Date_parse qCourse qHole qShotType qClub w))
    = file w
    /\ file (snd (getCourseIntelligence qCourse w)) = file w
    /\ file (snd (systemMessage Date_parse system qCourse qHole qShotType
                    qClub w)) = file w.
Proof.
  intros Date_parse system qCourse qHole qShotType qClub w.
  split; [apply findRelevantShots_file|]. split.
  - unfold getCourseIntelligence.
    destruct (negb (truthy qCourse)); [reflexivity|].
    unfold bind. pose proof (loadShots_file w) as Hf.
    destruct (loadShots w) as [shots w1]. simpl in Hf.
    destruct (_ =? 0)%nat; [exact Hf|].
    destruct (existsb notModelled _); [exact Hf|].
    destruct (aggregate _ _); simpl; exact Hf.
  - unfold systemMessage, memoryInsights, bind.
    destruct (truthy qCourse && truthy qHole); [|reflexivity].
    pose proof (findRelevantShots_file Date_parse qCourse qHole qShotType
                  qClub w) as Hf.
    destruct (findRelevantShots Date_parse qCourse qHole qShotType qClub w)
      as [rel w1]. simpl in Hf.
    destruct (0 <? _)%nat; [|exact Hf].
    destruct (generateInsightsFromHistory rel) as [narrative|];
      [|exact Hf].
    simpl. destruct (narrative =? "")%string; simpl; exact Hf.
Qed.

(* ================================================================== *)
(** ** Keys of a dictionary are distinct *)

Lemma upsert_keys : forall {B : Type} k (i : B) f d,
    map fst (upsert k i f d)
    = if existsb (String.eqb k) (map fst d) then map fst d
      else map fst d ++ [k].
Proof.
  intros B k i f d; induction d as [|[k' v] r IH]; simpl; [reflexivity|].
  destruct (String.eqb_spec k k') as [->|Hne]; simpl; [reflexivity|].
  rewrite IH. now destruct (existsb (String.eqb k) (map fst r)).
Qed.

Lemma upsert_NoDup : forall {B : Type} k (i : B) f d,
    NoDup (map fst d) -> NoDup (map fst (upsert k i f d)).
Proof.
  intros B k i f d Hd. rewrite upsert_keys.
  destruct (existsb (String.eqb k) (map fst d)) eqn:E; [exact Hd|].
  apply NoDup_app_remove_l with (l := []). simpl.
  apply Permutation_NoDup with (l := k :: map fst d).
  - apply Permutation_cons_append.
  - constructor; [|exact Hd]. intro Hin.
    assert (Ht : existsb (String.eqb k) (map fst d) = true).
    { apply existsb_exists. exists k. split; [exact Hin|].
      apply String.eqb_refl. }
    congruence.
Qed.

Lemma collect_NoDup : forall {A B : Type} (key : A -> option string)
    (init : A -> B) (step : A -> B -> B) l d d',
    NoDup (map fst d) -> collect key init step l d = Some d' ->
    NoDup (map fst d').
Proof.
  intros A B key init step; induction l as [|x r IH]; intros d d' Hd H;
    simpl in H.
  - now injection H as <-.
  - destruct (key x) as [k|]; [|now apply (IH d)].
    destruct (isProtoName k); [discriminate|].
    apply (IH _ _ (upsert_NoDup k (init x) (step x) d Hd) H).
Qed.

Lemma tally_NoDup : forall vs, NoDup (map fst (tally vs)).
Proof.
  intro vs. unfold tally.
  assert (H : forall d : dict nat,
             NoDup (map fst d) ->
             NoDup (map fst (fold_left
                               (fun counts v =>
                                  upsert (toString v) 1%nat S counts) vs d))).
  { induction vs as [|v r IH]; intros d Hd; simpl; [exact Hd|].
    apply IH. now apply upsert_NoDup. }
  apply H. constructor.
Qed.

Lemma upsert_In_keys : forall {B : Type} k (i : B) f d k',
    In k' (map fst (upsert k i f d)) <-> k' = k \/ In k' (map fst d).
Proof.
  intros B k i f d k'. rewrite upsert_keys.
  destruct (existsb (String.eqb k) (map fst d)) eqn:E.
  - apply existsb_exists in E. destruct E as [k2 [Hin Hk]].
    apply String.eqb_eq in Hk. subst k2.
    split; [auto|]. intros [->|H]; assumption.
  - rewrite in_app_iff. simpl. split.
    + intros [H|[H|[]]]; auto.
    + intros [H|H]; auto.
Qed.

Lemma tally_keys : forall vs k,
    In k (map fst (tally vs)) <-> exists v, In v vs /\ toString v = k.
Proof.
  intros vs k. unfold tally.
  assert (H : forall d : dict nat,
             In k (map fst (fold_left
                              (fun counts v =>
                                 upsert (toString v) 1%nat S counts) vs d))
             <-> In k (map fst d) \/ exists v, In v vs /\ toString v = k).
  { induction vs as [|v r IH]; intro d; simpl.
    - split; [auto|]. intros [H|[v [[] _]]]. exact H.
    - rewrite IH, upsert_In_keys. split.
      + intros [[->|H]|[u [Hu Hk]]]; auto.
        * right. exists v. auto.
        * right. exists u. auto.
      + intros [H|[u [[<-|Hu] Hk]]]; auto.
        right. exists u. auto. }
  rewrite H. simpl. split; [intros [[]|H']; exact H'|auto].
Qed.

Lemma filter_partition_perm : forall {A : Type} (p : A -> bool) l,
    Permutation (filter p l ++ filter (fun x => negb (p x)) l) l.
Proof.
  intros A p; induction l as [|x r IH]; simpl; [constructor|].
  destruct (p x); simpl.
  - now constructor.
  - eapply perm_trans; [apply Permutation_sym, Permutation_middle|].
    now constructor.
Qed.

Lemma keys_perm : forall {B : Type} (d : dict B),
    Permutation (keys d) (map fst d).
Proof.
  intros B d. unfold keys.
  set (ks := map fst d).
  set (isIdx := fun k => match arrayIndex k with
                         | Some _ => true
                         | None => false
                         end).
  eapply perm_trans; [|apply (filter_partition_perm isIdx ks)].
  apply Permutation_app.
  - eapply perm_trans;
      [apply Permutation_map, Permutation_sym, sortBy_perm|].
    clearbody ks. induction ks as [|k r IH]; simpl; [constructor|].
    unfold isIdx at 1. destruct (arrayIndex k); simpl.
    + now constructor.
    + exact IH.
  - clearbody ks. induction ks as [|k r IH]; simpl; [constructor|].
    unfold isIdx at 1. destruct (arrayIndex k); simpl.
    + exact IH.
    + now constructor.
Qed.

Lemma keys_NoDup : forall {B : Type} (d : dict B),
    NoDup (map fst d) -> NoDup (keys d).
Proof.
  intros B d H. apply (Permutation_NoDup (Permutation_sym (keys_perm d)) H).
Qed.

Lemma omap_map : forall {A B : Type} (f : A -> option B) l ys,
    omap f l = Some ys -> map Some ys = map f l.
Proof.
  intros A B f; induction l as [|x r IH]; intros ys H; simpl in H.
  - now injection H as <-.
  - destruct (f x) as [y|] eqn:E; simpl in H; [|discriminate].
    destruct (omap f r) as [zs|] eqn:Er; simpl in H; [|discriminate].
    injection H as <-. simpl. now rewrite E, (IH zs eq_refl).
Qed.

Lemma omap_NoDup : forall {A B : Type} (f : A -> option B) l ys,
    omap f l = Some ys -> NoDup l ->
    (forall x y z, In x l -> In y l -> f x = Some z -> f y = Some z -> x = y) ->
    NoDup ys.
Proof.
  intros A B f; induction l as [|x r IH]; intros ys H Hnd Hinj; simpl in H.
  - injection H as <-. constructor.
  - destruct (f x) as [y|] eqn:E; simpl in H; [|discriminate].
    destruct (omap f r) as [zs|] eqn:Er; simpl in H; [|discriminate].
    injection H as <-. inversion Hnd as [|? ? Hx Hr]; subst.
    constructor.
    + intro Hin. apply (omap_In _ _ _ Er) in Hin.
      destruct Hin as [x' [Hx' Hf]]. apply Hx.
      rewrite (Hinj x x' y); auto; [now left|now right].
    + apply (IH zs eq_refl Hr).
      intros a b z Ha Hb. apply Hinj; now right.
Qed.

Lemma omap_fails : forall {A B : Type} (f : A -> option B) l x,
    In x l -> f x = None -> omap f l = None.
Proof.
  intros A B f l x Hin Hx.
  destruct (omap f l) as [ys|] eqn:E; [|reflexivity].
  now elim (omap_defined _ _ _ E x Hin).
Qed.

(* ================================================================== *)
(** ** Course intelligence: most played holes *)

Lemma aggregate_parts : forall qCourse courseShots ci,
    aggregate qCourse courseShots = Some ci ->
    exists shotsByHole perHole,
      groupByHole courseShots = Some shotsByHole
      /\ perHoleOf shotsByHole = Some perHole
      /\ mostPlayedHoles ci = mostPlayedHolesOf shotsByHole perHole
      /\ trickyHolesOf perHole = Some (trickyHoles ci)
      /\ ins_courseId ci = qCourse.
Proof.
  intros qCourse courseShots ci H. unfold aggregate in H.
  destruct (groupByHole courseShots) as [d|] eqn:Ed; simpl in H;
    [|discriminate].
  destruct (perHoleOf d) as [ph|] eqn:Eph; simpl in H; [|discriminate].
  destruct (trickyHolesOf ph) as [tr|] eqn:Etr; simpl in H; [|discriminate].
  destruct (collectClubStats courseShots) as [cs|] eqn:Ecs; simpl in H;
    [|discriminate].
  injection H as <-. exists d, ph. simpl. auto.
Qed.

Lemma sorted_app : forall {A : Type} (R : A -> A -> Prop) l1 l2,
    StronglySorted R (l1 ++ l2) ->
    StronglySorted R l1
    /\ forall a b, In a l1 -> In b l2 -> R a b.
Proof.
  intros A R; induction l1 as [|x r IH]; intros l2 H; simpl in *.
  - split; [constructor|intros a b []].
  - inversion H as [|? ? Hs Hall]; subst.
    destruct (IH l2 Hs) as [Hr Hcross].
    rewrite Forall_forall in Hall. split.
    + constructor; [exact Hr|].
      apply Forall_forall. intros y Hy. apply Hall.
      apply in_app_iff. now left.
    + intros a b [<-|Ha] Hb.
      * apply Hall. apply in_app_iff. now right.
      * now apply Hcross.
Qed.

Lemma paired_holes : forall (d : dict (list Shot)) holes ph,
    omap (fun hole => obind (shotsOfHole d hole)
                        (fun shots => Some (hole, shots))) holes = Some ph ->
    map fst ph = holes.
Proof.
  intros d; induction holes as [|h r IH]; intros ph Hp; simpl in Hp.
  - now injection Hp as <-.
  - destruct (shotsOfHole d h) as [g|]; simpl in Hp; [|discriminate].
    destruct (omap _ r) as [zs|] eqn:Er; simpl in Hp; [|discriminate].
    injection Hp as <-. simpl. f_equal. now apply IH.
Qed.

Section PerHoleKeys.

Variable courseShots : list Shot.
Variable shotsByHole : dict (list Shot).
Variable perHole : list (Z * list Shot).
Hypothesis Hmodelled : existsb notModelled courseShots = false.
Hypothesis Hgroup : groupByHole courseShots = Some shotsByHole.
Hypothesis HperHole : perHoleOf shotsByHole = Some perHole.

Lemma hole_keys_numerals : forall k,
    In k (keys shotsByHole) -> exists z, k = numToString z.
Proof.
  intros k Hk. apply keys_In in Hk.
  apply (collect_keys _ _ _ _ _ _ Hgroup) in Hk.
  destruct Hk as [x [Hx [= <-]]].
  destruct (course_holes_numeric _ _ _ Hmodelled Hgroup HperHole x Hx)
    as [z Hz].
  exists z. unfold holeKeyOf. now rewrite Hz.
Qed.

Lemma perHole_holes_distinct : NoDup (map fst perHole).
Proof.
  pose proof HperHole as Hp. unfold perHoleOf in Hp.
  destruct (omap parseInt (keys shotsByHole)) as [holes|] eqn:E;
    simpl in Hp; [|discriminate].
  assert (Hholes : NoDup holes).
  { apply (omap_NoDup _ _ _ E).
    - apply keys_NoDup. unfold groupByHole in Hgroup.
      apply (collect_NoDup _ _ _ _ [] _ (NoDup_nil _) Hgroup).
    - intros k1 k2 z H1 H2 Hz1 Hz2.
      destruct (hole_keys_numerals k1 H1) as [z1 ->].
      destruct (hole_keys_numerals k2 H2) as [z2 ->].
      rewrite parseInt_numToString in Hz1, Hz2. congruence. }
  assert (Hfst : map fst perHole = holes)
    by exact (paired_holes _ _ _ Hp).
  now rewrite Hfst.
Qed.

Lemma shotCount_holeCount : forall h,
    shotCount shotsByHole h = holeCount courseShots h.
Proof.
  intro h. unfold shotCount, shotsOfHole, holeCount.
  rewrite (hole_group _ _ _ Hmodelled Hgroup HperHole).
  now destruct (holeShotsOf h courseShots).
Qed.

Lemma perHole_holes : forall h,
    In h (map fst perHole) <-> holeShotsOf h courseShots <> [].
Proof.
  intro h. rewrite in_map_iff. split.
  - intros [[h' g] [<- Hin]].
    apply (perHole_spec _ _ _ Hmodelled Hgroup HperHole) in Hin.
    simpl. destruct Hin as [<- Hne]. exact Hne.
  - intro Hne. exists (h, holeShotsOf h courseShots). split; [reflexivity|].
    now apply (perHole_spec _ _ _ Hmodelled Hgroup HperHole).
Qed.

End PerHoleKeys.

(** [mostPlayedHoles] ranks the holes of the course: at most ten
    distinct holes, each with at least one shot, in descending order of
    their number of shots; a hole with shots that is left out has no more
    shots than any of the ten listed. *)
Theorem mostPlayedHoles_ranking : forall qCourse courseShots ci,
    aggregate qCourse courseShots = Some ci ->
    existsb notModelled courseShots = false ->
    (List.length (mostPlayedHoles ci) <= 10)%nat
    /\ NoDup (mostPlayedHoles ci)
    /\ (forall h, In h (mostPlayedHoles ci) ->
                  holeShotsOf h courseShots <> [])
    /\ StronglySorted
         (fun a b => holeCount courseShots b <= holeCount courseShots a)
         (mostPlayedHoles ci)
    /\ (forall h, holeShotsOf h courseShots <> [] ->
                  ~ In h (mostPlayedHoles ci) ->
                  List.length (mostPlayedHoles ci) = 10%nat
                  /\ forall a, In a (mostPlayedHoles ci) ->
                               holeCount courseShots h
                               <= holeCount courseShots a).
Proof.
  intros qCourse courseShots ci Hagg Hmod.
  destruct (aggregate_parts _ _ _ Hagg) as (d & ph & Hd & Hph & Hmp & _ & _).
  rewrite Hmp. unfold mostPlayedHolesOf.
  set (cmp := fun a b : Z => shotCount d b - shotCount d a).
  set (sorted := sortBy cmp (map fst ph)).
  assert (Hperm : Permutation (map fst ph) sorted) by apply sortBy_perm.
  assert (Hsorted : StronglySorted
                      (fun a b => holeCount courseShots b
                                  <= holeCount courseShots a) sorted).
  { assert (H : StronglySorted
                  (fun a b => shotCount d b <= shotCount d a) sorted)
      by (apply sortBy_desc; reflexivity).
    eapply StronglySorted_ind with (P := fun l => StronglySorted _ l);
      [constructor| |exact H].
    intros a l _ IH Hall. constructor; [exact IH|].
    rewrite Forall_forall in Hall |- *. intros x Hx.
    rewrite <- !(shotCount_holeCount _ _ _ Hmod Hd Hph). now apply Hall. }
  assert (Hnd : NoDup sorted).
  { apply (Permutation_NoDup Hperm).
    apply (perHole_holes_distinct _ _ _ Hmod Hd Hph). }
  pose proof (firstn_skipn 10 sorted) as Hsplit.
  rewrite <- Hsplit in Hsorted, Hnd.
  destruct (sorted_app _ _ _ Hsorted) as [Hfirst Hcross].
  split; [apply firstn_le_length|].
  split; [exact (NoDup_app_remove_r _ _ Hnd)|].
  split; [|split; [exact Hfirst|]].
  - intros h Hh.
    apply (perHole_holes _ _ _ Hmod Hd Hph).
    apply (Permutation_in _ (Permutation_sym Hperm)).
    rewrite <- Hsplit. apply in_app_iff. now left.
  - intros h Hne Hout.
    assert (Hin : In h sorted).
    { apply (Permutation_in _ Hperm).
      now apply (perHole_holes _ _ _ Hmod Hd Hph). }
    rewrite <- Hsplit in Hin. apply in_app_iff in Hin.
    destruct Hin as [Hin|Hin]; [contradiction|].
    split.
    + destruct (Nat.le_gt_cases 10 (List.length sorted)) as [Hlen|Hlen].
      * now apply firstn_length_le.
      * rewrite skipn_all2 in Hin by lia. destruct Hin.
    + intros a Ha. now apply Hcross.
Qed.

Lemma mostPlayedHoles_ranking_witness :
  StronglySorted
    (fun a b => holeCount Sample.courseShots b
                <= holeCount Sample.courseShots a)
    (mostPlayedHoles Sample.insights).
Proof.
  refine (proj1 (proj2 (proj2 (proj2
    (mostPlayedHoles_ranking (VStr "pebble") Sample.courseShots
       Sample.insights _ _))))).
  - reflexivity.
  - reflexivity.
Defined.

(* ================================================================== *)
(** ** Course intelligence: which holes are tricky, and why *)

Lemma isUphill_truthy : forall e, isUphill e = true -> truthy e = true.
Proof.
  intros [| |b|z|s] H; simpl in H; try discriminate.
  destruct s; [discriminate|reflexivity].
Qed.

Lemma existsb_uphill_truthy : forall l,
    existsb isUphill (filter truthy l) = existsb isUphill l.
Proof.
  induction l as [|e r IH]; simpl; [reflexivity|].
  destruct (truthy e) eqn:Et; simpl; [now rewrite IH|].
  destruct (isUphill e) eqn:Eu; [|exact IH].
  apply isUphill_truthy in Eu. congruence.
Qed.

Lemma score_positive_iff : forall shots,
    Qltb 0 (avgOverPar shots) = true
    <-> (0 < totalFeedbackOf shots)%nat
        /\ (totalFeedbackOf shots < 2 * offCountOf shots)%nat.
Proof.
  intro shots. unfold avgOverPar.
  destruct (0 <? totalFeedbackOf shots)%nat eqn:Et.
  - apply Nat.ltb_lt in Et.
    pose proof (majority_iff shots Et) as Hm. unfold negativeFraction in Hm.
    destruct (Qltb (1 # 2) _) eqn:Eq.
    + split; [intros _; split; [exact Et|now apply Hm]|intros _].
      apply Qltb_lt. apply Qltb_lt in Eq. lra.
    + split; [intro H; vm_compute in H; discriminate|].
      intros [_ H]. apply Hm in H. discriminate.
  - apply Nat.ltb_ge in Et.
    split; [intro H; vm_compute in H; discriminate|lia].
Qed.

Lemma trickyEntry_spec : forall h g l,
    trickyEntry h g = Some l ->
    l = if Qltb 0 (avgOverPar g) || hasUphill g || (2 <=? offCountOf g)%nat
        then [ {| th_hole := h; th_avgOverPar := toFixed1 (avgOverPar g);
                  th_note := trickyNote g |} ]
        else [].
Proof.
  intros h g l H. unfold trickyEntry in H. cbv zeta in H.
  destruct (someM includesPlus _) as [up|] eqn:Eu; cbn [obind] in H;
    [|discriminate].
  apply someM_existsb in Eu. rewrite existsb_uphill_truthy in Eu.
  fold (hasUphill g) in Eu. subst up. unfold trickyNote.
  destruct (_ || _ || _); now injection H as <-.
Qed.

Lemma tricky_holes_distinct : forall ph ls,
    omap (fun hs : Z * list Shot => trickyEntry (fst hs) (snd hs)) ph
    = Some ls ->
    NoDup (map fst ph) ->
    NoDup (map th_hole (List.concat ls))
    /\ forall e, In e (List.concat ls) -> In (th_hole e) (map fst ph).
Proof.
  induction ph as [|[h g] r IH]; intros ls H Hnd; simpl in H.
  - injection H as <-. simpl. split; [constructor|intros e []].
  - destruct (trickyEntry h g) as [l|] eqn:El; simpl in H; [|discriminate].
    destruct (omap _ r) as [ls'|] eqn:Er; simpl in H; [|discriminate].
    injection H as <-. inversion Hnd as [|? ? Hh Hr]; subst.
    destruct (IH ls' eq_refl Hr) as [Hnd' Hin'].
    apply trickyEntry_spec in El. simpl.
    destruct (_ || _ || _); subst l; simpl.
    + split.
      * constructor; [|exact Hnd']. intro Hin.
        apply in_map_iff in Hin. destruct Hin as [e [<- He]].
        apply Hh. now apply Hin'.
      * intros e [<-|He]; [now left|right; now apply Hin'].
    + split; [exact Hnd'|]. intros e He. right. now apply Hin'.
Qed.

(** A hole is listed in [trickyHoles], once, exactly when it has shots
    and either its "off" verdicts are the strict majority of its verdicts,
    or one of its recorded elevations contains a plus sign, or it has at
    least two "off" verdicts.  The note names the first reason that
    applies, in the order uphill, number of "off" verdicts, generic. *)
Theorem trickyHoles_membership : forall qCourse courseShots ci,
    aggregate qCourse courseShots = Some ci ->
    existsb notModelled courseShots = false ->
    (forall h,
        (exists e, In e (trickyHoles ci) /\ th_hole e = h)
        <-> holeShotsOf h courseShots <> []
            /\ (((0 < totalFeedbackOf (holeShotsOf h courseShots))%nat
                 /\ (totalFeedbackOf (holeShotsOf h courseShots)
                     < 2 * offCountOf (holeShotsOf h courseShots))%nat)
                \/ hasUphill (holeShotsOf h courseShots) = true
                \/ (2 <= offCountOf (holeShotsOf h courseShots))%nat))
    /\ (forall e, In e (trickyHoles ci) ->
                  th_note e
                  = trickyNote (holeShotsOf (th_hole e) courseShots))
    /\ NoDup (map th_hole (trickyHoles ci)).
Proof.
  intros qCourse courseShots ci Hagg Hmod.
  destruct (aggregate_parts _ _ _ Hagg) as (d & ph & Hd & Hph & _ & Htr & _).
  assert (Hcond : forall g,
             Qltb 0 (avgOverPar g) || hasUphill g || (2 <=? offCountOf g)%nat
             = true
             <-> ((0 < totalFeedbackOf g)%nat
                  /\ (totalFeedbackOf g < 2 * offCountOf g)%nat)
                 \/ hasUphill g = true \/ (2 <= offCountOf g)%nat).
  { intro g. rewrite !orb_true_iff, score_positive_iff, Nat.leb_le. tauto. }
  split; [|split].
  - intro h. split.
    + intros [e [He Hh]]. apply (trickyHolesOf_In _ _ _ Htr) in He.
      destruct He as (h' & g & l & Hin & Hl & He).
      apply (perHole_spec _ _ _ Hmod Hd Hph) in Hin.
      destruct Hin as [-> Hne].
      apply trickyEntry_spec in Hl.
      destruct (_ || _ || _) eqn:Ec; subst l; [|destruct He].
      destruct He as [<-|[]]. simpl in Hh. subst h'.
      split; [exact Hne|]. now apply Hcond.
    + intros [Hne Hc]. apply Hcond in Hc.
      assert (Hin : In (h, holeShotsOf h courseShots) ph)
        by now apply (perHole_spec _ _ _ Hmod Hd Hph).
      pose proof Htr as Htr'. unfold trickyHolesOf in Htr'.
      destruct (omap _ ph) as [ls|] eqn:E; simpl in Htr'; [|discriminate].
      pose proof (omap_defined _ _ _ E _ Hin) as Hdef. simpl in Hdef.
      destruct (trickyEntry h (holeShotsOf h courseShots)) as [l|] eqn:El;
        [|congruence].
      pose proof (trickyEntry_spec _ _ _ El) as Hl. rewrite Hc in Hl.
      exists {| th_hole := h;
                th_avgOverPar :=
                  toFixed1 (avgOverPar (holeShotsOf h courseShots));
                th_note := trickyNote (holeShotsOf h courseShots) |}.
      split; [|reflexivity].
      apply (trickyHolesOf_In _ _ _ Htr).
      exists h, (holeShotsOf h courseShots), l.
      split; [exact Hin|]. split; [exact El|]. rewrite Hl. now left.
  - intros e He. apply (trickyHolesOf_In _ _ _ Htr) in He.
    destruct He as (h & g & l & Hin & Hl & He).
    apply (perHole_spec _ _ _ Hmod Hd Hph) in Hin. destruct Hin as [-> _].
    apply trickyEntry_spec in Hl.
    destruct (_ || _ || _); subst l; [|destruct He].
    destruct He as [<-|[]]. reflexivity.
  - pose proof Htr as Htr'. unfold trickyHolesOf in Htr'.
    destruct (omap _ ph) as [ls|] eqn:E; simpl in Htr'; [|discriminate].
    injection Htr' as Htr'. rewrite <- Htr'.
    apply (Permutation_NoDup
             (Permutation_map th_hole (sortBy_perm byScoreDesc _))).
    apply (tricky_holes_distinct _ _ E).
    apply (perHole_holes_distinct _ _ _ Hmod Hd Hph).
Qed.

Lemma trickyHoles_membership_witness :
  (exists e, In e (trickyHoles Sample.insights) /\ th_hole e = 7)
  <-> holeShotsOf 7 Sample.courseShots <> []
      /\ (((0 < totalFeedbackOf (holeShotsOf 7 Sample.courseShots))%nat
           /\ (totalFeedbackOf (holeShotsOf 7 Sample.courseShots)
               < 2 * offCountOf (holeShotsOf 7 Sample.courseShots))%nat)
          \/ hasUphill (holeShotsOf 7 Sample.courseShots) = true
          \/ (2 <= offCountOf (holeShotsOf 7 Sample.courseShots))%nat).
Proof.
  refine (proj1 (trickyHoles_membership (VStr "pebble") Sample.courseShots
                   Sample.insights _ _) 7).
  - reflexivity.
  - reflexivity.
Defined.

(* ================================================================== *)
(** ** Shot capture *)


(** A shot type that passes the check of the capture route is one of
    the five valid shot types, whatever the request sent; without a shot
    type the route takes ["approach"]. *)
Theorem checkShotType_valid : forall toLowerCase shotType n,
    checkShotType toLowerCase shotType = Normalized n ->
    In n validShotTypes
    /\ (shotType = None \/ shotType = Some "" -> n = "approach").
Proof.
  intros toLowerCase shotType n H. unfold checkShotType in H. cbv zeta in H.
  destruct shotType as [t|].
  - destruct (truthy (VStr t)) eqn:Et; cbn [andb] in H.
    + destruct (existsb (String.eqb (toLowerCase t)) validShotTypes) eqn:Ev;
        cbn [negb] in H; [|discriminate].
      injection H as <-. split.
      * apply existsb_exists in Ev. destruct Ev as [v [Hv He]].
        apply String.eqb_eq in He. now rewrite He.
      * intros [H|[= ->]]; discriminate.
    + injection H as <-. split; [right; now left|reflexivity].
  - injection H as <-. split; [right; now left|reflexivity].
Qed.

Lemma checkShotType_valid_witness :
  In "putt" validShotTypes
  /\ (Some "putt" = None \/ Some "putt" = Some "" -> "putt" = "approach").
Proof.
  apply (checkShotType_valid (fun t => t) (Some "putt") "putt").
  reflexivity.
Defined.

(* ================================================================== *)
(** ** Vision route: data URLs *)

(** [toDataUrlFromBase64] gives [null] exactly for what is not a
    non-empty string; every other result is a data URL of an image; and a
    result passes through the function unchanged. *)
Theorem toDataUrlFromBase64_data_url : forall v,
    (toDataUrlFromBase64 v = VNull
     <-> ~ exists s, v = VStr s /\ s <> "")
    /\ (forall r, toDataUrlFromBase64 v = VStr r ->
                  String.prefix "data:image/" r = true)
    /\ toDataUrlFromBase64 (toDataUrlFromBase64 v) = toDataUrlFromBase64 v.
Proof.
  intro v. unfold toDataUrlFromBase64.
  destruct v as [| |b|z|s]; cbn [truthy isStr negb orb].
  - repeat split; try discriminate. intros _ [s [H _]]. discriminate.
  - repeat split; try discriminate. intros _ [s [H _]]. discriminate.
  - destruct b; cbn [negb orb]; repeat split; try discriminate;
      intros _ [s [H _]]; discriminate.
  - destruct (negb (z =? 0)%Z); cbn [negb orb]; repeat split;
      try discriminate; intros _ [s [H _]]; discriminate.
  - destruct (String.eqb_spec s "") as [->|Hne]; cbn [negb orb].
    + repeat split; try discriminate. intros _ [s [[= <-] H]]. now apply H.
    + destruct (String.prefix "data:image/" s) eqn:Ep.
      * split; [|split].
        -- split; [discriminate|]. intro H. elim H. exists s. auto.
        -- intros r [= <-]. exact Ep.
        -- cbn [truthy isStr negb orb].
           destruct (String.eqb_spec s "") as [->|_]; [now elim Hne|].
           cbn [negb orb]. now rewrite Ep.
      * split; [|split].
        -- split; [discriminate|]. intro H. elim H. exists s. auto.
        -- intros r [= <-]. reflexivity.
        -- reflexivity.
Qed.

(* ================================================================== *)
(** ** Course intelligence: the degraded answers of the route *)

Lemma getCourseIntelligence_cases : forall qCourse w,
    truthy qCourse = true ->
    fst (getCourseIntelligence qCourse w)
    = if (List.length (courseShotsOf qCourse w) =? 0)%nat
      then Insights (emptyInsights qCourse)
      else if existsb notModelled (courseShotsOf qCourse w) then NotModelled
      else match aggregate qCourse (courseShotsOf qCourse w) with
           | Some ci => Insights ci
           | None => Insights (emptyInsights qCourse)
           end.
Proof.
  intros qCourse w Ht. unfold getCourseIntelligence, courseShotsOf.
  rewrite Ht. cbn [negb]. unfold bind.
  pose proof (loadShots_shots w) as Hs.
  destruct (loadShots w) as [shots w1]. simpl in Hs. subst shots.
  destruct (_ =? 0)%nat; [reflexivity|].
  destruct (existsb notModelled _); [reflexivity|].
  destruct (aggregate _ _); [reflexivity|].
  simpl. unfold or. now rewrite Ht.
Qed.

(** A course without stored records gets the empty insights, whatever
    the document holds or fails to hold. *)
Theorem getCourseIntelligence_unknown_course : forall qCourse w,
    truthy qCourse = true ->
    (forall s, In s (storedShots (file w)) -> courseId s <> qCourse) ->
    fst (getCourseIntelligence qCourse w) = Insights (emptyInsights qCourse).
Proof.
  intros qCourse w Ht Hno. rewrite getCourseIntelligence_cases by exact Ht.
  assert (Hnil : courseShotsOf qCourse w = []).
  { unfold courseShotsOf.
    induction (storedShots (file w)) as [|x r IH]; [reflexivity|].
    simpl. destruct (strictEq (courseId x) qCourse) eqn:E.
    - apply strictEq_eq in E. now elim (Hno x (or_introl eq_refl)).
    - apply IH. intros s Hs. apply Hno. now right. }
  now rewrite Hnil.
Qed.

Lemma getCourseIntelligence_unknown_course_witness :
  fst (getCourseIntelligence (VStr "augusta") Sample.courseWorld)
  = Insights (emptyInsights (VStr "augusta")).
Proof.
  apply (getCourseIntelligence_unknown_course (VStr "augusta")
           Sample.courseWorld).
  - reflexivity.
  - simpl. intros s [<-|[<-|[<-|[<-|[<-|[]]]]]]; discriminate.
Defined.

Lemma aggregate_needs_numeric_holes : forall qCourse courseShots s,
    In s courseShots ->
    isNum (holeNumber s) = false -> isStr (holeNumber s) = false ->
    aggregate qCourse courseShots = None.
Proof.
  intros qCourse courseShots s Hs Hn Hstr. unfold aggregate.
  destruct (groupByHole courseShots) as [d|] eqn:Ed; [|reflexivity].
  cbn [obind].
  assert (Hper : perHoleOf d = None).
  { unfold perHoleOf.
    rewrite (omap_fails parseInt (keys d) (holeKeyOf s)); [reflexivity| |].
    - apply keys_In. apply (collect_keys _ _ _ _ _ _ Ed). exists s. auto.
    - unfold holeKeyOf.
      destruct (holeNumber s) as [| |[|]|z|t]; try discriminate;
        reflexivity. }
  now rewrite Hper.
Qed.

(** One record of the course without a numeric hole number (a
    feedback-only record sent without [hole], say) blanks the insights of
    the whole course: the aggregation throws, the route logs the error and
    answers with the empty insights. *)
Theorem getCourseIntelligence_record_without_hole :
  forall qCourse w s,
    truthy qCourse = true ->
    existsb notModelled (courseShotsOf qCourse w) = false ->
    In s (storedShots (file w)) ->
    courseId s = qCourse ->
    isNum (holeNumber s) = false ->
    fst (getCourseIntelligence qCourse w) = Insights (emptyInsights qCourse)
    /\ exists before,
         console (snd (getCourseIntelligence qCourse w))
         = before ++ [LogError "Error in /api/insights/course:"].
Proof.
  intros qCourse w s Ht Hmod Hs Hc Hn.
  assert (Hin : In s (courseShotsOf qCourse w)).
  { apply filter_In. split; [exact Hs|]. now apply strictEq_eq. }
  assert (Hstr : isStr (holeNumber s) = false).
  { destruct (isStr (holeNumber s)) eqn:E; [|reflexivity].
    assert (Hex : existsb notModelled (courseShotsOf qCourse w) = true).
    { apply existsb_exists. exists s. split; [exact Hin|].
      unfold notModelled. now rewrite E. }
    congruence. }
  pose proof (aggregate_needs_numeric_holes qCourse _ s Hin Hn Hstr) as Hagg.
  split.
  - rewrite getCourseIntelligence_cases by exact Ht.
    rewrite Hmod, Hagg.
    now destruct (_ =? 0)%nat.
  - unfold getCourseIntelligence. rewrite Ht. cbn [negb]. unfold bind.
    pose proof (loadShots_shots w) as Hl.
    destruct (loadShots w) as [shots w1]. simpl in Hl. subst shots.
    fold (courseShotsOf qCourse w). rewrite Hmod, Hagg.
    destruct (courseShotsOf qCourse w) as [|x r]; [destruct Hin|].
    simpl. eexists. reflexivity.
Qed.

Lemma getCourseIntelligence_record_without_hole_witness :
  fst (getCourseIntelligence (VStr "pebble") Sample.holelessWorld)
  = Insights (emptyInsights (VStr "pebble"))
  /\ exists before,
       console (snd (getCourseIntelligence (VStr "pebble")
                       Sample.holelessWorld))
       = before ++ [LogError "Error in /api/insights/course:"].
Proof.
  refine (getCourseIntelligence_record_without_hole (VStr "pebble")
            Sample.holelessWorld _ _ _ (or_intror (or_introl eq_refl)) _ _).
  - reflexivity.
  - reflexivity.
  - reflexivity.
  - reflexivity.
Defined.
(* ================================================================== *)
(** ** Course intelligence: the note and the rounded mean of a club *)








(* ================================================================== *)
(** ** Course intelligence: the course-level notes *)

Lemma string_of_uint_no_plus : forall d,
    includesChar "+"%char (NilEmpty.string_of_uint d) = false.
Proof. induction d; simpl; auto. Qed.

Lemma numToString_no_plus : forall z,
    includesChar "+"%char (numToString z) = false.
Proof.
  intro z. unfold numToString, NilZero.string_of_int.
  destruct (Z.to_int z) as [d|d]; unfold NilZero.string_of_uint;
    destruct d; simpl; auto using string_of_uint_no_plus.
Qed.

Lemma toString_uphill : forall v,
    includesChar "+"%char (toString v) = isUphill v.
Proof.
  intros [| |[|]|z|s]; simpl; try reflexivity. apply numToString_no_plus.
Qed.

Lemma NoDup_filter_keep : forall {A : Type} (p : A -> bool) l,
    NoDup l -> NoDup (filter p l).
Proof.
  intros A p; induction l as [|x r IH]; intro H; simpl; [constructor|].
  inversion H as [|? ? Hx Hr]; subst.
  destruct (p x); [constructor|]; auto.
  rewrite filter_In. tauto.
Qed.

Lemma dedupBy_NoDup : forall l : list value, NoDup (dedupBy strictEq l).
Proof.
  induction l as [|x r IH]; simpl; constructor.
  - rewrite filter_In. intros [_ H]. now rewrite strictEq_refl in H.
  - now apply NoDup_filter_keep.
Qed.

Lemma NoDup_map_in : forall {A B : Type} (f : A -> B) l,
    (forall a b, In a l -> In b l -> f a = f b -> a = b) ->
    NoDup l -> NoDup (map f l).
Proof.
  intros A B f; induction l as [|x r IH]; intros Hinj H; simpl;
    [constructor|].
  inversion H as [|? ? Hx Hr]; subst. constructor.
  - rewrite in_map_iff. intros [y [Hy Hin]].
    apply Hx. rewrite (Hinj x y); simpl; auto.
  - apply IH; [|exact Hr]. intros a b Ha Hb. apply Hinj; now right.
Qed.

Lemma uphill_keys : forall vs,
    List.length (filter (includesChar "+"%char) (keys (tally vs)))
    = List.length (filter isUphill (dedupBy strictEq vs)).
Proof.
  intro vs.
  rewrite <- (length_map toString (filter isUphill (dedupBy strictEq vs))).
  apply Permutation_length, NoDup_Permutation.
  - apply NoDup_filter_keep, keys_NoDup, tally_NoDup.
  - apply NoDup_map_in.
    + intros a b Ha Hb E.
      apply filter_In in Ha, Hb. destruct Ha as [_ Ha], Hb as [_ Hb].
      destruct a; try discriminate Ha. destruct b; try discriminate Hb.
      simpl in E. now subst.
    + apply NoDup_filter_keep, dedupBy_NoDup.
  - intro k. rewrite filter_In, keys_In, tally_keys, in_map_iff. split.
    + intros [[v [Hv <-]] Hk]. exists v. split; [reflexivity|].
      apply filter_In. split; [now apply dedupBy_In|].
      now rewrite <- toString_uphill.
    + intros [v [<- Hv]]. apply filter_In in Hv. destruct Hv as [Hv Hu].
      apply (proj1 (dedupBy_In _ _)) in Hv.
      split; [now exists v|]. now rewrite toString_uphill.
Qed.

Lemma rough_tally : forall shots,
    countOf (tally (filter truthy (map surface (contextsOf shots)))) "rough"
    = roughCount shots.
Proof.
  intro shots. unfold tally, roughCount. rewrite countOf_tally. simpl.
  induction (contextsOf shots) as [|c r IH]; simpl; [reflexivity|].
  unfold isRough at 1.
  rewrite <- (key_is_kind "rough" (surface c)) by (reflexivity || discriminate).
  destruct (truthy (surface c)); simpl; [|exact IH].
  destruct (toString (surface c) =? "rough")%string; simpl; now rewrite IH.
Qed.

Lemma windNotesOf_shape : forall perHole x,
    In x (windNotesOf perHole) -> exists h, x = windNote h.
Proof.
  intros perHole x H. apply windNotesOf_In in H.
  destruct H as [h [g [_ H]]]. rewrite windEntry_spec in H.
  destruct (_ || _); [|destruct H].
  destruct H as [<-|[]]. now exists h.
Qed.

Lemma aiNotesOf_spec : forall courseShots perHole,
    let helpful := helpfulCountOf courseShots in
    let off := offCountOf courseShots in
    (In "Fairways were soft on your last round."
       (aiNotesOf courseShots perHole)
     <-> (3 <= roughCount courseShots)%nat)
    /\ (In "Course has several uphill holes. Consider club selection."
          (aiNotesOf courseShots perHole)
        <-> (2 <= distinctUphill courseShots)%nat)
    /\ (In "AI recommendations have been working well on this course."
          (aiNotesOf courseShots perHole)
        <-> (2 * off < helpful)%nat /\ (5 <= helpful)%nat)
    /\ (In "AI recommendations may need adjustment for this course's conditions."
          (aiNotesOf courseShots perHole)
        <-> (helpful < off)%nat /\ (3 <= off)%nat).
Proof.
  intros courseShots perHole helpful off. unfold aiNotesOf. cbv zeta.
  rewrite rough_tally, uphill_keys. fold (distinctUphill courseShots).
  fold helpful off.
  assert (Hw : forall x, In x (windNotesOf perHole) ->
                         String.get 0 x = Some "W"%char).
  { intros x Hx. apply windNotesOf_shape in Hx. destruct Hx as [h ->].
    reflexivity. }
  rewrite !in_app_iff.
  destruct (3 <=? roughCount courseShots)%nat eqn:Er,
    (2 <=? distinctUphill courseShots)%nat eqn:Eu,
    (off * 2 <? helpful)%nat eqn:E1, (5 <=? helpful)%nat eqn:E2,
    (helpful <? off)%nat eqn:E3, (3 <=? off)%nat eqn:E4;
    cbn [andb]; nat_bools;
    (split; [|split; [|split]]); split;
    try (intros [H|[H|[H|H]]];
         try (apply Hw in H; discriminate H);
         try (destruct H as [H|[]]; discriminate H);
         try (destruct H);
         try lia);
    try (intro H; simpl; try lia; tauto).
Qed.

(** The course-level notes of [aiNotes].  "Fairways were soft on your
    last round." is listed exactly when at least 3 shot contexts of the
    course have the surface ["rough"]; the uphill note exactly when the
    recorded elevations hold at least 2 distinct strings with a ["+"]; the
    "working well" note exactly when the "helpful" verdicts are at least 5
    and more than twice the "off" ones; the "may need adjustment" note
    exactly when the "off" verdicts are at least 3 and more than the
    "helpful" ones.  The last two are never listed together. *)
Theorem aiNotes_course_patterns : forall qCourse courseShots ci,
    aggregate qCourse courseShots = Some ci ->
    existsb notModelled courseShots = false ->
    let helpful := helpfulCountOf courseShots in
    let off := offCountOf courseShots in
    let working :=
      "AI recommendations have been working well on this course." in
    let adjust :=
      "AI recommendations may need adjustment for this course's conditions."
    in
    (In "Fairways were soft on your last round." (aiNotes ci)
     <-> (3 <= roughCount courseShots)%nat)
    /\ (In "Course has several uphill holes. Consider club selection."
          (aiNotes ci)
        <-> (2 <= distinctUphill courseShots)%nat)
    /\ (In working (aiNotes ci)
        <-> (2 * off < helpful)%nat /\ (5 <= helpful)%nat)
    /\ (In adjust (aiNotes ci) <-> (helpful < off)%nat /\ (3 <= off)%nat)
    /\ ~ (In working (aiNotes ci) /\ In adjust (aiNotes ci)).
Proof.
  intros qCourse courseShots ci Hagg _ helpful off working adjust.
  destruct (aggregate_inv _ _ _ Hagg)
    as (d & ph & tr & cs & _ & _ & _ & _ & _ & _ & Hn).
  rewrite Hn.
  destruct (aiNotesOf_spec courseShots ph) as (Hr & Hu & Hw & Ha).
  fold helpful off working adjust in Hw, Ha.
  split; [exact Hr|]. split; [exact Hu|]. split; [exact Hw|].
  split; [exact Ha|].
  intros [H1 H2]. apply Hw in H1. apply Ha in H2. lia.
Qed.

Lemma aiNotes_course_patterns_witness :
  In "Fairways were soft on your last round." (aiNotes Sample.insights)
  /\ ~ In "AI recommendations have been working well on this course."
         (aiNotes Sample.insights).
Proof.
  pose proof (aiNotes_course_patterns (VStr "pebble") Sample.courseShots
                Sample.insights eq_refl eq_refl) as H.
  cbv zeta in H. destruct H as (Hr & _ & Hw & _).
  split.
  - apply Hr. vm_compute. lia.
  - intro H. apply Hw in H. vm_compute in H. lia.
Defined.

(* ================================================================== *)
(** ** Course intelligence: hole details *)

Lemma sorted_distinct_strict : forall {A : Type} (key : A -> Z) l,
    StronglySorted (fun a b => key a <= key b) l ->
    NoDup (map key l) ->
    StronglySorted (fun a b => key a < key b) l.
Proof.
  intros A key; induction l as [|x r IH]; intros Hs Hnd; [constructor|].
  inversion Hs as [|? ? Hr Hall]; subst.
  simpl in Hnd. inversion Hnd as [|? ? Hx Hndr]; subst.
  constructor; [now apply IH|].
  rewrite Forall_forall in Hall |- *. intros y Hy.
  assert (key x <> key y).
  { intro E. apply Hx. rewrite E. now apply in_map. }
  specialize (Hall y Hy). lia.
Qed.

Lemma holeDetails_inv : forall Date_parse qCourse courseShots hds,
    holeDetails Date_parse qCourse courseShots = Some hds ->
    exists shotsByHole perHole,
      groupByHole courseShots = Some shotsByHole
      /\ perHoleOf shotsByHole = Some perHole
      /\ hds = holeDetailsOf Date_parse perHole.
Proof.
  intros Date_parse qCourse courseShots hds H. unfold holeDetails in H.
  destruct (aggregate qCourse courseShots) as [ci|]; simpl in H;
    [|discriminate].
  destruct (groupByHole courseShots) as [d|] eqn:Ed; simpl in H;
    [|discriminate].
  destruct (perHoleOf d) as [ph|] eqn:Eph; simpl in H; [|discriminate].
  injection H as <-. exists d, ph. auto.
Qed.

(** [holeDetails] lists the holes that have shots, each once, in
    ascending order.  The shots of an entry are the latest of the hole: when
    every best-known timestamp denotes an instant, the shots of the hole
    split into the listed ones and the others, newest first throughout, and
    the listed ones are five, or all of them when the hole has fewer. *)
Theorem holeDetails_latest_five :
  forall Date_parse qCourse courseShots hds,
    holeDetails Date_parse qCourse courseShots = Some hds ->
    existsb notModelled courseShots = false ->
    (forall s, In s courseShots -> shotTime Date_parse s <> None) ->
    StronglySorted (fun a b => hd_hole a < hd_hole b) hds
    /\ (forall h, In h (map hd_hole hds)
                  <-> holeShotsOf h courseShots <> [])
    /\ (forall hd, In hd hds ->
          exists recent older,
            hd_shots hd = map shotDetail recent
            /\ Permutation (holeShotsOf (hd_hole hd) courseShots)
                 (recent ++ older)
            /\ newestFirst Date_parse (recent ++ older)
            /\ List.length recent
               = Nat.min 5 (List.length
                              (holeShotsOf (hd_hole hd) courseShots))).
Proof.
  intros Date_parse qCourse courseShots hds H Hmod Hvalid.
  destruct (holeDetails_inv _ _ _ _ H) as (d & ph & Hd & Hph & ->).
  unfold holeDetailsOf.
  set (mk := fun hs : Z * list Shot =>
               {| hd_hole := fst hs;
                  hd_shots :=
                    map shotDetail
                      (firstn 5 (sortBy (byRecency Date_parse) (snd hs))) |}).
  set (cmp := fun a b : HoleDetail => hd_hole a - hd_hole b).
  assert (Hperm : Permutation (map mk ph) (sortBy cmp (map mk ph)))
    by apply sortBy_perm.
  assert (Hholes : Permutation (map fst ph)
                     (map hd_hole (sortBy cmp (map mk ph)))).
  { eapply perm_trans; [|apply Permutation_map, Hperm].
    rewrite map_map. apply Permutation_refl. }
  split; [|split].
  - apply sorted_distinct_strict.
    + assert (Hs : StronglySorted
                     (fun a b => - hd_hole b <= - hd_hole a)
                     (sortBy cmp (map mk ph))).
      { apply (sortBy_desc cmp (fun x => - hd_hole x)).
        intros x y _ _. unfold cmp. lia. }
      eapply StronglySorted_ind with (P := fun l => StronglySorted _ l);
        [constructor| |exact Hs].
      intros a l _ IH Hall. constructor; [exact IH|].
      rewrite Forall_forall in Hall |- *. intros x Hx.
      specialize (Hall x Hx). lia.
    + apply (Permutation_NoDup Hholes).
      apply (perHole_holes_distinct _ _ _ Hmod Hd Hph).
  - intro h. rewrite <- (perHole_holes _ _ _ Hmod Hd Hph h).
    split; apply Permutation_in;
      [apply Permutation_sym|]; exact Hholes.
  - intros hd Hin. apply (proj1 (sortBy_In cmp hd _)) in Hin.
    apply in_map_iff in Hin. destruct Hin as [[h g] [<- Hin]].
    apply (perHole_spec _ _ _ Hmod Hd Hph) in Hin.
    destruct Hin as [-> _]. simpl.
    set (g := holeShotsOf h courseShots).
    set (sorted := sortBy (byRecency Date_parse) g).
    exists (firstn 5 sorted), (skipn 5 sorted).
    rewrite firstn_skipn.
    split; [reflexivity|]. split; [apply sortBy_perm|]. split.
    + apply sortBy_desc. intros x y Hx Hy.
      apply byRecency_key; apply Hvalid;
        [apply filter_In in Hx|apply filter_In in Hy]; tauto.
    + rewrite length_firstn.
      now rewrite (Permutation_length (sortBy_perm (byRecency Date_parse) g)).
Qed.

Lemma holeDetails_latest_five_witness :
  StronglySorted (fun a b => hd_hole a < hd_hole b) Sample.details.
Proof.
  refine (proj1 (holeDetails_latest_five Sample.parseDate (VStr "pebble")
                   Sample.courseShots Sample.details _ _ _)).
  - reflexivity.
  - reflexivity.
  - intros s Hs. simpl in Hs.
    repeat (destruct Hs as [<-|Hs]; [vm_compute; discriminate|]).
    destruct Hs.
Defined.

(* ================================================================== *)
(** ** Shot capture: what the route stores *)



